(** * WebTask Manager: the background script, embedded and verified

    A shallow embedding of [src/background.js] (class [BackgroundTaskManager]):
    the two statistics stores, the lifecycle event handlers, the monitoring
    tick with its staleness cleanup, the query helpers and the formatting
    utilities, followed by the properties stated about them.

    Conventions of the embedding.
    - A JavaScript [Map] keyed by tab or download id is a [gmap Z _]; no
      property below observes the insertion order of a [Map].
    - A property that is missing or holds [undefined] is [None]; both read as
      [undefined], and JSON persistence drops [undefined] properties anyway.
    - Timestamps and byte counts are integers ([Z]).  The download speed, the
      seconds remaining and the memory share are computed in binary64: a
      finite number is kept as the rational it denotes and every operation
      rounds its exact result to the nearest binary64 number ([Binary64]).
      The simulated metrics are exact rationals ([Q]), with [None] standing
      for [NaN]; the download progress, which is returned as a raw number, is
      a primitive binary64 float.
    - [Date.now()] and [Math.random()] read host oracles carried in the world;
      results of awaited host calls are arguments of the handler that awaits
      them. *)

From Stdlib Require Import ZArith QArith Qround Qminmax Qpower Qabs String Ascii List Lia Lqa.
From Stdlib Require Import PrimFloat Floats.FloatOps Floats.SpecFloat.
From stdpp Require Import base option list gmap strings fin_maps fin_map_dom pretty.

#[local] Set Warnings "-clear-no-such-hyp".

Local Open Scope string_scope.
Local Open Scope list_scope.
Local Open Scope Z_scope.

(** ** JavaScript values used by the script *)

Module Js.

(** [!!v] for a number-valued property: [undefined], [NaN] and [0] are falsy. *)
Definition truthy (v : option Z) : bool :=
  match v with
  | Some z => negb (z =? 0)
  | None => false
  end.

(** [a || b] on number-valued properties. *)
Definition or (a b : option Z) : option Z :=
  if truthy a then a else b.

(** [a - b] where [a] is a number: [a - undefined] is [NaN]. *)
Definition sub (a : Z) (b : option Z) : option Z :=
  match b with
  | Some z => Some (a - z)
  | None => None
  end.

(** [a > b]: every comparison with [NaN] is false. *)
Definition gt (a : option Z) (b : Z) : bool :=
  match a with
  | Some z => b <? z
  | None => false
  end.

(** A number that may be non-finite, for the results of divisions. *)
Inductive number :=
| NaN
| Infinity (negative : bool)
| Finite (q : Q).

(** [Math.max(a, b)] with [a] a literal; [NaN] propagates. *)
Definition max (a : Q) (b : option Q) : option Q :=
  match b with
  | Some q => Some (Qmax a q)
  | None => None
  end.

(** [Math.min(a, b)] with [a] a literal; [NaN] propagates. *)
Definition min (a : Q) (b : option Q) : option Q :=
  match b with
  | Some q => Some (Qmin a q)
  | None => None
  end.

(** [a + b] where [a] is a property that may be [undefined] or [NaN]. *)
Definition add (a : option Q) (b : Q) : option Q :=
  match a with
  | Some q => Some (q + b)%Q
  | None => None
  end.

(** The outcome of an awaited host call. *)
Inductive awaited (A : Type) :=
| Resolved (a : A)
| Rejected.
Arguments Resolved {A}.
Arguments Rejected {A}.

End Js.

(** ** Data model *)

(** The object kept per tab in [this.tabStats]. *)
Module TabRecord.
Record t := mk {
  id : option Z;
  title : option string;
  url : option string;
  createdAt : option Z;
  memoryUsage : option Q;
  cpuUsage : option Q;
  lastUpdated : option Z;
  lastSeen : option Z
}.

(** The object literal [{}]. *)
Definition empty : t := mk None None None None None None None None.
End TabRecord.

(** The object kept per download in [this.downloadStats]. *)
Module DownloadRecord.
Record t := mk {
  id : option Z;
  filename : option string;
  url : option string;
  state : option string;
  bytesReceived : option Z;
  totalBytes : option Z;
  createdAt : option Z;
  lastUpdated : option Z
}.

Definition empty : t := mk None None None None None None None None.
End DownloadRecord.

(** A [chrome.tabs.Tab] as far as the script reads it. *)
Module Tab.
Record t := mk {
  id : Z;
  title : option string;
  url : option string;
  active : bool
}.
End Tab.

(** A [chrome.downloads.DownloadItem] as far as the script reads it; the
    host always reports [bytesReceived], while [totalBytes] may be unknown. *)
Module DownloadItem.
Record t := mk {
  id : Z;
  filename : option string;
  url : option string;
  state : option string;
  bytesReceived : Z;
  totalBytes : option Z;
  startTime : string
}.
End DownloadItem.

(** One changed property of a [DownloadDelta]: [{ previous, current }]. *)
Module Delta.
Record t (A : Type) := mk {
  previous : option A;
  current : option A
}.
Arguments mk {A}.
Arguments previous {A}.
Arguments current {A}.
End Delta.

(** A [chrome.downloads.DownloadDelta] as far as the script reads it. *)
Module DownloadDelta.
Record t := mk {
  id : Z;
  state : option (Delta.t string);
  bytesReceived : option (Delta.t Z);
  totalBytes : option (Delta.t Z)
}.
End DownloadDelta.

(** The two keys the script writes to [chrome.storage.local]. *)
Module Storage.
Record t := mk {
  tabStats : option (list (Z * TabRecord.t));
  downloadStats : option (list (Z * DownloadRecord.t))
}.
Definition empty : t := mk None None.
End Storage.

(** ** The world: manager fields, local storage and host oracles *)

Record World := mkWorld {
  tabStats : gmap Z TabRecord.t;
  downloadStats : gmap Z DownloadRecord.t;
  localStorage : Storage.t;
  (** successive readings of [Date.now()] and how many were taken *)
  clock : nat → Z;
  clockReads : nat;
  (** successive results of [Math.random()] and how many were drawn *)
  random : nat → Q;
  randomDraws : nat
}.

(** The constructor's state: both maps empty. *)
Definition initial (clk : nat → Z) (rnd : nat → Q) : World :=
  mkWorld ∅ ∅ Storage.empty clk 0 rnd 0.

(** ** A state monad over the world *)

Definition M (A : Type) : Type := World → A * World.

#[global] Instance M_ret : MRet M := λ A a w, (a, w).
#[global] Instance M_bind : MBind M :=
  λ A B f m w, let '(a, w') := m w in f a w'.

Definition exec {A} (m : M A) (w : World) : World := snd (m w).
Definition eval {A} (m : M A) (w : World) : A := fst (m w).

Definition gets {A} (f : World → A) : M A := λ w, (f w, w).
Definition modify (f : World → World) : M unit := λ w, (tt, f w).

Definition set_tabStats (m : gmap Z TabRecord.t) (w : World) : World :=
  mkWorld m (downloadStats w) (localStorage w)
          (clock w) (clockReads w) (random w) (randomDraws w).

Definition set_downloadStats (m : gmap Z DownloadRecord.t) (w : World) : World :=
  mkWorld (tabStats w) m (localStorage w)
          (clock w) (clockReads w) (random w) (randomDraws w).

Definition set_localStorage (s : Storage.t) (w : World) : World :=
  mkWorld (tabStats w) (downloadStats w) s
          (clock w) (clockReads w) (random w) (randomDraws w).

(** [Date.now()] *)
Definition Date_now : M Z := λ w,
  (clock w (clockReads w),
   mkWorld (tabStats w) (downloadStats w) (localStorage w)
           (clock w) (S (clockReads w)) (random w) (randomDraws w)).

(** [Math.random()] *)
Definition Math_random : M Q := λ w,
  (random w (randomDraws w),
   mkWorld (tabStats w) (downloadStats w) (localStorage w)
           (clock w) (clockReads w) (random w) (S (randomDraws w))).

(** Sequential [for (const x of xs) body(x)]. *)
Fixpoint for_each {A} (xs : list A) (body : A → M unit) : M unit :=
  match xs with
  | [] => mret tt
  | x :: rest => body x ;; for_each rest body
  end.

(** ** Persistence *)

(** [updateStoredStats]: [Array.from(this.tabStats.entries())] written under
    the key [tabStats]. *)
Definition updateStoredStats : M unit :=
  modify (λ w,
    set_localStorage
      (Storage.mk (Some (map_to_list (tabStats w)))
                  (Storage.downloadStats (localStorage w))) w).

(** [updateStoredDownloadStats] *)
Definition updateStoredDownloadStats : M unit :=
  modify (λ w,
    set_localStorage
      (Storage.mk (Storage.tabStats (localStorage w))
                  (Some (map_to_list (downloadStats w)))) w).

(** ** Event handlers *)

(** [onTabCreated(tab)] *)
Definition onTabCreated (tab : Tab.t) : M unit :=
  now ← Date_now;
  modify (λ w,
    set_tabStats
      (<[Tab.id tab :=
          TabRecord.mk (Some (Tab.id tab)) (Tab.title tab) (Tab.url tab)
                       (Some now) (Some 0%Q) (Some 0%Q) None None]>
         (tabStats w)) w) ;;
  updateStoredStats.

(** [onTabRemoved(tabId, removeInfo)] *)
Definition onTabRemoved (tabId : Z) : M unit :=
  modify (λ w, set_tabStats (delete tabId (tabStats w)) w) ;;
  updateStoredStats.

(** [changeInfo.status === 'complete'] *)
Definition status_complete (status : option string) : bool :=
  match status with
  | Some s => String.eqb s "complete"
  | None => false
  end.

(** [onTabUpdated(tabId, changeInfo, tab)] *)
Definition onTabUpdated (tabId : Z) (status : option string) (tab : Tab.t)
  : M unit :=
  if status_complete status then
    existingStats ← gets (λ w, default TabRecord.empty (tabStats w !! tabId));
    now ← Date_now;
    modify (λ w,
      set_tabStats
        (<[tabId :=
            TabRecord.mk (Some tabId) (Tab.title tab) (Tab.url tab)
                         (TabRecord.createdAt existingStats)
                         (TabRecord.memoryUsage existingStats)
                         (TabRecord.cpuUsage existingStats)
                         (Some now)
                         (TabRecord.lastSeen existingStats)]>
           (tabStats w)) w) ;;
    updateStoredStats
  else mret tt.

(** [onDownloadCreated(downloadItem)] *)
Definition onDownloadCreated (downloadItem : DownloadItem.t) : M unit :=
  now ← Date_now;
  modify (λ w,
    set_downloadStats
      (<[DownloadItem.id downloadItem :=
          DownloadRecord.mk (Some (DownloadItem.id downloadItem))
                            (DownloadItem.filename downloadItem)
                            (DownloadItem.url downloadItem)
                            (DownloadItem.state downloadItem)
                            (Some (DownloadItem.bytesReceived downloadItem))
                            (DownloadItem.totalBytes downloadItem)
                            (Some now) None]>
         (downloadStats w)) w) ;;
  updateStoredDownloadStats.

(** The three guarded assignments of [onDownloadChanged]; a delta property is
    an object when present, hence truthy exactly when present. *)
Definition assign_state (d : option (Delta.t string)) (r : DownloadRecord.t)
  : DownloadRecord.t :=
  match d with
  | Some δ =>
      DownloadRecord.mk (DownloadRecord.id r) (DownloadRecord.filename r)
        (DownloadRecord.url r) (Delta.current δ)
        (DownloadRecord.bytesReceived r) (DownloadRecord.totalBytes r)
        (DownloadRecord.createdAt r) (DownloadRecord.lastUpdated r)
  | None => r
  end.

Definition assign_bytesReceived (d : option (Delta.t Z)) (r : DownloadRecord.t)
  : DownloadRecord.t :=
  match d with
  | Some δ =>
      DownloadRecord.mk (DownloadRecord.id r) (DownloadRecord.filename r)
        (DownloadRecord.url r) (DownloadRecord.state r)
        (Delta.current δ) (DownloadRecord.totalBytes r)
        (DownloadRecord.createdAt r) (DownloadRecord.lastUpdated r)
  | None => r
  end.

Definition assign_totalBytes (d : option (Delta.t Z)) (r : DownloadRecord.t)
  : DownloadRecord.t :=
  match d with
  | Some δ =>
      DownloadRecord.mk (DownloadRecord.id r) (DownloadRecord.filename r)
        (DownloadRecord.url r) (DownloadRecord.state r)
        (DownloadRecord.bytesReceived r) (Delta.current δ)
        (DownloadRecord.createdAt r) (DownloadRecord.lastUpdated r)
  | None => r
  end.

Definition assign_lastUpdated (now : Z) (r : DownloadRecord.t)
  : DownloadRecord.t :=
  DownloadRecord.mk (DownloadRecord.id r) (DownloadRecord.filename r)
    (DownloadRecord.url r) (DownloadRecord.state r)
    (DownloadRecord.bytesReceived r) (DownloadRecord.totalBytes r)
    (DownloadRecord.createdAt r) (Some now).

(** [onDownloadChanged(downloadDelta)] *)
Definition onDownloadChanged (downloadDelta : DownloadDelta.t) : M unit :=
  existingStats ← gets (λ w,
    default DownloadRecord.empty
            (downloadStats w !! DownloadDelta.id downloadDelta));
  let existingStats :=
    assign_state (DownloadDelta.state downloadDelta) existingStats in
  let existingStats :=
    assign_bytesReceived (DownloadDelta.bytesReceived downloadDelta)
                         existingStats in
  let existingStats :=
    assign_totalBytes (DownloadDelta.totalBytes downloadDelta) existingStats in
  now ← Date_now;
  let existingStats := assign_lastUpdated now existingStats in
  modify (λ w,
    set_downloadStats
      (<[DownloadDelta.id downloadDelta := existingStats]> (downloadStats w))
      w) ;;
  updateStoredDownloadStats.

(** ** Monitoring *)

(** [const maxAge = 24 * 60 * 60 * 1000] *)
Definition maxAge : Z := 24 * 60 * 60 * 1000.

(** [now - (stats.lastSeen || stats.createdAt) > maxAge] *)
Definition tab_expired (now : Z) (stats : TabRecord.t) : bool :=
  Js.gt (Js.sub now (Js.or (TabRecord.lastSeen stats)
                           (TabRecord.createdAt stats))) maxAge.

(** [now - (stats.lastUpdated || stats.createdAt) > maxAge] *)
Definition download_expired (now : Z) (stats : DownloadRecord.t) : bool :=
  Js.gt (Js.sub now (Js.or (DownloadRecord.lastUpdated stats)
                           (DownloadRecord.createdAt stats))) maxAge.

(** The body of the first loop of [cleanupOldStats]. *)
Definition evict_tab (now : Z) (entry : Z * TabRecord.t) : M unit :=
  let '(tabId, stats) := entry in
  if tab_expired now stats
  then modify (λ w, set_tabStats (delete tabId (tabStats w)) w)
  else mret tt.

(** The body of the second loop of [cleanupOldStats]. *)
Definition evict_download (now : Z) (entry : Z * DownloadRecord.t) : M unit :=
  let '(downloadId, stats) := entry in
  if download_expired now stats
  then modify (λ w, set_downloadStats (delete downloadId (downloadStats w)) w)
  else mret tt.

(** [cleanupOldStats()].  Each loop walks the entries of its map and deletes
    only the entry it is visiting, so walking the entries present at loop
    entry visits the same pairs as the live iterator does. *)
Definition cleanupOldStats : M unit :=
  now ← Date_now;
  tabEntries ← gets (λ w, map_to_list (tabStats w));
  for_each tabEntries (evict_tab now) ;;
  downloadEntries ← gets (λ w, map_to_list (downloadStats w));
  for_each downloadEntries (evict_download now).

(** The body of the [for (const tab of tabs)] loop of the monitoring tick. *)
Definition observe_tab (tab : Tab.t) : M unit :=
  tracked ← gets (λ w, tabStats w !! Tab.id tab);
  match tracked with
  | Some stats =>
      now ← Date_now;
      r1 ← Math_random;
      let memoryUsage :=
        Js.max 10
          (Js.add (TabRecord.memoryUsage stats) ((r1 - (1 # 2)) * 10)%Q) in
      r2 ← Math_random;
      let cpuUsage :=
        Js.max 0 (Js.min 100
          (Js.add (TabRecord.cpuUsage stats) ((r2 - (1 # 2)) * 5)%Q)) in
      modify (λ w,
        set_tabStats
          (<[Tab.id tab :=
              TabRecord.mk (TabRecord.id stats) (TabRecord.title stats)
                           (TabRecord.url stats) (TabRecord.createdAt stats)
                           memoryUsage cpuUsage
                           (TabRecord.lastUpdated stats) (Some now)]>
             (tabStats w)) w)
  | None => mret tt
  end.

(** The callback that [startMonitoring] schedules every 10 seconds; [tabs] is
    the outcome of [await chrome.tabs.query({})].  A rejection lands in the
    [catch], which only logs. *)
Definition monitoringTick (tabs : Js.awaited (list Tab.t)) : M unit :=
  match tabs with
  | Js.Resolved tabs =>
      for_each tabs observe_tab ;;
      cleanupOldStats ;;
      updateStoredStats ;;
      updateStoredDownloadStats
  | Js.Rejected => mret tt
  end.

(** ** Synchronisation from storage *)

(** One entry of the [changes] object of [chrome.storage.onChanged]. *)
Module StorageChange.
Record t (A : Type) := mk {
  oldValue : option A;
  newValue : option A
}.
Arguments mk {A}.
Arguments oldValue {A}.
Arguments newValue {A}.
End StorageChange.

Module Changes.
Record t := mk {
  tabStats : option (StorageChange.t (list (Z * TabRecord.t)));
  downloadStats : option (StorageChange.t (list (Z * DownloadRecord.t)))
}.
End Changes.

(** [new Map(iterable)]: the pairs are [set] in order, so a later pair with
    the same key replaces an earlier one. *)
Definition new_Map {V} (entries : list (Z * V)) : gmap Z V :=
  foldl (λ m kv, <[kv.1 := kv.2]> m) ∅ entries.

(** [onStorageChanged(changes, namespace)] *)
Definition onStorageChanged (changes : Changes.t) (namespace : string)
  : M unit :=
  if String.eqb namespace "local" then
    match Changes.tabStats changes with
    | Some change =>
        modify (set_tabStats
                  (new_Map (default [] (StorageChange.newValue change))))
    | None => mret tt
    end ;;
    match Changes.downloadStats changes with
    | Some change =>
        modify (set_downloadStats
                  (new_Map (default [] (StorageChange.newValue change))))
    | None => mret tt
    end
  else mret tt.

(** ** Binary64 arithmetic

    The numbers of the script are binary64.  A finite one is kept as the
    rational it denotes; an operation returns the binary64 number nearest to
    its exact result, the one with the even significand on a tie, and an
    infinity beyond the largest finite number.  The sign of a zero is not
    kept: no text the script produces depends on it. *)

(** The integer part of the binary logarithm of a positive rational. *)
Definition floor_log2 (q : Q) : Z :=
  let n := Qnum q in
  let d := Z.pos (Qden q) in
  let e := Z.log2 n - Z.log2 d in
  if 2 ^ Z.max e 0 * d <=? 2 ^ Z.max (- e) 0 * n then e else e - 1.

Module Binary64.

(** The integer nearest to [x], the even one on a tie. *)
Definition nearest_even (x : Q) : Z :=
  let below := Qfloor x in
  match (x - inject_Z below ?= 1 # 2)%Q with
  | Lt => below
  | Gt => below + 1
  | Eq => if Z.even below then below else below + 1
  end.

(** The exponent [e] of the binade [2^e <= a < 2^(e+1)] of a positive [a];
    below [2^-1022] the numbers are subnormal and keep the exponent -1022. *)
Definition exponent (a : Q) : Z := Z.max (floor_log2 a) (-1022).

(** The spacing of the binary64 numbers of that binade: 53 significant
    bits. *)
Definition ulp (a : Q) : Q := 2 ^ (exponent a - 52).

(** The multiple of the spacing nearest to [q]: the magnitude is rounded and
    the sign put back. *)
Definition nearest (q : Q) : Q :=
  let a := Qabs q in
  let r := (inject_Z (nearest_even (a / ulp a)) * ulp a)%Q in
  Qred (if Qle_bool 0 q then r else - r).

Definition negative (q : Q) : bool := negb (Qle_bool 0 q).

(** The binary64 number for the real [q]. *)
Definition round (q : Q) : Js.number :=
  let r := nearest q in
  if Qle_bool (2 ^ 1024) (Qabs r) then Js.Infinity (negative q)
  else Js.Finite r.

(** The number for an integer; the integers of magnitude up to [2^53] are
    binary64 numbers themselves. *)
Definition of_Z (z : Z) : Js.number := round (inject_Z z).

(** [a / b] *)
Definition div (a b : Js.number) : Js.number :=
  match a, b with
  | Js.Finite x, Js.Finite y =>
      if Qeq_bool y 0 then
        if Qeq_bool x 0 then Js.NaN else Js.Infinity (negative x)
      else round (x / y)
  | Js.Finite _, Js.Infinity _ => Js.Finite 0
  | Js.Infinity s, Js.Finite y => Js.Infinity (xorb s (negative y))
  | _, _ => Js.NaN
  end.

(** [a * b] *)
Definition mul (a b : Js.number) : Js.number :=
  match a, b with
  | Js.Finite x, Js.Finite y => round (x * y)
  | Js.Infinity s, Js.Finite y | Js.Finite y, Js.Infinity s =>
      if Qeq_bool y 0 then Js.NaN else Js.Infinity (xorb s (negative y))
  | Js.Infinity s, Js.Infinity t => Js.Infinity (xorb s t)
  | _, _ => Js.NaN
  end.

End Binary64.

(** The primitive binary64 float of the kernel as a number, to compare the
    arithmetic above with it. *)
Definition float_value (f : float) : Js.number :=
  match Prim2SF f with
  | S754_zero _ => Js.Finite 0
  | S754_infinity negative => Js.Infinity negative
  | S754_nan => Js.NaN
  | S754_finite negative m e =>
      Js.Finite (Qred ((if negative then -1 else 1)
                       * inject_Z (Z.pos m) * 2 ^ e))
  end.

(** ** Formatting utilities *)

(** [const sizes = ['B', 'KB', 'MB', 'GB']] *)
Definition sizes : list string := ["B"; "KB"; "MB"; "GB"].

(** [sizes[i]] for an integral [i]: any index outside the array, a negative
    one included, reads [undefined]. *)
Definition sizes_at (i : Z) : option string :=
  if i <? 0 then None else sizes !! Z.to_nat i.

(** String concatenation with a value that may be [undefined]. *)
Definition to_string (v : option string) : string := default "undefined" v.

(** [Math.floor(Math.log(bytes) / Math.log(k))] with [k = 1024], for
    [bytes > 0], in exact arithmetic: the [i] with
    [1024^i <= bytes < 1024^(i+1)]. *)
Definition unit_index (bytes : Q) : Z := floor_log2 bytes / 10.

(** [parseFloat(x.toFixed(1))] for [x >= 0], as a number of tenths:
    [toFixed] rounds to the nearest tenth, the larger one on a tie. *)
Definition tenths (x : Q) : Z := Qfloor (x * 10 + (1 # 2)).

(** The decimal text of a non-negative number of tenths. *)
Definition show_tenths (n : Z) : string :=
  pretty (n / 10) +:+
  (if n mod 10 =? 0 then EmptyString else "." +:+ pretty (n mod 10)).

(** The text before the unit in [formatBytes], for [bytes > 0]. *)
Definition mantissa (bytes : Q) : string :=
  show_tenths (tenths (bytes / 1024 ^ unit_index bytes)).

(** [formatBytes(bytes)] on numbers.  A negative or infinite argument makes
    the logarithm or the quotient [NaN], and [sizes[NaN]] is [undefined]. *)
Definition formatBytes (bytes : Js.number) : string :=
  match bytes with
  | Js.NaN => "0 B"
  | Js.Infinity _ => "NaN undefined"
  | Js.Finite q =>
      if Qeq_bool q 0 then "0 B"
      else if Qle_bool q 0 then "NaN undefined"
      else mantissa q +:+ " " +:+ to_string (sizes_at (unit_index q))
  end.

(** Trailing zeros dropped from a run of digits given last digit first. *)
Fixpoint drop_zeros (reversed : list ascii) : list ascii :=
  match reversed with
  | "0"%char :: rest => drop_zeros rest
  | _ => reversed
  end.

(** Whether the decimal [candidate] denotes the binary64 integer [x]. *)
Definition round_trips (x candidate : Z) : bool :=
  match Binary64.round (inject_Z candidate) with
  | Js.Finite r => Qeq_bool r (inject_Z x)
  | _ => false
  end.

(** The decimal of [k] significant digits that denotes [x], the one nearest
    to [x] if there are two, if there is any. *)
Definition shortest_at (x : Z) (k : Z) : option Z :=
  let scale := 10 ^ (Z.of_nat (String.length (pretty x)) - k) in
  let lo := x / scale * scale in
  let hi := lo + scale in
  match round_trips x lo, round_trips x hi with
  | true, true =>
      match x - lo ?= hi - x with
      | Lt => Some lo
      | Gt => Some hi
      | Eq => Some (if Z.even (lo / scale) then lo else hi)
      end
  | true, false => Some lo
  | false, true => Some hi
  | false, false => None
  end.

(** The decimal with the fewest significant digits among [ks] that denotes
    [x]. *)
Fixpoint shortest (x : Z) (ks : list Z) : Z :=
  match ks with
  | k :: rest =>
      match shortest_at x k with
      | Some v => v
      | None => shortest x rest
      end
  | [] => x
  end.

(** The text of a binary64 integer [x >= 10^21]: the fewest digits that
    denote it (17 always do), as [d.ddd] and the power of ten. *)
Definition exponent_form (x : Z) : string :=
  let digits := list_ascii_of_string (pretty (shortest x (seqZ 1 17))) in
  let exponent := Z.of_nat (List.length digits) - 1 in
  match rev (drop_zeros (rev digits)) with
  | [first] => String first ("e+" +:+ pretty exponent)
  | first :: rest =>
      String first ("." +:+ string_of_list_ascii rest
                    +:+ "e+" +:+ pretty exponent)
  | [] => EmptyString
  end.

(** The text of an integer-valued number: its decimal digits below [10^21],
    the exponent form from there on. *)
Definition integer_text (n : Z) : string :=
  if Z.abs n <? 10 ^ 21 then pretty n
  else (if n <? 0 then "-" else EmptyString) +:+ exponent_form (Z.abs n).

(** [Math.round(x)] followed by conversion to text. *)
Definition show_round (x : Js.number) : string :=
  match x with
  | Js.NaN => "NaN"
  | Js.Infinity false => "Infinity"
  | Js.Infinity true => "-Infinity"
  | Js.Finite q => integer_text (Qfloor (q + (1 # 2)))
  end.

(** [x < bound]; false on [NaN]. *)
Definition number_lt (x : Js.number) (bound : Q) : bool :=
  match x with
  | Js.NaN => false
  | Js.Infinity negative => negative
  | Js.Finite q => negb (Qle_bool bound q)
  end.

(** [x >= bound]; false on [NaN]. *)
Definition number_ge (x : Js.number) (bound : Q) : bool :=
  match x with
  | Js.NaN => false
  | Js.Infinity negative => negb negative
  | Js.Finite q => Qle_bool bound q
  end.

(** [x <= bound]; false on [NaN]. *)
Definition number_le (x : Js.number) (bound : Q) : bool :=
  match x with
  | Js.NaN => false
  | Js.Infinity negative => negative
  | Js.Finite q => Qle_bool q bound
  end.

(** [x / d] for a literal [d]. *)
Definition number_div (x : Js.number) (d : Q) : Js.number :=
  Binary64.div x (Js.Finite d).

(** [formatTime(seconds)] *)
Definition formatTime (seconds : Js.number) : string :=
  if number_lt seconds 60 then show_round seconds +:+ "s"
  else if number_lt seconds 3600 then show_round (number_div seconds 60) +:+ "m"
  else show_round (number_div seconds 3600) +:+ "h".

(** ** The speed pattern of [calculateTimeRemaining]

    Group 1 is [\d+], an optional dot and [\d*]; then [\s*]; group 2 is
    [\w+]. *)

Module Regex.

Definition code (c : ascii) : N := N_of_ascii c.

(** [\d] *)
Definition digit (c : ascii) : bool :=
  ((48 <=? code c) && (code c <=? 57))%N.

(** [\s], on ASCII *)
Definition space (c : ascii) : bool :=
  ((code c =? 32) || ((9 <=? code c) && (code c <=? 13)))%N.

(** [\w] *)
Definition word (c : ascii) : bool :=
  (digit c
   || ((65 <=? code c) && (code c <=? 90))
   || ((97 <=? code c) && (code c <=? 122))
   || (code c =? 95))%N.

(** The ways a greedy [p*] can match at the head of [l], longest first, each
    with the text that remains. *)
Fixpoint star (p : ascii → bool) (l : list ascii)
  : list (list ascii * list ascii) :=
  match l with
  | c :: rest =>
      if p c
      then List.map (λ m, (c :: m.1, m.2)) (star p rest) ++ [([], l)]
      else [([], l)]
  | [] => [([], [])]
  end.

(** Greedy [p+]: as [p*] without the empty match. *)
Definition plus (p : ascii → bool) (l : list ascii)
  : list (list ascii * list ascii) :=
  List.filter (λ m, negb (Nat.eqb (List.length m.1) 0)) (star p l).

(** [\.?]: the dot when there is one, else nothing. *)
Definition optional_dot (l : list ascii) : list (list ascii * list ascii) :=
  match l with
  | "."%char :: rest => [(["."%char], rest); ([], l)]
  | _ => [([], l)]
  end.

(** Every match of the whole pattern anchored at the head of [l], in the
    order backtracking tries them, as the two captured groups. *)
Definition matches_here (l : list ascii) : list (list ascii * list ascii) :=
  '(d1, r1) ← plus digit l;
  '(dot, r2) ← optional_dot r1;
  '(d2, r3) ← star digit r2;
  '(_, r4) ← star space r3;
  '(w, _) ← plus word r4;
  [(d1 ++ dot ++ d2, w)].

(** The leftmost match, searched from every start position in turn. *)
Fixpoint search (l : list ascii) : option (list ascii * list ascii) :=
  match matches_here l with
  | m :: _ => Some m
  | [] =>
      match l with
      | _ :: rest => search rest
      | [] => None
      end
  end.

(** [speed.match(pattern)]: groups 1 and 2, or [null]. *)
Definition match_speed (speed : string) : option (string * string) :=
  match search (list_ascii_of_string speed) with
  | Some (g1, g2) => Some (string_of_list_ascii g1, string_of_list_ascii g2)
  | None => None
  end.

End Regex.

(** The value of a run of decimal digits. *)
Definition digits_value (l : list ascii) : Z :=
  foldl (λ acc c, 10 * acc + (Z.of_N (Regex.code c) - 48)) 0 l.

(** The longest prefix of [l] made of digits, and what follows it. *)
Fixpoint leading_digits (l : list ascii) : list ascii * list ascii :=
  match l with
  | c :: rest =>
      if Regex.digit c
      then let '(ds, tail) := leading_digits rest in (c :: ds, tail)
      else ([], l)
  | [] => ([], [])
  end.

(** The decimal a text of the shape of group 1 denotes; [parseFloat(text)] is
    the binary64 number for it, which the caller takes with
    [Binary64.round]. *)
Definition parseFloat (text : string) : Q :=
  let '(whole, tail) := leading_digits (list_ascii_of_string text) in
  match tail with
  | "."%char :: rest =>
      let fraction := (leading_digits rest).1 in
      (inject_Z (digits_value whole)
       + inject_Z (digits_value fraction)
         / inject_Z (10 ^ Z.of_nat (List.length fraction)))%Q
  | _ => inject_Z (digits_value whole)
  end.

(** [c.toLowerCase()] on ASCII. *)
Definition lower (c : ascii) : ascii :=
  if ((65 <=? Regex.code c) && (Regex.code c <=? 90))%N
  then ascii_of_N (Regex.code c + 32)
  else c.

(** [text.toLowerCase()] *)
Definition toLowerCase (text : string) : string :=
  string_of_list_ascii (List.map lower (list_ascii_of_string text)).

(** ** Download speed and time remaining *)

(** [calculateDownloadSpeed(downloadId)] *)
Definition calculateDownloadSpeed (downloadId : Z) : M string :=
  stats ← gets (λ w, downloadStats w !! downloadId);
  match stats with
  | None => mret "N/A"
  | Some stats =>
      match DownloadRecord.lastUpdated stats,
            DownloadRecord.bytesReceived stats with
      | Some lastUpdated, Some bytesReceived =>
          if (lastUpdated =? 0) || (bytesReceived =? 0) then mret "N/A"
          else
            now ← Date_now;
            let timeDiff :=
              Binary64.div (Binary64.of_Z (now - lastUpdated))
                           (Js.Finite 1000) in
            if number_lt timeDiff 1 then mret "N/A"
            else
              let speed :=
                Binary64.div (Binary64.of_Z bytesReceived) timeDiff in
              mret (formatBytes speed +:+ "/s")
      | _, _ => mret "N/A"
      end
  end.

(** The [switch (speedUnit.toLowerCase())] of [calculateTimeRemaining], as the
    factor [bytesPerSecond] is multiplied by; for a unit without a [case] it
    is 1, which leaves a binary64 number as it is. *)
Definition unit_factor (speedUnit : string) : Q :=
  let u := toLowerCase speedUnit in
  if String.eqb u "kb" then 1024
  else if String.eqb u "mb" then 1024 * 1024
  else if String.eqb u "gb" then 1024 * 1024 * 1024
  else 1.

(** [stats.state !== 'in_progress'] *)
Definition not_in_progress (state : option string) : bool :=
  match state with
  | Some s => negb (String.eqb s "in_progress")
  | None => true
  end.

(** [calculateTimeRemaining(downloadId)] *)
Definition calculateTimeRemaining (downloadId : Z) : M string :=
  stats ← gets (λ w, downloadStats w !! downloadId);
  match stats with
  | None => mret "N/A"
  | Some stats =>
      match DownloadRecord.totalBytes stats,
            DownloadRecord.bytesReceived stats with
      | Some totalBytes, Some bytesReceived =>
          if (totalBytes =? 0) || (bytesReceived =? 0)
             || not_in_progress (DownloadRecord.state stats)
          then mret "N/A"
          else
            let remainingBytes :=
              Binary64.of_Z (totalBytes - bytesReceived) in
            speed ← calculateDownloadSpeed downloadId;
            if String.eqb speed "N/A" then mret "N/A"
            else
              match Regex.match_speed speed with
              | None => mret "N/A"
              | Some (speedValue, speedUnit) =>
                  let bytesPerSecond :=
                    Binary64.mul (Binary64.round (parseFloat speedValue))
                                 (Js.Finite (unit_factor speedUnit)) in
                  let secondsRemaining :=
                    Binary64.div remainingBytes bytesPerSecond in
                  mret (formatTime secondsRemaining)
              end
      | _, _ => mret "N/A"
      end
  end.

(** ** Queries *)

(** [String.prototype.localeCompare] belongs to the host: a negative, zero or
    positive number as the receiver collates before, with or after the
    argument. *)
Class Collation := localeCompare : string → string → Z.

(** What ECMAScript asks of a comparator for [sort] to have a defined
    result. *)
Definition consistent_comparator {A} (cmp : A → A → Z) : Prop :=
  (∀ a b, Z.sgn (cmp b a) = - Z.sgn (cmp a b)) ∧
  (∀ a b c, cmp a b <= 0 → cmp b c <= 0 → cmp a c <= 0).

(** Collation by code units, which is how the host orders texts made of
    digits at the same positions, such as its ISO 8601 time stamps. *)
Definition codeunit_compare : Collation := λ a b,
  match String.compare a b with
  | Lt => -1
  | Eq => 0
  | Gt => 1
  end.

(** The host ([chrome.downloads]) reports [startTime] as an ISO 8601 text
    in UTC, [YYYY-MM-DDTHH:MM:SS.mmmZ]; an instant is given here by those
    calendar fields. *)
Module Instant.
Record t := mk {
  year : N;
  month : N;
  day : N;
  hour : N;
  minute : N;
  second : N;
  millisecond : N
}.

(** Every field fits the width the format gives it. *)
Definition in_range (i : t) : Prop :=
  (year i < 10000 ∧ month i < 100 ∧ day i < 100 ∧ hour i < 100 ∧
   minute i < 100 ∧ second i < 100 ∧ millisecond i < 1000)%N.

(** Chronological comparison: field by field, most significant first. *)
Definition compare (a b : t) : comparison :=
  match N.compare (year a) (year b) with
  | Eq =>
    match N.compare (month a) (month b) with
    | Eq =>
      match N.compare (day a) (day b) with
      | Eq =>
        match N.compare (hour a) (hour b) with
        | Eq =>
          match N.compare (minute a) (minute b) with
          | Eq =>
            match N.compare (second a) (second b) with
            | Eq => N.compare (millisecond a) (millisecond b)
            | c => c
            end
          | c => c
          end
        | c => c
        end
      | c => c
      end
    | c => c
    end
  | c => c
  end.

(** [n] in decimal with exactly [width] digits, for [n < 10^width]. *)
Fixpoint decimal (width : nat) (n : N) : string :=
  match width with
  | O => EmptyString
  | S w =>
      String (ascii_of_N (48 + n / 10 ^ N.of_nat w))
             (decimal w (n mod 10 ^ N.of_nat w))
  end.

Definition toISOString (i : t) : string :=
  decimal 4 (year i) +:+ "-" +:+ decimal 2 (month i) +:+ "-" +:+
  decimal 2 (day i) +:+ "T" +:+ decimal 2 (hour i) +:+ ":" +:+
  decimal 2 (minute i) +:+ ":" +:+ decimal 2 (second i) +:+ "." +:+
  decimal 3 (millisecond i) +:+ "Z".
End Instant.

(** The host's collation orders two time stamps as their code units do. *)
Definition collates_stamps_by_code_unit (collation : Collation) : Prop :=
  ∀ a b, Instant.in_range a → Instant.in_range b →
    Z.sgn (localeCompare (Instant.toISOString a) (Instant.toISOString b)) =
    Z.sgn (codeunit_compare (Instant.toISOString a) (Instant.toISOString b)).

(** [x] goes in front of the first element it does not sort after. *)
Fixpoint sort_insert {A} (cmp : A → A → Z) (x : A) (l : list A) : list A :=
  match l with
  | [] => [x]
  | y :: rest =>
      if cmp x y <=? 0 then x :: l else y :: sort_insert cmp x rest
  end.

(** [array.sort(cmp)]: the stable sort, which a consistent comparator
    determines uniquely. *)
Definition Array_sort {A} (cmp : A → A → Z) (array : list A) : list A :=
  foldr (sort_insert cmp) [] array.

(** Every element of [l] is in comparator order with its successor. *)
Fixpoint ordered {A} (cmp : A → A → Z) (l : list A) : Prop :=
  match l with
  | x :: (y :: _) as rest => cmp x y <= 0 ∧ ordered cmp rest
  | _ => True
  end.

(** An integer as a binary64 number: the nearest one, ties to even. *)
Definition to_float (z : Z) : float :=
  SF2Prim (binary_normalize prec emax z 0 false).

(** Whether two numbers are the same number. *)
Definition number_same (a b : Js.number) : bool :=
  match a, b with
  | Js.NaN, Js.NaN => true
  | Js.Infinity s, Js.Infinity t => Bool.eqb s t
  | Js.Finite x, Js.Finite y => Qeq_bool x y
  | _, _ => false
  end.

(** Operands [(a, b, c)] of quotients [a / (b / c)], as the speed and the
    seconds remaining are computed, on which [Binary64] is compared with the
    primitive floats. *)
Definition quotient_samples : list (Z * Z * Z) :=
  [(23, 20000, 1000); (11, 5000, 1000); (1, 2000, 1000); (3072, 2000, 1000);
   (977, 11, 10); (132, 22, 10); (1000, 3, 7); (1, 3, 1); (2, 3, 1);
   (10, 1, 3); (75131378, 63588990769090, 3); (824, 510846882, 1);
   (58, 18586, 95075); (737164361571, 8513455925, 1); (2269380279, 1, 3);
   (6287550639, 79317234, 3); (250875090, 65687880821, 10);
   (87885989, 53318, 10); (344688282792, 9020417729127, 1000);
   (73, 7044209908015, 7); (1121163, 1, 3); (58913681020128, 50393819, 3600);
   (1225381, 2703488258, 7); (91378, 43593, 3600); (2078432804686, 253, 10);
   (1, 65340317, 186310); (7331, 204745830, 1); (6438287, 51, 3);
   (5, 83420305449031, 1000); (3069, 9679780, 1000); (219, 34665428, 60);
   (54349788868753, 10, 3); (2734122107, 6, 1024); (983, 2467764734, 3600);
   (643, 319, 3); (35113979485366, 172613879497, 775343);
   (6361, 679517438226093, 3600); (2, 5, 7); (6417, 55158, 1024);
   (68168, 952, 10); (234, 75076880, 10); (27840, 229660125955716, 1000);
   (35, 7477698, 1000); (3, 48338, 1); (47, 913, 60);
   (97637083948, 627537958, 1); (4371822291, 789223250807247, 1000);
   (2, 9028904, 7); (143242, 10, 475101); (772807, 3, 60);
   (89053, 59516631332, 1000); (80614388343015, 7, 1000); (310307519, 82, 7);
   (819889569734101, 407306, 1024); (62092105, 11792009886448, 543894);
   (5, 4671774412, 3); (545945683710, 8555233250295, 1000); (315656, 695, 3);
   (182114292, 6025434193646, 1024); (32411395, 424419, 7);
   (9007199254740993, 3, 1); (1152921504606859321, 1073741825, 1000);
   (1, 1208925819614629174706176, 3);
   (89884656743115795386465259539451236680898848947115328636715040578866337902750481566354238661203768010560056939935696678829394884407208311246423715319737062188883946712432742638151109800623047059726541476042502884419075341171231440736956555270413618581675255342293149119973622969239858152417678164812112068608, 1, 1048576);
   (13582985290493858492773514283592667786034938469317445497485196697278130927542418487205392083207560592298578262953847383475038725543234929971155548342800628721885763499406390331782864144164680730766837160526223176512798435772129956553355286032203080380775759732320198985094884004069116123084147875437183658467465148948790552744165376, 3, 1);
   (1, 11505236063118821809467553221049758295155052665230762065499525194094891251552061640493342548634082305351687288311769174890162545204122663839542235560926343960177145179191391057683342054479750023644997308933440369205641643669917624414330439074612943178454432683813523087356623740062701843509462805095950344781824, 1);
   (3, 202402253307310618352495346718917307049556649764142118356901358027430339567995346891960383701437124495187077864316811911389808737385793476867013399940738509921517424276566361364466907742093216341239767678472745068562007483424692698618103355649159556340810056512358769552333414615230502532186327508646006263307707741093494784, 1);
   (5, 809609013229242473409981386875669228198226599056568473427605432109721358271981387567841534805748497980748311457267247645559234949543173907468053599762954039686069697106265445457867630968372865364959070713890980274248029933698770794472413422596638225363240226049435078209333658460922010128745310034584025053230830964373979136, 1);
   ((-7), 3, 1); ((-1180591620717411303424), 9, 11); (0, 5, 3); (5, 0, 3)].

(** Operands [(used, capacity)] of percentages [used / capacity * 100]. *)
Definition percentage_samples : list (Z * Z) :=
  [(29, 200); (56389304818591, 70929943168039); (5000, 8000); (1, 3); (2, 3);
   (0, 7); (7, 7); (3529, 5196); (902037253023370, 3398550953476469);
   (1798, 6299); (18081350808, 89854166423); (179, 255); (0, 6);
   (44336, 215446); (60, 116); (56119, 242676); (41992268, 51344738);
   (9944445480, 10711113151); (150459085755, 354130693661);
   (153367402019, 369545378754); (2422528985, 40176046291);
   (418565318073, 1778700065668); (0, 2); (129822383797755, 897167733578314);
   (42276184, 58529776); (12057626398, 24288224916); (6, 22); (3892, 6749);
   (23403, 23421); (0, 1); (278, 928); (563420340056119, 607636278108886);
   (430180455598, 833209949208); (196375456448872, 2040666521959899);
   (119809322, 125171967); (15957738400060, 18281047139671); (55, 5125);
   (16866148, 18455377); (1044176742727235, 2126282913970407);
   (429694, 1365923); (82, 93); (9445963912190, 15007146092239);
   (392383984403196, 721468315482992); (236707026, 355505564);
   (1767551, 2308134); (15994113573906, 548816398269102); (1049, 13257);
   (9423239, 214710750); (1372, 2184); (8277005423143, 16113806357430);
   (450, 529); (369468141, 2486576218); (157279669414304, 247369592379727);
   (382123, 435768); (10835269288, 11333865274); (15768107671, 18281585805);
   (80963445955, 331606863964)].

(** An element of the array returned by [getEnhancedDownloadStats]: the
    object [{...download, ...storedStats, progress, speed,
    estimatedTimeRemaining}], kept as its two spread sources and its three
    computed properties. *)
Module EnhancedDownload.
Record t := mk {
  download : DownloadItem.t;
  storedStats : DownloadRecord.t;
  progress : float;
  speed : string;
  estimatedTimeRemaining : string
}.

(** No tracked record carries a [startTime], so the host's value is read. *)
Definition startTime (e : t) : string := DownloadItem.startTime (download e).
End EnhancedDownload.

(** The [progress] property computed for one download, in binary64
    arithmetic as the script computes it. *)
Definition progress_of (download : DownloadItem.t) : float :=
  match DownloadItem.totalBytes download with
  | Some totalBytes =>
      if negb (DownloadItem.bytesReceived download =? 0)
         && negb (totalBytes =? 0)
      then (to_float (DownloadItem.bytesReceived download)
            / to_float totalBytes * 100)%float
      else 0%float
  | None => 0%float
  end.

(** The body of the [for (const download of downloads)] loop. *)
Definition enhance (download : DownloadItem.t) : M EnhancedDownload.t :=
  storedStats ← gets (λ w,
    default DownloadRecord.empty (downloadStats w !! DownloadItem.id download));
  speed ← calculateDownloadSpeed (DownloadItem.id download);
  estimatedTimeRemaining ← calculateTimeRemaining (DownloadItem.id download);
  mret (EnhancedDownload.mk download storedStats (progress_of download)
                            speed estimatedTimeRemaining).

(** The loop that fills [enhancedStats]. *)
Fixpoint enhance_all (downloads : list DownloadItem.t)
  : M (list EnhancedDownload.t) :=
  match downloads with
  | [] => mret []
  | download :: rest =>
      e ← enhance download;
      es ← enhance_all rest;
      mret (e :: es)
  end.

(** [getEnhancedDownloadStats()]; [downloads] is what
    [await chrome.downloads.search({ limit: 100 })] resolved to. *)
Definition getEnhancedDownloadStats {collation : Collation}
    (downloads : list DownloadItem.t) : M (list EnhancedDownload.t) :=
  enhancedStats ← enhance_all downloads;
  mret (Array_sort
          (λ a b, localeCompare (EnhancedDownload.startTime b)
                                (EnhancedDownload.startTime a))
          enhancedStats).

(** [chrome.system.memory.getInfo()] *)
Module MemoryInfo.
Record t := mk {
  capacity : Z;
  availableCapacity : Z
}.
End MemoryInfo.

(** What the host offers to [getSystemStats]: whether [chrome.system.cpu] and
    [chrome.system.memory] exist, and the outcome of each awaited call. *)
Module SystemHost.
Record t := mk {
  system_cpu : option (Js.awaited unit);
  tabs_query : Js.awaited (list Tab.t);
  downloads_search : Js.awaited (list DownloadItem.t);
  system_memory : option (Js.awaited MemoryInfo.t)
}.
End SystemHost.

Module SystemStats.
Record t := mk {
  cpu : Q;
  memory : Js.number;
  timestamp : Z
}.
End SystemStats.

(** The first [if] of the [try] block: [None] when an awaited call rejects. *)
Definition estimate_cpu (host : SystemHost.t) (stats : SystemStats.t)
  : M (option SystemStats.t) :=
  match SystemHost.system_cpu host with
  | Some cpuInfo =>
      match cpuInfo, SystemHost.tabs_query host,
            SystemHost.downloads_search host with
      | Js.Resolved _, Js.Resolved tabs, Js.Resolved downloads =>
          let tabCount := inject_Z (Z.of_nat (List.length tabs)) in
          let downloadCount := inject_Z (Z.of_nat (List.length downloads)) in
          r ← Math_random;
          mret (Some (SystemStats.mk
                        (Qmin 90 (Qmax 5 (tabCount * 2 + downloadCount * 5
                                          + r * 20)))
                        (SystemStats.memory stats)
                        (SystemStats.timestamp stats)))
      | _, _, _ => mret None
      end
  | None => mret (Some stats)
  end.

(** [Math.round(x)] on a number that may be non-finite. *)
Definition number_round (x : Js.number) : Js.number :=
  match x with
  | Js.Finite q => Js.Finite (inject_Z (Qfloor (q + (1 # 2))))
  | other => other
  end.

(** [x * 100] *)
Definition number_percent (x : Js.number) : Js.number :=
  Binary64.mul x (Js.Finite 100).

(** The second [if] of the [try] block. *)
Definition measure_memory (host : SystemHost.t) (stats : SystemStats.t)
  : option SystemStats.t :=
  match SystemHost.system_memory host with
  | Some (Js.Resolved memoryInfo) =>
      let usedMemory :=
        Binary64.of_Z (MemoryInfo.capacity memoryInfo
                       - MemoryInfo.availableCapacity memoryInfo) in
      Some (SystemStats.mk
              (SystemStats.cpu stats)
              (number_round (number_percent
                 (Binary64.div usedMemory
                    (Binary64.of_Z (MemoryInfo.capacity memoryInfo)))))
              (SystemStats.timestamp stats))
  | Some Js.Rejected => None
  | None => Some stats
  end.

(** The [catch] block: both figures are replaced by simulated ones. *)
Definition simulated_stats (stats : SystemStats.t) : M SystemStats.t :=
  r1 ← Math_random;
  r2 ← Math_random;
  mret (SystemStats.mk (inject_Z (Qfloor (r1 * 60 + 20)))
                       (Js.Finite (inject_Z (Qfloor (r2 * 40 + 30))))
                       (SystemStats.timestamp stats)).

(** [getSystemStats()] *)
Definition getSystemStats (host : SystemHost.t) : M SystemStats.t :=
  timestamp ← Date_now;
  let stats := SystemStats.mk 0 (Js.Finite 0) timestamp in
  afterCpu ← estimate_cpu host stats;
  match afterCpu with
  | Some stats1 =>
      match measure_memory host stats1 with
      | Some stats2 => mret stats2
      | None => simulated_stats stats1
      end
  | None => simulated_stats stats
  end.

(** ** Sequences of tab events *)

Inductive TabEvent :=
| TabCreated (tab : Tab.t)
| TabRemoved (tabId : Z).

(** The listener the host invokes for one event. *)
Definition dispatch (e : TabEvent) : M unit :=
  match e with
  | TabCreated tab => onTabCreated tab
  | TabRemoved tabId => onTabRemoved tabId
  end.

(** An id is open after [events] when some event created it and no later
    event removed it. *)
Definition created_not_removed (events : list TabEvent) (tabId : Z) : Prop :=
  ∃ (i : nat) (tab : Tab.t),
    events !! i = Some (TabCreated tab) ∧ Tab.id tab = tabId ∧
    ∀ j, (i < j)%nat → events !! j ≠ Some (TabRemoved tabId).

(** Whether [events] removes [tabId]. *)
Definition removes (tabId : Z) (events : list TabEvent) : bool :=
  existsb (λ e, match e with
                | TabRemoved removed => removed =? tabId
                | TabCreated _ => false
                end) events.

(** The distinct ids that are open after [events], as a set. *)
Fixpoint open_ids (events : list TabEvent) : gset Z :=
  match events with
  | [] => ∅
  | TabCreated tab :: rest =>
      if removes (Tab.id tab) rest
      then open_ids rest
      else {[Tab.id tab]} ∪ open_ids rest
  | TabRemoved _ :: rest => open_ids rest
  end.

(** ** Enhanced tab statistics *)

(** An entry of the object resolved by [chrome.processes.getProcessInfo], as
    far as the script reads it; a property the host does not supply reads
    [undefined]. *)
Module ProcessInfo.
Record t := mk {
  memory : option Q;
  cpu : option Q
}.
End ProcessInfo.

(** A number-valued property as a number: [undefined] in arithmetic is
    [NaN]. *)
Definition to_number (v : option Q) : Js.number :=
  match v with
  | Some q => Js.Finite q
  | None => Js.NaN
  end.

(** [x * 1024] *)
Definition number_times_1024 (x : Js.number) : Js.number :=
  match x with
  | Js.Finite q => Js.Finite (q * 1024)
  | other => other
  end.

(** An element of the array returned by [getEnhancedTabStats]: the object
    [{...tab, ...storedStats, memoryUsage, cpuUsage, isActive}], kept as its
    two spread sources and its three computed properties. *)
Module EnhancedTab.
Record t := mk {
  tab : Tab.t;
  storedStats : TabRecord.t;
  memoryUsage : string;
  cpuUsage : string;
  isActive : bool
}.
End EnhancedTab.

(** [chrome.processes]: absent ([None]) or, per tab id, the outcome of
    [await chrome.processes.getProcessInfo([tab.id])] narrowed to
    [processes && processes[tab.id]]. *)
Definition Processes : Type := option (Z → Js.awaited (option ProcessInfo.t)).

(** The [try]/[catch] of the loop body of [getEnhancedTabStats]: the two texts
    attached to one tab. *)
Definition measure_tab (processes : Processes) (tab : Tab.t)
  : M (string * string) :=
  match processes with
  | None => mret ("N/A", "N/A")
  | Some getProcessInfo =>
      match getProcessInfo (Tab.id tab) with
      | Js.Resolved (Some process) =>
          mret (formatBytes
                  (number_times_1024 (to_number (ProcessInfo.memory process))),
                show_round (to_number (ProcessInfo.cpu process)) +:+ "%")
      | Js.Resolved None => mret ("N/A", "N/A")
      | Js.Rejected =>
          r1 ← Math_random;
          r2 ← Math_random;
          mret (pretty (Qfloor (r1 * 100 + 20)) +:+ " MB",
                pretty (Qfloor (r2 * 15)) +:+ "%")
      end
  end.

(** The body of the [for (const tab of tabs)] loop of [getEnhancedTabStats]. *)
Definition enhance_tab (processes : Processes) (tab : Tab.t)
  : M EnhancedTab.t :=
  storedStats ← gets (λ w,
    default TabRecord.empty (tabStats w !! Tab.id tab));
  usage ← measure_tab processes tab;
  mret (EnhancedTab.mk tab storedStats usage.1 usage.2 (Tab.active tab)).

(** [getEnhancedTabStats()]; [tabs] is what [await chrome.tabs.query({})]
    resolved to. *)
Fixpoint getEnhancedTabStats (processes : Processes) (tabs : list Tab.t)
  : M (list EnhancedTab.t) :=
  match tabs with
  | [] => mret []
  | tab :: rest =>
      e ← enhance_tab processes tab;
      es ← getEnhancedTabStats processes rest;
      mret (e :: es)
  end.

(** ** Messages *)

(** The outcome of an awaited host call whose rejection is reported to the
    sender: a rejection carries [error.message]. *)
Inductive settled (A : Type) :=
| Fulfilled (a : A)
| Failed (message : option string).
Arguments Fulfilled {A}.
Arguments Failed {A}.

(** The [request] object of a runtime message. *)
Module Request.
Record t := mk {
  action : option string;
  tabId : option Z;
  downloadId : option Z
}.
End Request.

(** What a response can carry as [data]. *)
Inductive ResponseData :=
| TabStatsData (stats : list EnhancedTab.t)
| DownloadStatsData (stats : list EnhancedDownload.t)
| SystemStatsData (stats : SystemStats.t).

(** The object passed to [sendResponse]. *)
Module Response.
Record t := mk {
  success : bool;
  data : option ResponseData;
  error : option string
}.

Definition ok : t := mk true None None.
Definition with_data (d : ResponseData) : t := mk true (Some d) None.
Definition failure (message : option string) : t := mk false None message.
End Response.

(** The host calls [handleMessage] can await, each with its outcome. *)
Module MessageHost.
Record t := mk {
  tabs_query : settled (list Tab.t);
  processes : Processes;
  downloads_search : settled (list DownloadItem.t);
  system : SystemHost.t;
  tabs_remove : option Z → settled unit;
  tabs_update : option Z → settled unit;
  (** [chrome.tabs.get(tabId)], resolving to a tab of which the script reads
      [windowId] *)
  tabs_get : option Z → settled (option Z);
  windows_update : option Z → settled unit;
  downloads_pause : option Z → settled unit;
  downloads_resume : option Z → settled unit;
  downloads_cancel : option Z → settled unit
}.
End MessageHost.

(** [await call; sendResponse({ success: true })], with the [catch] for a
    rejection. *)
Definition acknowledge (call : settled unit) : Response.t :=
  match call with
  | Fulfilled _ => Response.ok
  | Failed message => Response.failure message
  end.

(** The [focusTab] case: three awaited calls in sequence. *)
Definition focus_tab (host : MessageHost.t) (tabId : option Z) : Response.t :=
  match MessageHost.tabs_update host tabId with
  | Failed message => Response.failure message
  | Fulfilled _ =>
      match MessageHost.tabs_get host tabId with
      | Failed message => Response.failure message
      | Fulfilled windowId =>
          acknowledge (MessageHost.windows_update host windowId)
      end
  end.

(** [handleMessage(request, sender, sendResponse)]: the result is the object
    passed to [sendResponse], which every path calls once. *)
Definition handleMessage {collation : Collation}
    (host : MessageHost.t) (request : Request.t) : M Response.t :=
  match Request.action request with
  | None => mret (Response.failure (Some "Unknown action"))
  | Some action =>
      if String.eqb action "getTabStats" then
        match MessageHost.tabs_query host with
        | Fulfilled tabs =>
            tabStats ← getEnhancedTabStats (MessageHost.processes host) tabs;
            mret (Response.with_data (TabStatsData tabStats))
        | Failed message => mret (Response.failure message)
        end
      else if String.eqb action "getDownloadStats" then
        match MessageHost.downloads_search host with
        | Fulfilled downloads =>
            downloadStats ← getEnhancedDownloadStats downloads;
            mret (Response.with_data (DownloadStatsData downloadStats))
        | Failed message => mret (Response.failure message)
        end
      else if String.eqb action "getSystemStats" then
        systemStats ← getSystemStats (MessageHost.system host);
        mret (Response.with_data (SystemStatsData systemStats))
      else if String.eqb action "closeTab" then
        mret (acknowledge
                (MessageHost.tabs_remove host (Request.tabId request)))
      else if String.eqb action "focusTab" then
        mret (focus_tab host (Request.tabId request))
      else if String.eqb action "pauseDownload" then
        mret (acknowledge
                (MessageHost.downloads_pause host
                   (Request.downloadId request)))
      else if String.eqb action "resumeDownload" then
        mret (acknowledge
                (MessageHost.downloads_resume host
                   (Request.downloadId request)))
      else if String.eqb action "cancelDownload" then
        mret (acknowledge
                (MessageHost.downloads_cancel host
                   (Request.downloadId request)))
      else mret (Response.failure (Some "Unknown action"))
  end.

(** The actions [handleMessage] knows. *)
Definition known_actions : list string :=
  ["getTabStats"; "getDownloadStats"; "getSystemStats"; "closeTab";
   "focusTab"; "pauseDownload"; "resumeDownload"; "cancelDownload"].

(** ** Everything the host can deliver *)

(** The notifications wired up by [setupEventListeners], and the timer of
    [startMonitoring]. *)
Inductive Event :=
| TabCreatedEvent (tab : Tab.t)
| TabRemovedEvent (tabId : Z)
| TabUpdatedEvent (tabId : Z) (status : option string) (tab : Tab.t)
| DownloadCreatedEvent (downloadItem : DownloadItem.t)
| DownloadChangedEvent (downloadDelta : DownloadDelta.t)
| StorageChangedEvent (changes : Changes.t) (namespace : string)
| IntervalEvent (tabs : Js.awaited (list Tab.t)).

(** The listener registered for each notification. *)
Definition listener (e : Event) : M unit :=
  match e with
  | TabCreatedEvent tab => onTabCreated tab
  | TabRemovedEvent tabId => onTabRemoved tabId
  | TabUpdatedEvent tabId status tab => onTabUpdated tabId status tab
  | DownloadCreatedEvent downloadItem => onDownloadCreated downloadItem
  | DownloadChangedEvent downloadDelta => onDownloadChanged downloadDelta
  | StorageChangedEvent changes namespace => onStorageChanged changes namespace
  | IntervalEvent tabs => monitoringTick tabs
  end.

(** Whether a notification comes from the storage area. *)
Definition is_storage_event (e : Event) : bool :=
  match e with
  | StorageChangedEvent _ _ => true
  | _ => false
  end.

(** Each tracked tab record carries the id it is stored under. *)
Definition tabs_keyed_by_id (m : gmap Z TabRecord.t) : Prop :=
  ∀ tabId stats, m !! tabId = Some stats → TabRecord.id stats = Some tabId.

(** What a storage notification delivers for the tab store is keyed by id. *)
Definition delivers_keyed_tabs (e : Event) : Prop :=
  match e with
  | StorageChangedEvent changes _ =>
      ∀ change entries,
        Changes.tabStats changes = Some change →
        StorageChange.newValue change = Some entries →
        ∀ tabId stats, (tabId, stats) ∈ entries →
                       TabRecord.id stats = Some tabId
  | _ => True
  end.

(** Reloading the stored copies, as [onStorageChanged] does, gives the
    current maps. *)
Definition persisted (w : World) : Prop :=
  new_Map (default [] (Storage.tabStats (localStorage w))) = tabStats w ∧
  new_Map (default [] (Storage.downloadStats (localStorage w)))
    = downloadStats w.

(** What the monitoring tick has made of a tracked record [before] once it
    has observed its tab, between the worlds [w] and [w']: the identity and
    event time stamps are kept, [lastSeen] is a clock reading taken between
    the two, and the simulated metrics are within their bounds. *)
Definition refreshed (w w' : World) (before after : TabRecord.t) : Prop :=
  TabRecord.id after = TabRecord.id before ∧
  TabRecord.title after = TabRecord.title before ∧
  TabRecord.url after = TabRecord.url before ∧
  TabRecord.createdAt after = TabRecord.createdAt before ∧
  TabRecord.lastUpdated after = TabRecord.lastUpdated before ∧
  (∃ n, (clockReads w <= n < clockReads w')%nat ∧
        TabRecord.lastSeen after = Some (clock w n)) ∧
  (∀ m, TabRecord.memoryUsage after = Some m → (10 <= m)%Q) ∧
  (∀ c, TabRecord.cpuUsage after = Some c → (0 <= c)%Q ∧ (c <= 100)%Q).

(** Each tracked download carries a time stamp that [cleanupOldStats] can
    compare: [lastUpdated || createdAt] is a time after the epoch. *)
Definition downloads_stamped (m : gmap Z DownloadRecord.t) : Prop :=
  ∀ downloadId stats,
    m !! downloadId = Some stats →
    ∃ seen,
      Js.or (DownloadRecord.lastUpdated stats) (DownloadRecord.createdAt stats)
        = Some seen ∧ 0 < seen.

(** A computation that leaves the two stores, the stored copies and the
    oracles as they are: all it may do is read the clock and draw random
    numbers. *)
Definition read_only {A} (m : M A) : Prop :=
  ∀ w, tabStats (exec m w) = tabStats w ∧
       downloadStats (exec m w) = downloadStats w ∧
       localStorage (exec m w) = localStorage w ∧
       clock (exec m w) = clock w ∧
       random (exec m w) = random w.

(** Whether one of the awaited calls of the first [if] of [getSystemStats]
    rejects, which sends control to the [catch] block. *)
Definition cpu_query_rejects (host : SystemHost.t) : bool :=
  match SystemHost.system_cpu host with
  | Some cpuInfo =>
      match cpuInfo, SystemHost.tabs_query host,
            SystemHost.downloads_search host with
      | Js.Resolved _, Js.Resolved _, Js.Resolved _ => false
      | _, _, _ => true
      end
  | None => false
  end.

(** Descending order of [startTime] on the host's listing. *)
Definition listed_descending {collation : Collation}
    (downloads : list DownloadItem.t) : Prop :=
  ordered (λ a b, localeCompare (DownloadItem.startTime b)
                                (DownloadItem.startTime a))
          downloads.

(** * Properties *)

(** ** Download deltas *)

Lemma onDownloadChanged_exec (d : DownloadDelta.t) (w : World) :
  downloadStats (exec (onDownloadChanged d) w) =
  <[DownloadDelta.id d :=
      assign_lastUpdated (clock w (clockReads w))
        (assign_totalBytes (DownloadDelta.totalBytes d)
           (assign_bytesReceived (DownloadDelta.bytesReceived d)
              (assign_state (DownloadDelta.state d)
                 (default DownloadRecord.empty
                          (downloadStats w !! DownloadDelta.id d)))))]>
    (downloadStats w).
Proof. reflexivity. Qed.

(** C1. [onDownloadChanged] applies a delta field by field: [state],
    [bytesReceived] and [totalBytes] of the tracked record change exactly when
    the delta carries them and otherwise keep their prior value, where the
    prior record is the empty object when the download was not tracked;
    [lastUpdated] becomes the current time; the remaining properties of the
    record, every other download and the tab store are untouched. *)
Theorem onDownloadChanged_partial_update (d : DownloadDelta.t) (w : World) :
  let prior :=
    default DownloadRecord.empty (downloadStats w !! DownloadDelta.id d) in
  let w' := exec (onDownloadChanged d) w in
  (∃ r, downloadStats w' !! DownloadDelta.id d = Some r ∧
     DownloadRecord.state r =
       match DownloadDelta.state d with
       | Some δ => Delta.current δ
       | None => DownloadRecord.state prior
       end ∧
     DownloadRecord.bytesReceived r =
       match DownloadDelta.bytesReceived d with
       | Some δ => Delta.current δ
       | None => DownloadRecord.bytesReceived prior
       end ∧
     DownloadRecord.totalBytes r =
       match DownloadDelta.totalBytes d with
       | Some δ => Delta.current δ
       | None => DownloadRecord.totalBytes prior
       end ∧
     DownloadRecord.lastUpdated r = Some (clock w (clockReads w)) ∧
     DownloadRecord.id r = DownloadRecord.id prior ∧
     DownloadRecord.filename r = DownloadRecord.filename prior ∧
     DownloadRecord.url r = DownloadRecord.url prior ∧
     DownloadRecord.createdAt r = DownloadRecord.createdAt prior) ∧
  (∀ other, other ≠ DownloadDelta.id d →
     downloadStats w' !! other = downloadStats w !! other) ∧
  tabStats w' = tabStats w.
Proof.
  intros prior w'. subst w'. split; [|split].
  - eexists. rewrite onDownloadChanged_exec, lookup_insert_eq.
    split; [reflexivity|]. fold prior.
    destruct d as [i [s|] [b|] [t|]]; cbn; repeat split; reflexivity.
  - intros other Hne. rewrite onDownloadChanged_exec.
    by rewrite lookup_insert_ne.
  - reflexivity.
Qed.

(** ** Staleness cleanup *)

(** What a cleanup loop leaves of a map: the entries are visited in order
    and each expired one is deleted.  Used to reason about the two loops of
    [cleanupOldStats] at once. *)
Section Sweep.
Context {V : Type} (expired : V → bool).

Lemma sweep_lookup (entries : list (Z * V)) (m : gmap Z V) (k : Z) :
  foldl (λ m kv, if expired kv.2 then delete kv.1 m else m) m entries !! k =
  if existsb (λ kv, (kv.1 =? k) && expired kv.2) entries then None else m !! k.
Proof.
  revert m. induction entries as [|[k0 v0] entries IH]; intros m; cbn; [done|].
  rewrite IH.
  destruct (existsb _ entries); [by rewrite orb_true_r|].
  rewrite orb_false_r.
  destruct (expired v0); [|by rewrite andb_false_r].
  rewrite andb_true_r.
  destruct (Z.eqb_spec k0 k) as [->|Hne].
  - apply lookup_delete_eq.
  - by apply lookup_delete_ne.
Qed.

Lemma hits_map_to_list (m : gmap Z V) (k : Z) :
  existsb (λ kv, (kv.1 =? k) && expired kv.2) (map_to_list m) =
  match m !! k with
  | Some v => expired v
  | None => false
  end.
Proof.
  apply eq_true_iff_eq. rewrite existsb_exists. split.
  - intros ([k0 v0] & Hin & Hb). cbn in Hb.
    apply andb_true_iff in Hb as [Hk Hv]. apply Z.eqb_eq in Hk as ->.
    apply list_elem_of_In, elem_of_map_to_list in Hin. by rewrite Hin.
  - destruct (m !! k) as [v|] eqn:Hm; [|done]. intros Hv.
    exists (k, v). split.
    + by apply list_elem_of_In, elem_of_map_to_list.
    + cbn. by rewrite Z.eqb_refl.
Qed.

Lemma sweep_own_entries (m : gmap Z V) (k : Z) :
  foldl (λ m kv, if expired kv.2 then delete kv.1 m else m) m (map_to_list m)
    !! k =
  match m !! k with
  | Some v => if expired v then None else Some v
  | None => None
  end.
Proof.
  rewrite sweep_lookup, hits_map_to_list.
  destruct (m !! k) as [v|]; [|done]. by destruct (expired v).
Qed.

End Sweep.

Lemma set_tabStats_same (w : World) : set_tabStats (tabStats w) w = w.
Proof. by destruct w. Qed.

Lemma set_downloadStats_same (w : World) :
  set_downloadStats (downloadStats w) w = w.
Proof. by destruct w. Qed.

Lemma evict_tab_loop (now : Z) (l : list (Z * TabRecord.t)) (w : World) :
  exec (for_each l (evict_tab now)) w =
  set_tabStats
    (foldl (λ m kv, if tab_expired now kv.2 then delete kv.1 m else m)
           (tabStats w) l) w.
Proof.
  revert w. induction l as [|[k0 v0] l IH]; intros w; cbn.
  - by rewrite set_tabStats_same.
  - unfold exec in *. cbn. unfold mbind, M_bind, evict_tab at 1.
    destruct (tab_expired now v0); cbn; rewrite IH; [|done].
    by destruct w.
Qed.

Lemma evict_download_loop (now : Z) (l : list (Z * DownloadRecord.t))
    (w : World) :
  exec (for_each l (evict_download now)) w =
  set_downloadStats
    (foldl (λ m kv, if download_expired now kv.2 then delete kv.1 m else m)
           (downloadStats w) l) w.
Proof.
  revert w. induction l as [|[k0 v0] l IH]; intros w; cbn.
  - by rewrite set_downloadStats_same.
  - unfold exec in *. cbn. unfold mbind, M_bind, evict_download at 1.
    destruct (download_expired now v0); cbn; rewrite IH; [|done].
    by destruct w.
Qed.

Lemma run_unit (m : M unit) (w : World) : m w = (tt, exec m w).
Proof. unfold exec. by destruct (m w) as [[] w']. Qed.

Lemma cleanupOldStats_exec (w : World) :
  let now := clock w (clockReads w) in
  tabStats (exec cleanupOldStats w) =
    foldl (λ m kv, if tab_expired now kv.2 then delete kv.1 m else m)
          (tabStats w) (map_to_list (tabStats w)) ∧
  downloadStats (exec cleanupOldStats w) =
    foldl (λ m kv, if download_expired now kv.2 then delete kv.1 m else m)
          (downloadStats w) (map_to_list (downloadStats w)).
Proof.
  intros now. unfold cleanupOldStats, exec.
  unfold mbind, M_bind, Date_now, gets. cbn.
  rewrite run_unit, evict_tab_loop. cbn.
  rewrite run_unit, evict_download_loop. cbn. done.
Qed.

Lemma or_falls_back (primary fallback : option Z) (seen : Z) :
  (primary = Some seen ∧ seen ≠ 0) ∨
  ((primary = None ∨ primary = Some 0) ∧ fallback = Some seen) →
  Js.or primary fallback = Some seen.
Proof.
  intros [[-> Hseen]|[[-> | ->] ->]]; [|done..].
  unfold Js.or, Js.truthy. by destruct (Z.eqb_spec seen 0).
Qed.

(** C2, as amended.  When [cleanupOldStats] runs at time [now], the time
    stamp of a tracked tab is its [lastSeen], or its [createdAt] when
    [lastSeen] is missing or 0, and that of a tracked download its
    [lastUpdated], or its [createdAt] when [lastUpdated] is missing or 0; a
    record whose stamp lies more than 24 hours before [now] is removed and
    one whose stamp lies within 24 hours is kept unchanged, so a record last
    observed 25 hours ago goes and one last observed 23 hours ago stays.  A
    monitoring tick whose tab listing resolves runs this cleanup after it has
    refreshed the listed tabs; a tick whose listing rejects runs no cleanup
    and changes nothing. *)
Theorem cleanupOldStats_evicts_stale (w : World) :
  let now := clock w (clockReads w) in
  let w' := exec cleanupOldStats w in
  let hour := 60 * 60 * 1000 in
  (∀ tabId stats seen,
     tabStats w !! tabId = Some stats →
     (TabRecord.lastSeen stats = Some seen ∧ seen ≠ 0) ∨
     ((TabRecord.lastSeen stats = None ∨ TabRecord.lastSeen stats = Some 0) ∧
      TabRecord.createdAt stats = Some seen) →
     (24 * hour < now - seen → tabStats w' !! tabId = None) ∧
     (now - seen <= 24 * hour → tabStats w' !! tabId = Some stats) ∧
     (seen = now - 25 * hour → tabStats w' !! tabId = None) ∧
     (seen = now - 23 * hour → tabStats w' !! tabId = Some stats)) ∧
  (∀ downloadId stats seen,
     downloadStats w !! downloadId = Some stats →
     (DownloadRecord.lastUpdated stats = Some seen ∧ seen ≠ 0) ∨
     ((DownloadRecord.lastUpdated stats = None ∨
       DownloadRecord.lastUpdated stats = Some 0) ∧
      DownloadRecord.createdAt stats = Some seen) →
     (24 * hour < now - seen → downloadStats w' !! downloadId = None) ∧
     (now - seen <= 24 * hour → downloadStats w' !! downloadId = Some stats) ∧
     (seen = now - 25 * hour → downloadStats w' !! downloadId = None) ∧
     (seen = now - 23 * hour → downloadStats w' !! downloadId = Some stats)) ∧
  (∀ tabId, tabStats w !! tabId = None → tabStats w' !! tabId = None) ∧
  (∀ downloadId, downloadStats w !! downloadId = None →
     downloadStats w' !! downloadId = None) ∧
  (∀ tabs w0,
     w = exec (for_each tabs observe_tab) w0 →
     tabStats (exec (monitoringTick (Js.Resolved tabs)) w0) = tabStats w' ∧
     downloadStats (exec (monitoringTick (Js.Resolved tabs)) w0)
       = downloadStats w') ∧
  exec (monitoringTick Js.Rejected) w = w.
Proof.
  intros now w' hour.
  destruct (cleanupOldStats_exec w) as [Htabs Hdownloads].
  fold now w' in Htabs, Hdownloads.
  assert (Htab : ∀ tabId stats seen,
    tabStats w !! tabId = Some stats →
    Js.or (TabRecord.lastSeen stats) (TabRecord.createdAt stats) = Some seen →
    tabStats w' !! tabId = if maxAge <? now - seen then None else Some stats).
  { intros tabId stats seen Hget Hseen.
    rewrite Htabs, (sweep_own_entries (tab_expired now)), Hget.
    unfold tab_expired. by rewrite Hseen. }
  assert (Hdl : ∀ downloadId stats seen,
    downloadStats w !! downloadId = Some stats →
    Js.or (DownloadRecord.lastUpdated stats) (DownloadRecord.createdAt stats)
      = Some seen →
    downloadStats w' !! downloadId
      = if maxAge <? now - seen then None else Some stats).
  { intros downloadId stats seen Hget Hseen.
    rewrite Hdownloads, (sweep_own_entries (download_expired now)), Hget.
    unfold download_expired. by rewrite Hseen. }
  assert (Hmax : maxAge = 24 * hour) by reflexivity.
  split; [|split; [|split; [|split; [|split]]]].
  - intros tabId stats seen Hget Hseen%or_falls_back.
    rewrite (Htab _ _ _ Hget Hseen).
    repeat split; [intros Hage|intros Hage|intros ->|intros ->];
      match goal with
      | |- context [maxAge <? ?age] => destruct (Z.ltb_spec maxAge age)
      end; done || lia.
  - intros downloadId stats seen Hget Hseen%or_falls_back.
    rewrite (Hdl _ _ _ Hget Hseen).
    repeat split; [intros Hage|intros Hage|intros ->|intros ->];
      match goal with
      | |- context [maxAge <? ?age] => destruct (Z.ltb_spec maxAge age)
      end; done || lia.
  - intros tabId Hnone.
    by rewrite Htabs, (sweep_own_entries (tab_expired now)), Hnone.
  - intros downloadId Hnone.
    by rewrite Hdownloads, (sweep_own_entries (download_expired now)), Hnone.
  - intros tabs w0 ->. unfold monitoringTick, exec. unfold mbind, M_bind.
    rewrite (run_unit (for_each tabs observe_tab)).
    rewrite (run_unit cleanupOldStats). done.
  - reflexivity.
Qed.

(** C2 as first stated fails on a tick whose tab listing rejects: the
    [catch] is entered before [cleanupOldStats] is reached, so a tab record
    last seen 25 hours before the tick is still tracked after it. *)
Lemma rejected_tick_keeps_stale_record :
  let hour := 60 * 60 * 1000 in
  let now := 100 * hour in
  let old :=
    TabRecord.mk (Some 1) (Some "Mail") None (Some 1000) (Some 0%Q) (Some 0%Q)
                 None (Some (now - 25 * hour)) in
  let w := set_tabStats {[1 := old]} (initial (λ _, now) (λ _, 0%Q)) in
  tabStats (exec (monitoringTick Js.Rejected) w) !! 1 = Some old ∧
  TabRecord.lastSeen old = Some (clock w (clockReads w) - 25 * hour) ∧
  24 * hour < clock w (clockReads w) - (now - 25 * hour).
Proof.
  intros hour now old w. split; [|split].
  - subst w. cbn. by rewrite lookup_singleton_eq.
  - reflexivity.
  - cbn. lia.
Qed.

(** C9. A tab first recorded by [onTabUpdated] (status [complete], no prior
    record) has neither [createdAt] nor [lastSeen]; the staleness test then
    subtracts [undefined] from the current time, which is [NaN], so the
    24-hour condition is false at every time and [cleanupOldStats] keeps the
    record in whatever world it runs. *)
Theorem tab_created_by_update_never_evicted
    (tabId : Z) (status : option string) (tab : Tab.t) (w : World) :
  tabStats w !! tabId = None →
  status_complete status = true →
  ∃ stats,
    tabStats (exec (onTabUpdated tabId status tab) w) !! tabId = Some stats ∧
    TabRecord.createdAt stats = None ∧
    TabRecord.lastSeen stats = None ∧
    (∀ now,
       Js.sub now (Js.or (TabRecord.lastSeen stats)
                         (TabRecord.createdAt stats)) = None ∧
       tab_expired now stats = false) ∧
    (∀ later,
       tabStats later !! tabId = Some stats →
       tabStats (exec cleanupOldStats later) !! tabId = Some stats).
Proof.
  intros Hnone Hcomplete.
  unfold onTabUpdated. rewrite Hcomplete.
  eexists. split.
  { unfold exec, mbind, M_bind, gets, Date_now, modify; cbn.
    rewrite lookup_insert_eq. reflexivity. }
  rewrite Hnone. cbn. repeat split.
  intros later Hlater.
  destruct (cleanupOldStats_exec later) as [-> _].
  set (now := clock later (clockReads later)).
  by rewrite (sweep_own_entries (tab_expired now)), Hlater.
Qed.

(** ** Tab creation and removal *)

Lemma removes_iff (tabId : Z) (events : list TabEvent) :
  removes tabId events = true ↔ ∃ j, events !! j = Some (TabRemoved tabId).
Proof.
  unfold removes. rewrite existsb_exists. split.
  - intros (e & Hin & He). destruct e as [|removed]; [done|].
    apply Z.eqb_eq in He as ->.
    apply list_elem_of_In, list_elem_of_lookup in Hin. exact Hin.
  - intros [j Hj]. exists (TabRemoved tabId). split.
    + apply list_elem_of_In, list_elem_of_lookup. eauto.
    + apply Z.eqb_refl.
Qed.

Lemma created_not_removed_nil (tabId : Z) : ¬ created_not_removed [] tabId.
Proof. intros (i & tab & Hi & _). by rewrite lookup_nil in Hi. Qed.

Lemma created_not_removed_cons (e : TabEvent) (events : list TabEvent)
    (tabId : Z) :
  created_not_removed (e :: events) tabId ↔
  (∃ tab, e = TabCreated tab ∧ Tab.id tab = tabId ∧
          removes tabId events = false) ∨
  created_not_removed events tabId.
Proof.
  split.
  - intros (i & tab & Hi & Hid & Hlater). destruct i as [|i]; cbn in Hi.
    + left. exists tab. injection Hi as ->. repeat split; [done|].
      destruct (removes tabId events) eqn:Hr; [|done].
      apply removes_iff in Hr as [j Hj].
      by destruct (Hlater (S j) ltac:(lia)).
    + right. exists i, tab. repeat split; [done..|].
      intros j Hj. apply (Hlater (S j)). lia.
  - intros [(tab & -> & Hid & Hr)|(i & tab & Hi & Hid & Hlater)].
    + exists 0%nat, tab. repeat split; [done..|].
      intros [|j] Hj; [lia|]. cbn. intros Hrem.
      assert (removes tabId events = true) by (apply removes_iff; eauto).
      congruence.
    + exists (S i), tab. repeat split; [done..|].
      intros [|j] Hj; [lia|]. cbn. apply Hlater. lia.
Qed.

Lemma open_ids_spec (events : list TabEvent) (tabId : Z) :
  tabId ∈ open_ids events ↔ created_not_removed events tabId.
Proof.
  induction events as [|e events IH].
  - split; [set_solver|]. intros H. by apply created_not_removed_nil in H.
  - rewrite created_not_removed_cons, <- IH. destruct e as [tab|removed]; cbn.
    + destruct (removes (Tab.id tab) events) eqn:Hr.
      * split; [by right|]. intros [(tab' & Heq & Hid & Hr')|H]; [|done].
        injection Heq as <-. congruence.
      * rewrite elem_of_union, elem_of_singleton. split.
        -- intros [->|H]; [left; eauto|by right].
        -- intros [(tab' & Heq & Hid & Hr')|H]; [|by right].
           injection Heq as <-. by left.
    + split; [by right|]. by intros [(tab & ? & _)|H].
Qed.

Lemma dispatch_tabStats (e : TabEvent) (w : World) :
  tabStats (exec (dispatch e) w) =
  match e with
  | TabCreated tab =>
      <[Tab.id tab :=
          TabRecord.mk (Some (Tab.id tab)) (Tab.title tab) (Tab.url tab)
                       (Some (clock w (clockReads w))) (Some 0%Q) (Some 0%Q)
                       None None]> (tabStats w)
  | TabRemoved tabId => delete tabId (tabStats w)
  end.
Proof. by destruct e. Qed.

Lemma events_dom (events : list TabEvent) (w : World) (tabId : Z) :
  tabId ∈ dom (tabStats (exec (for_each events dispatch) w)) ↔
  tabId ∈ open_ids events ∨
  (tabId ∈ dom (tabStats w) ∧ removes tabId events = false).
Proof.
  revert w. induction events as [|e events IH]; intros w.
  - cbn. set_solver.
  - change (exec (for_each (e :: events) dispatch) w)
      with (exec (dispatch e ;; for_each events dispatch) w).
    unfold exec, mbind, M_bind. rewrite (run_unit (dispatch e)).
    fold (exec (for_each events dispatch) (exec (dispatch e) w)).
    rewrite IH, dispatch_tabStats. destruct e as [tab|removed]; cbn.
    + rewrite dom_insert, elem_of_union, elem_of_singleton.
      destruct (removes (Tab.id tab) events) eqn:Hr.
      * split; [|tauto]. intros [H|[[->|H] Hr']]; [tauto|congruence|tauto].
      * rewrite elem_of_union, elem_of_singleton.
        split; [|intros [[->|H]|H]; tauto].
        intros [H|[[->|H] Hr']]; tauto.
    + rewrite dom_delete, elem_of_difference, elem_of_singleton.
      change (removes tabId (TabRemoved removed :: events))
        with ((removed =? tabId) || removes tabId events).
      rewrite orb_false_iff, Z.eqb_neq. naive_solver.
Qed.

(** C5. After any sequence of tab-created and tab-removed events applied to
    the empty store, the ids tracked in [tabStats] are exactly those created
    by some event and removed by no later one, so the size of the store is
    the number of distinct such ids; and [onTabRemoved] for an id without a
    record leaves the store as it was. *)
Theorem tab_store_counts_open_tabs
    (events : list TabEvent) (clk : nat → Z) (rnd : nat → Q) :
  let w := exec (for_each events dispatch) (initial clk rnd) in
  (∀ tabId, is_Some (tabStats w !! tabId) ↔ created_not_removed events tabId) ∧
  (∀ tabId, tabId ∈ open_ids events ↔ created_not_removed events tabId) ∧
  size (tabStats w) = size (open_ids events) ∧
  (∀ w0 tabId,
     tabStats w0 !! tabId = None →
     tabStats (exec (onTabRemoved tabId) w0) = tabStats w0).
Proof.
  intros w.
  assert (Hdom : dom (tabStats w) = open_ids events).
  { apply set_eq. intros tabId. subst w. rewrite events_dom. cbn.
    rewrite dom_empty. set_solver. }
  split; [|split; [|split]].
  - intros tabId. by rewrite <- elem_of_dom, Hdom, open_ids_spec.
  - apply open_ids_spec.
  - by rewrite <- Hdom, size_dom.
  - intros w0 tabId Hnone. cbn. by apply delete_id.
Qed.

(** ** Synchronisation from storage *)

Section NewMap.
Context {V : Type}.
Implicit Types (entries : list (Z * V)) (k : Z) (v : V).

Lemma new_Map_snoc entries k v :
  new_Map (entries ++ [(k, v)]) = <[k := v]> (new_Map entries).
Proof. unfold new_Map. by rewrite foldl_app. Qed.

Lemma new_Map_is_Some entries k :
  is_Some (new_Map entries !! k) ↔ k ∈ entries.*1.
Proof.
  induction entries as [|[k0 v0] entries IH] using rev_ind.
  - cbn. rewrite lookup_empty. split; [by intros [? ?]|].
    intros H. by apply elem_of_nil in H.
  - rewrite new_Map_snoc, fmap_app, elem_of_app, lookup_insert_is_Some, IH.
    cbn. rewrite list_elem_of_singleton.
    destruct (decide (k0 = k)) as [Heq|Hne]; [by split; [right|left]|].
    split; [intros [?|[_ ?]]|intros [?|?]]; auto; done.
Qed.

Lemma new_Map_supplied entries k v :
  new_Map entries !! k = Some v → (k, v) ∈ entries.
Proof.
  induction entries as [|[k0 v0] entries IH] using rev_ind.
  - cbn. by rewrite lookup_empty.
  - rewrite new_Map_snoc, elem_of_app, list_elem_of_singleton.
    destruct (decide (k0 = k)) as [->|Hne].
    + rewrite lookup_insert_eq. intros [= ->]. by right.
    + rewrite lookup_insert_ne by done. intros H. left. by apply IH.
Qed.

Lemma new_Map_last_wins before after k v :
  k ∉ after.*1 →
  new_Map (before ++ (k, v) :: after) !! k = Some v.
Proof.
  induction after as [|[k0 v0] after IH] using rev_ind; intros Hk.
  - by rewrite new_Map_snoc, lookup_insert_eq.
  - rewrite fmap_app, not_elem_of_app in Hk. destruct Hk as [Hk Hk0].
    cbn in Hk0. rewrite list_elem_of_singleton in Hk0.
    replace (before ++ (k, v) :: after ++ [(k0, v0)])
      with ((before ++ (k, v) :: after) ++ [(k0, v0)])
      by (by rewrite <- app_assoc).
    rewrite new_Map_snoc, lookup_insert_ne by done. by apply IH.
Qed.

End NewMap.

(** What [onStorageChanged] does to one store for one key of [changes]. *)
Lemma onStorageChanged_local (changes : Changes.t) (w : World) :
  tabStats (exec (onStorageChanged changes "local") w) =
    match Changes.tabStats changes with
    | Some change => new_Map (default [] (StorageChange.newValue change))
    | None => tabStats w
    end ∧
  downloadStats (exec (onStorageChanged changes "local") w) =
    match Changes.downloadStats changes with
    | Some change => new_Map (default [] (StorageChange.newValue change))
    | None => downloadStats w
    end.
Proof.
  destruct changes as [[t|] [d|]]; done.
Qed.

Lemma onStorageChanged_elsewhere (changes : Changes.t) (namespace : string)
    (w : World) :
  namespace ≠ "local" → exec (onStorageChanged changes namespace) w = w.
Proof.
  intros Hne. unfold onStorageChanged.
  destruct (String.eqb_spec namespace "local"); [done|reflexivity].
Qed.

(** C7.  A change in the [local] storage area, the only area the persisted
    statistics live in, that carries the key [tabStats] (or [downloadStats])
    replaces the corresponding store by [new Map(newValue || [])]: the
    tracked ids are exactly the ids of the supplied pairs, every record read
    back is a supplied one (the last one supplied for its id), and nothing
    tracked before survives otherwise; with no new value the store becomes
    empty.  A store whose key the change does not carry is left alone, and a
    change in any other storage area changes nothing. *)
Theorem onStorageChanged_replaces_store (changes : Changes.t) (w : World) :
  let w' := exec (onStorageChanged changes "local") w in
  (∀ change,
     Changes.tabStats changes = Some change →
     let entries := default [] (StorageChange.newValue change) in
     tabStats w' = new_Map entries ∧
     (∀ id, is_Some (tabStats w' !! id) ↔ id ∈ entries.*1) ∧
     (∀ id record, tabStats w' !! id = Some record → (id, record) ∈ entries) ∧
     (∀ before id record after,
        entries = before ++ (id, record) :: after → id ∉ after.*1 →
        tabStats w' !! id = Some record)) ∧
  (∀ change,
     Changes.downloadStats changes = Some change →
     let entries := default [] (StorageChange.newValue change) in
     downloadStats w' = new_Map entries ∧
     (∀ id, is_Some (downloadStats w' !! id) ↔ id ∈ entries.*1) ∧
     (∀ id record,
        downloadStats w' !! id = Some record → (id, record) ∈ entries) ∧
     (∀ before id record after,
        entries = before ++ (id, record) :: after → id ∉ after.*1 →
        downloadStats w' !! id = Some record)) ∧
  (Changes.tabStats changes = None → tabStats w' = tabStats w) ∧
  (Changes.downloadStats changes = None →
     downloadStats w' = downloadStats w) ∧
  (∀ namespace,
     namespace ≠ "local" → exec (onStorageChanged changes namespace) w = w).
Proof.
  intros w'. destruct (onStorageChanged_local changes w) as [Ht Hd].
  fold w' in Ht, Hd. split; [|split; [|split; [|split]]].
  - intros change Hc entries. rewrite Hc in Ht. fold entries in Ht.
    rewrite Ht. split; [done|]. split; [|split].
    + intros id. apply new_Map_is_Some.
    + intros id record. apply new_Map_supplied.
    + intros before id record after -> Hid. by apply new_Map_last_wins.
  - intros change Hc entries. rewrite Hc in Hd. fold entries in Hd.
    rewrite Hd. split; [done|]. split; [|split].
    + intros id. apply new_Map_is_Some.
    + intros id record. apply new_Map_supplied.
    + intros before id record after -> Hid. by apply new_Map_last_wins.
  - intros Hc. by rewrite Hc in Ht.
  - intros Hc. by rewrite Hc in Hd.
  - intros namespace. apply onStorageChanged_elsewhere.
Qed.

Lemma onStorageChanged_replaces_store_witness :
  let record :=
    TabRecord.mk (Some 7) (Some "News") None (Some 1000) (Some 0%Q) (Some 0%Q)
                 None None in
  let old :=
    TabRecord.mk (Some 1) (Some "Mail") None (Some 500) (Some 0%Q) (Some 0%Q)
                 None None in
  let changes :=
    Changes.mk (Some (StorageChange.mk None (Some [(7, record)]))) None in
  let w := set_tabStats {[1 := old]} (initial (λ _, 2000) (λ _, 0%Q)) in
  let w' := exec (onStorageChanged changes "local") w in
  tabStats w' !! 7 = Some record ∧ tabStats w' !! 1 = None.
Proof.
  intros record old changes w w'.
  destruct (onStorageChanged_replaces_store changes w) as (Htabs & _).
  destruct (Htabs _ eq_refl) as (Hmap & Hids & _ & Hlast).
  split.
  - apply (Hlast [] 7 record []); [reflexivity|].
    cbn. apply not_elem_of_nil.
  - apply eq_None_not_Some. intros Hsome. apply Hids in Hsome.
    cbn in Hsome. apply list_elem_of_singleton in Hsome. discriminate.
Defined.

(** ** System statistics *)

Lemma clamp_bounds (x : Q) :
  (5 <= Qmin 90 (Qmax 5 x))%Q ∧ (Qmin 90 (Qmax 5 x) <= 90)%Q.
Proof.
  split.
  - apply Q.min_glb; [done|apply Q.le_max_l].
  - apply Q.le_min_l.
Qed.

Lemma simulated_cpu_bounds (r : Q) :
  (0 <= r)%Q → (r < 1)%Q →
  (20 <= inject_Z (Qfloor (r * 60 + 20)))%Q ∧
  (inject_Z (Qfloor (r * 60 + 20)) <= 79)%Q.
Proof.
  intros H0 H1.
  assert (Hlo : 20 <= Qfloor (r * 60 + 20)).
  { change 20 with (Qfloor (inject_Z 20)) at 1.
    apply Qfloor_resp_le. unfold Qle in *; cbn in *. lia. }
  assert (Hhi : Qfloor (r * 60 + 20) < 80).
  { rewrite Zlt_Qlt. eapply Qle_lt_trans; [apply Qfloor_le|].
    unfold Qlt in *; cbn in *. lia. }
  split.
  - change (inject_Z 20 <= inject_Z (Qfloor (r * 60 + 20)))%Q.
    rewrite <- Zle_Qle. lia.
  - change (inject_Z (Qfloor (r * 60 + 20)) <= inject_Z 79)%Q.
    rewrite <- Zle_Qle. lia.
Qed.




(** ** Enhanced download statistics *)

Lemma enhance_fields (download : DownloadItem.t) (w : World) :
  EnhancedDownload.download (eval (enhance download) w) = download ∧
  EnhancedDownload.progress (eval (enhance download) w) = progress_of download.
Proof.
  unfold eval, enhance, mbind, M_bind, gets. cbn.
  destruct (calculateDownloadSpeed _ _) as [speed w1].
  destruct (calculateTimeRemaining _ _) as [remaining w2]. done.
Qed.

Lemma enhance_all_cons (download : DownloadItem.t)
    (rest : list DownloadItem.t) (w : World) :
  eval (enhance_all (download :: rest)) w =
  eval (enhance download) w
    :: eval (enhance_all rest) (exec (enhance download) w).
Proof.
  unfold eval, exec. cbn. unfold mbind, M_bind.
  destruct (enhance download w) as [e w1]. cbn.
  by destruct (enhance_all rest w1) as [es w2].
Qed.

Lemma enhance_all_fields (downloads : list DownloadItem.t) (w : World) :
  Forall2 (λ download e,
             EnhancedDownload.download e = download ∧
             EnhancedDownload.progress e = progress_of download)
          downloads (eval (enhance_all downloads) w).
Proof.
  revert w. induction downloads as [|download rest IH]; intros w.
  - constructor.
  - rewrite enhance_all_cons. constructor; [apply enhance_fields|apply IH].
Qed.

Section Sorting.
Context {A : Type} (cmp : A → A → Z).

Lemma sort_insert_perm (x : A) (l : list A) : sort_insert cmp x l ≡ₚ x :: l.
Proof.
  induction l as [|y l IH]; cbn; [done|].
  destruct (cmp x y <=? 0); [done|].
  rewrite IH. apply perm_swap.
Qed.

Lemma Array_sort_perm (l : list A) : Array_sort cmp l ≡ₚ l.
Proof.
  induction l as [|x l IH]; cbn; [done|].
  by rewrite sort_insert_perm, IH.
Qed.

Hypothesis cmp_antisym : ∀ a b, Z.sgn (cmp b a) = - Z.sgn (cmp a b).

Lemma sort_insert_ordered (x : A) (l : list A) :
  ordered cmp l → ordered cmp (sort_insert cmp x l).
Proof.
  induction l as [|y l IH]; cbn; [done|]. intros Hl.
  destruct (Z.leb_spec (cmp x y) 0) as [Hle|Hgt]; [done|].
  assert (Hyx : cmp y x <= 0) by (specialize (cmp_antisym x y); lia).
  destruct l as [|z l]; cbn in *; [done|].
  destruct Hl as [Hyz Hl]. specialize (IH Hl).
  destruct (Z.leb_spec (cmp x z) 0); cbn in *; tauto.
Qed.

Lemma Array_sort_ordered (l : list A) : ordered cmp (Array_sort cmp l).
Proof.
  induction l as [|x l IH]; cbn; [done|]. by apply sort_insert_ordered.
Qed.

Lemma ordered_adjacent (l : list A) (i : nat) (a b : A) :
  ordered cmp l → l !! i = Some a → l !! S i = Some b → cmp a b <= 0.
Proof.
  revert i. induction l as [|x l IH]; intros i Hl Ha Hb; [done|].
  destruct l as [|y l]; [done|]. destruct Hl as [Hxy Hl].
  destruct i as [|i]; cbn in *; [congruence|]. by apply (IH i).
Qed.

End Sorting.

(** ** Time stamps collate chronologically *)

Lemma digit_compare (x y : N) :
  (x < 10)%N → (y < 10)%N →
  Ascii.compare (ascii_of_N (48 + x)) (ascii_of_N (48 + y)) = N.compare x y.
Proof.
  intros Hx Hy. unfold Ascii.compare.
  rewrite !N_ascii_embedding by lia.
  destruct (N.compare_spec x y) as [->|Hlt|Hgt].
  - apply N.compare_refl.
  - apply N.compare_lt_iff. lia.
  - apply N.compare_gt_iff. lia.
Qed.

Lemma append_cons (c : ascii) (s t : string) :
  String c s +:+ t = String c (s +:+ t).
Proof. reflexivity. Qed.

Lemma append_nil (s : string) : EmptyString +:+ s = s.
Proof. reflexivity. Qed.

Lemma compare_cons (c d : ascii) (s t : string) :
  String.compare (String c s) (String d t) =
  match Ascii.compare c d with
  | Eq => String.compare s t
  | ne => ne
  end.
Proof. reflexivity. Qed.

Lemma decimal_compare (width : nat) (a b : N) (s t : string) :
  (a < 10 ^ N.of_nat width)%N → (b < 10 ^ N.of_nat width)%N →
  String.compare (Instant.decimal width a +:+ s)
                 (Instant.decimal width b +:+ t) =
  match N.compare a b with
  | Eq => String.compare s t
  | c => c
  end.
Proof.
  revert a b. induction width as [|w IH]; intros a b Ha Hb.
  - cbn in *. assert (a = 0%N) as -> by lia. by assert (b = 0%N) as -> by lia.
  - rewrite Nat2N.inj_succ, N.pow_succ_r' in Ha, Hb.
    set (P := (10 ^ N.of_nat w)%N) in *.
    assert (HP : (0 < P)%N) by (subst P; apply N.neq_0_lt_0, N.pow_nonzero; lia).
    pose proof (N.div_mod' a P) as Hdiv_a.
    pose proof (N.div_mod' b P) as Hdiv_b.
    pose proof (N.mod_lt a P ltac:(lia)) as Hmod_a.
    pose proof (N.mod_lt b P ltac:(lia)) as Hmod_b.
    assert (Hqa : (a / P < 10)%N) by (apply N.Div0.div_lt_upper_bound; lia).
    assert (Hqb : (b / P < 10)%N) by (apply N.Div0.div_lt_upper_bound; lia).
    cbn [Instant.decimal]. fold P.
    rewrite !append_cons, compare_cons, digit_compare by done.
    set (qa := (a / P)%N) in *. set (ra := (a mod P)%N) in *.
    set (qb := (b / P)%N) in *. set (rb := (b mod P)%N) in *.
    clearbody qa ra qb rb P.
    destruct (N.compare_spec qa qb) as [Heq|Hlt|Hgt].
    + rewrite IH by done.
      assert (Hc : N.compare a b = N.compare ra rb).
      { rewrite Heq in Hdiv_a.
        destruct (N.compare_spec ra rb);
          [apply N.compare_eq_iff|apply N.compare_lt_iff
          |apply N.compare_gt_iff]; lia. }
      by rewrite Hc.
    + assert (Hc : N.compare a b = Lt).
      { apply N.compare_lt_iff.
        assert (P * (qa + 1) <= P * qb)%N by (apply N.mul_le_mono_l; lia).
        lia. }
      by rewrite Hc.
    + assert (Hc : N.compare a b = Gt).
      { apply N.compare_gt_iff.
        assert (P * (qb + 1) <= P * qa)%N by (apply N.mul_le_mono_l; lia).
        lia. }
      by rewrite Hc.
Qed.

(** On the host's time stamps, comparison by code units is chronological
    comparison. *)
Lemma toISOString_compare (a b : Instant.t) :
  Instant.in_range a → Instant.in_range b →
  String.compare (Instant.toISOString a) (Instant.toISOString b)
  = Instant.compare a b.
Proof.
  intros (Ha1 & Ha2 & Ha3 & Ha4 & Ha5 & Ha6 & Ha7)
         (Hb1 & Hb2 & Hb3 & Hb4 & Hb5 & Hb6 & Hb7).
  unfold Instant.toISOString, Instant.compare.
  repeat (rewrite decimal_compare by done;
          rewrite ?append_cons, ?append_nil, ?compare_cons;
          change (Ascii.compare "-" "-") with Eq;
          change (Ascii.compare "T" "T") with Eq;
          change (Ascii.compare ":" ":") with Eq;
          change (Ascii.compare "." ".") with Eq;
          cbv iota).
  by destruct (N.compare (Instant.millisecond a) (Instant.millisecond b)).
Qed.

(** C3. The array returned by [getEnhancedDownloadStats] is in descending
    order of [startTime] under the host's collation (any consistent
    [localeCompare]): each element's start time collates at or after the
    start time of the element that follows it.  When the collation orders
    the host's ISO 8601 time stamps as their code units do, this is
    chronological order, most recent first: the instant of an element is
    never before the instant of its successor.  The returned array holds
    exactly the entries built for the listed downloads. *)
Theorem getEnhancedDownloadStats_descending {collation : Collation}
    (downloads : list DownloadItem.t) (w : World) :
  consistent_comparator localeCompare →
  let result := eval (getEnhancedDownloadStats downloads) w in
  (∀ i earlier later,
     result !! i = Some earlier → result !! S i = Some later →
     localeCompare (EnhancedDownload.startTime later)
                   (EnhancedDownload.startTime earlier) <= 0 ∧
     (collates_stamps_by_code_unit collation →
      ∀ started_earlier started_later,
        Instant.in_range started_earlier → Instant.in_range started_later →
        EnhancedDownload.startTime earlier
          = Instant.toISOString started_earlier →
        EnhancedDownload.startTime later
          = Instant.toISOString started_later →
        Instant.compare started_later started_earlier ≠ Gt)) ∧
  result ≡ₚ eval (enhance_all downloads) w.
Proof.
  intros [Hantisym _] result.
  assert (Hresult : result =
    Array_sort (λ a b, localeCompare (EnhancedDownload.startTime b)
                                     (EnhancedDownload.startTime a))
               (eval (enhance_all downloads) w)).
  { subst result. unfold getEnhancedDownloadStats, eval, mbind, M_bind.
    by destruct (enhance_all downloads w). }
  split.
  - intros i earlier later Hi HSi. rewrite Hresult in Hi, HSi.
    set (cmp := λ a b : EnhancedDownload.t,
           localeCompare (EnhancedDownload.startTime b)
                         (EnhancedDownload.startTime a)) in *.
    assert (Hordered : cmp earlier later <= 0).
    { eapply (ordered_adjacent cmp _ i earlier later); [|exact Hi|exact HSi].
      apply Array_sort_ordered. intros a b. apply Hantisym. }
    split; [exact Hordered|].
    intros Hstamps t1 t2 Ht1 Ht2 Hearlier Hlater.
    unfold cmp in Hordered. rewrite Hearlier, Hlater in Hordered.
    specialize (Hstamps t2 t1 Ht2 Ht1).
    unfold codeunit_compare in Hstamps.
    rewrite toISOString_compare in Hstamps by done.
    destruct (Instant.compare t2 t1); [done..|]. cbn in Hstamps. lia.
  - rewrite Hresult. apply Array_sort_perm.
Qed.

Lemma progress_50_of_200 : (to_float 50 / to_float 200 * 100 = 25)%float.
Proof. reflexivity. Qed.

(** C8. Every element of the array returned by [getEnhancedDownloadStats]
    carries the progress computed from the host's figures for its download:
    the binary64 value of [bytesReceived / totalBytes * 100] when both are
    non-zero, which for 50 of 200 bytes is exactly 25; 0 when
    [bytesReceived] is 0; and 0 whenever [totalBytes] is zero or absent.
    Each listed download has its element. *)
Theorem getEnhancedDownloadStats_progress {collation : Collation}
    (downloads : list DownloadItem.t) (w : World) :
  let result := eval (getEnhancedDownloadStats downloads) w in
  EnhancedDownload.download <$> result ≡ₚ downloads ∧
  ∀ e, e ∈ result →
    let download := EnhancedDownload.download e in
    let bytesReceived := DownloadItem.bytesReceived download in
    EnhancedDownload.progress e = progress_of download ∧
    (∀ totalBytes,
       DownloadItem.totalBytes download = Some totalBytes →
       bytesReceived ≠ 0 → totalBytes ≠ 0 →
       EnhancedDownload.progress e
       = (to_float bytesReceived / to_float totalBytes * 100)%float) ∧
    (bytesReceived = 0 → EnhancedDownload.progress e = 0%float) ∧
    (Js.truthy (DownloadItem.totalBytes download) = false →
       EnhancedDownload.progress e = 0%float) ∧
    (bytesReceived = 50 → DownloadItem.totalBytes download = Some 200 →
       EnhancedDownload.progress e = 25%float).
Proof.
  intros result.
  assert (Hperm : result ≡ₚ eval (enhance_all downloads) w).
  { subst result. unfold getEnhancedDownloadStats, eval, mbind, M_bind.
    destruct (enhance_all downloads w). apply Array_sort_perm. }
  pose proof (enhance_all_fields downloads w) as Hfields.
  split.
  - rewrite Hperm. clear Hperm.
    induction Hfields as [|d e ds es [Hd _] _ IH]; cbn; [done|].
    by rewrite Hd, IH.
  - intros e He. rewrite Hperm in He. clear Hperm.
    assert (Hprogress : EnhancedDownload.progress e
                        = progress_of (EnhancedDownload.download e)).
    { induction Hfields as [|d e' ds es [Hd Hp] _ IH].
      - by apply elem_of_nil in He.
      - apply elem_of_cons in He as [->|He]; [by rewrite Hd|by apply IH]. }
    intros download bytesReceived. split; [done|]. rewrite Hprogress.
    fold download. unfold progress_of. fold bytesReceived.
    split; [|split; [|split]].
    + intros totalBytes -> Hb Ht.
      destruct (Z.eqb_spec bytesReceived 0), (Z.eqb_spec totalBytes 0); done.
    + intros ->. by destruct (DownloadItem.totalBytes download).
    + destruct (DownloadItem.totalBytes download) as [totalBytes|]; [|done].
      cbn. intros Ht. apply negb_false_iff in Ht. rewrite Ht.
      by rewrite andb_false_r.
    + intros -> ->. cbn. apply progress_50_of_200.
Qed.

(** ** The binary logarithm and the shape of formatted bytes *)

Lemma floor_log2_spec (q : Q) :
  0 < Qnum q →
  let n := Qnum q in
  let d := Z.pos (Qden q) in
  let e := floor_log2 q in
  2 ^ Z.max e 0 * d <= 2 ^ Z.max (- e) 0 * n ∧
  2 ^ Z.max (- (e + 1)) 0 * n < 2 ^ Z.max (e + 1) 0 * d.
Proof.
  intros Hn n d e. subst e. unfold floor_log2. fold n d.
  set (a := Z.log2 n). set (b := Z.log2 d).
  assert (Hd : 0 < d) by (subst d; lia).
  destruct (Z.log2_spec n Hn) as [Hn1 Hn2].
  destruct (Z.log2_spec d Hd) as [Hd1 Hd2].
  fold a in Hn1, Hn2. fold b in Hd1, Hd2.
  assert (Ha : 0 <= a) by apply Z.log2_nonneg.
  assert (Hb : 0 <= b) by apply Z.log2_nonneg.
  rewrite <- Z.add_1_r in Hn2, Hd2.
  destruct (Z.leb_spec (2 ^ Z.max (a - b) 0 * d) (2 ^ Z.max (- (a - b)) 0 * n))
    as [Hle|Hgt].
  - split; [exact Hle|].
    destruct (Z.le_gt_cases 0 (a - b + 1)) as [He|He].
    + rewrite Z.max_r, Z.max_l by lia. rewrite Z.pow_0_r, Z.mul_1_l.
      replace (a + 1) with (a - b + 1 + b) in Hn2 by lia.
      rewrite Z.pow_add_r in Hn2 by lia.
      assert (0 < 2 ^ (a - b + 1)) by (apply Z.pow_pos_nonneg; lia). nia.
    + rewrite Z.max_l, Z.max_r by lia. rewrite Z.pow_0_r, Z.mul_1_l.
      replace b with (- (a - b + 1) + (a + 1)) in Hd1 by lia.
      rewrite Z.pow_add_r in Hd1 by lia.
      assert (0 < 2 ^ (- (a - b + 1))) by (apply Z.pow_pos_nonneg; lia). nia.
  - replace (a - b - 1 + 1) with (a - b) by lia. split; [|exact Hgt].
    destruct (Z.le_gt_cases 0 (a - b - 1)) as [He|He].
    + rewrite Z.max_l, Z.max_r by lia. rewrite Z.pow_0_r, Z.mul_1_l.
      replace a with (a - b - 1 + (b + 1)) in Hn1 by lia.
      rewrite Z.pow_add_r in Hn1 by lia.
      assert (0 < 2 ^ (a - b - 1)) by (apply Z.pow_pos_nonneg; lia). nia.
    + rewrite Z.max_r, Z.max_l by lia. rewrite Z.pow_0_r, Z.mul_1_l.
      replace (b + 1) with (- (a - b - 1) + a) in Hd2 by lia.
      rewrite Z.pow_add_r in Hd2 by lia.
      assert (0 < 2 ^ (- (a - b - 1))) by (apply Z.pow_pos_nonneg; lia). nia.
Qed.

(** For [k >= 0], the binary logarithm reaches [k] exactly from [2^k] on. *)
Lemma floor_log2_ge (q : Q) (k : Z) :
  0 < Qnum q → 0 <= k →
  k <= floor_log2 q ↔ 2 ^ k * Z.pos (Qden q) <= Qnum q.
Proof.
  intros Hn Hk. destruct (floor_log2_spec q Hn) as [Hlo Hhi].
  set (e := floor_log2 q) in *. set (n := Qnum q) in *.
  set (d := Z.pos (Qden q)) in *.
  assert (Hd : 0 < d) by (subst d; lia).
  split.
  - intros Hke. rewrite Z.max_l, Z.max_r in Hlo by lia.
    rewrite Z.pow_0_r, Z.mul_1_l in Hlo.
    assert (2 ^ k <= 2 ^ e) by (apply Z.pow_le_mono_r; lia). nia.
  - intros Hkd. destruct (Z.le_gt_cases k e) as [|Hek]; [done|exfalso].
    destruct (Z.le_gt_cases 0 (e + 1)) as [He|He].
    + rewrite Z.max_r, Z.max_l in Hhi by lia.
      rewrite Z.pow_0_r, Z.mul_1_l in Hhi.
      assert (2 ^ (e + 1) <= 2 ^ k) by (apply Z.pow_le_mono_r; lia). nia.
    + rewrite Z.max_l, Z.max_r in Hhi by lia.
      rewrite Z.pow_0_r, Z.mul_1_l in Hhi.
      assert (0 < 2 ^ (- (e + 1))) by (apply Z.pow_pos_nonneg; lia).
      assert (0 < 2 ^ k) by (apply Z.pow_pos_nonneg; lia). nia.
Qed.

Lemma positive_num (q : Q) : (0 < q)%Q → 0 < Qnum q.
Proof. unfold Qlt. cbn. lia. Qed.

Lemma unit_index_nonneg (q : Q) :
  (0 < q)%Q → 0 <= unit_index q ↔ (1 <= q)%Q.
Proof.
  intros Hq%positive_num. unfold unit_index.
  transitivity (0 <= floor_log2 q).
  - split; intros H.
    + destruct (Z.le_gt_cases 0 (floor_log2 q)); [done|].
      assert (floor_log2 q / 10 < 0) by (apply Z.div_lt_upper_bound; lia). lia.
    + by apply Z.div_pos.
  - rewrite (floor_log2_ge q 0 Hq) by done. unfold Qle. cbn. lia.
Qed.

Lemma unit_index_below_4 (q : Q) :
  (0 < q)%Q → unit_index q < 4 ↔ (q < 1024 ^ 4)%Q.
Proof.
  intros Hq%positive_num. unfold unit_index.
  transitivity (¬ 40 <= floor_log2 q).
  - split; intros H.
    + intros Hge. assert (4 <= floor_log2 q / 10)
        by (apply Z.div_le_lower_bound; lia). lia.
    + apply Z.div_lt_upper_bound; lia.
  - rewrite (floor_log2_ge q 40 Hq) by done.
    change (1024 ^ 4)%Q with (inject_Z (2 ^ 40)). unfold Qlt. cbn -[Z.pow].
    lia.
Qed.

Lemma sizes_at_in_table (i : Z) :
  (∃ unit, sizes_at i = Some unit ∧ unit ∈ sizes) ↔ 0 <= i < 4.
Proof.
  unfold sizes_at. split.
  - intros (unit & Hat & _). destruct (Z.ltb_spec i 0); [done|].
    apply lookup_lt_Some in Hat. cbn in Hat. lia.
  - intros [H0 H4]. destruct (Z.ltb_spec i 0); [lia|].
    assert (Hi : i = 0 ∨ i = 1 ∨ i = 2 ∨ i = 3) by lia.
    destruct Hi as [-> | [-> | [-> | ->]]]; cbn; eexists; (split; [done|]);
      unfold sizes; set_solver.
Qed.

(** [floor_log2] brackets its argument between consecutive powers of 2. *)
Lemma floor_log2_bracket (q : Q) :
  (0 < q)%Q →
  (2 ^ floor_log2 q <= q)%Q ∧ (q < 2 ^ (floor_log2 q + 1))%Q.
Proof.
  intros Hq. destruct (floor_log2_spec q (positive_num q Hq)) as [Hlo Hhi].
  set (e := floor_log2 q) in *. destruct q as [n d]. cbn in Hlo, Hhi.
  assert (Hpow : ∀ k, 0 <= k → (0 < inject_Z (2 ^ k))%Q).
  { intros k Hk. change 0%Q with (inject_Z 0). rewrite <- Zlt_Qlt.
    apply Z.pow_pos_nonneg; lia. }
  split.
  - destruct (Z.le_gt_cases 0 e) as [He|He].
    + rewrite Z.max_l, Z.max_r in Hlo by lia.
      change 2%Q with (inject_Z 2). rewrite <- Zpower_Qpower by done.
      unfold Qle. cbn. lia.
    + rewrite Z.max_r, Z.max_l in Hlo by lia.
      replace e with (- - e) by lia. rewrite Qpower_opp.
      change 2%Q with (inject_Z 2). rewrite <- Zpower_Qpower by lia.
      apply Qle_shift_inv_r; [apply Hpow; lia|].
      unfold Qle. cbn. lia.
  - destruct (Z.le_gt_cases 0 (e + 1)) as [He|He].
    + rewrite Z.max_r, Z.max_l in Hhi by lia.
      change 2%Q with (inject_Z 2). rewrite <- Zpower_Qpower by done.
      unfold Qlt. cbn. lia.
    + rewrite Z.max_l, Z.max_r in Hhi by lia.
      replace (e + 1) with (- - (e + 1)) by lia. rewrite Qpower_opp.
      change 2%Q with (inject_Z 2). rewrite <- Zpower_Qpower by lia.
      apply Qlt_shift_inv_l; [apply Hpow; lia|].
      unfold Qlt. cbn. lia.
Qed.

(** [unit_index] is the exact [Math.floor(Math.log(bytes) / Math.log(1024))]:
    it brackets its argument between consecutive powers of 1024. *)
Lemma unit_index_bracket (q : Q) :
  (0 < q)%Q →
  (1024 ^ unit_index q <= q)%Q ∧ (q < 1024 ^ (unit_index q + 1))%Q.
Proof.
  intros Hq. destruct (floor_log2_bracket q Hq) as [Hlo Hhi].
  unfold unit_index. set (e := floor_log2 q) in *.
  assert (He : 10 * (e / 10) <= e < 10 * (e / 10 + 1)).
  { pose proof (Z.div_mod e 10 ltac:(lia)).
    pose proof (Z.mod_pos_bound e 10 ltac:(lia)). lia. }
  assert (H1024 : ∀ k, (1024 ^ k == 2 ^ (10 * k))%Q).
  { intros k. by rewrite Qpower_mult. }
  split.
  - rewrite H1024. eapply Qle_trans; [|exact Hlo].
    apply Qpower_le_compat_l; [lia|done].
  - rewrite H1024. eapply Qlt_le_trans; [exact Hhi|].
    apply Qpower_le_compat_l; [lia|done].
Qed.

Lemma formatBytes_positive (q : Q) :
  (0 < q)%Q →
  formatBytes (Js.Finite q) =
  mantissa q +:+ " " +:+ to_string (sizes_at (unit_index q)).
Proof.
  intros Hq. unfold formatBytes.
  destruct (Qeq_bool q 0) eqn:Heq.
  { apply Qeq_bool_iff in Heq. rewrite Heq in Hq. by apply Qlt_irrefl in Hq. }
  destruct (Qle_bool q 0) eqn:Hle; [|done].
  apply Qle_bool_iff in Hle. by apply Qle_not_lt in Hle.
Qed.

(** ** Binary64 rounding *)

Lemma Qfloor_ge (z : Z) (x : Q) : (inject_Z z <= x)%Q → z <= Qfloor x.
Proof.
  intros H. rewrite <- (Qfloor_Z z). by apply Qfloor_resp_le.
Qed.

Lemma Qfloor_lt (z : Z) (x : Q) : (x < inject_Z z)%Q → Qfloor x < z.
Proof.
  intros H. rewrite Zlt_Qlt. eapply Qle_lt_trans; [apply Qfloor_le|done].
Qed.

Lemma pow2_pos (k : Z) : (0 < 2 ^ k)%Q.
Proof. by apply Qpower_0_lt. Qed.

Lemma pow2_add (a b : Z) : (2 ^ (a + b) == 2 ^ a * 2 ^ b)%Q.
Proof. by apply Qpower_plus. Qed.

Lemma pow2_le (a b : Z) : a <= b → (2 ^ a <= 2 ^ b)%Q.
Proof. intros Hab. by apply Qpower_le_compat_l. Qed.

Lemma pow2_lt_inv (a b : Z) : (2 ^ a < 2 ^ b)%Q → a < b.
Proof.
  intros Hlt. destruct (Z.lt_ge_cases a b) as [|Hge]; [done|].
  apply pow2_le in Hge. by apply Qle_not_lt in Hge.
Qed.

(** *** The nearest integer *)

Lemma nearest_even_cases (x : Q) :
  Binary64.nearest_even x = Qfloor x ∧ (x - inject_Z (Qfloor x) <= 1 # 2)%Q ∨
  Binary64.nearest_even x = Qfloor x + 1 ∧
    (1 # 2 <= x - inject_Z (Qfloor x))%Q.
Proof.
  unfold Binary64.nearest_even.
  destruct (Qcompare_spec (x - inject_Z (Qfloor x)) (1 # 2)) as [Heq|Hlt|Hgt].
  - destruct (Z.even (Qfloor x)); [left|right]; (split; [done|]);
      rewrite Heq; apply Qle_refl.
  - left. split; [done|]. by apply Qlt_le_weak.
  - right. split; [done|]. by apply Qlt_le_weak.
Qed.

Lemma nearest_even_le (x : Q) (z : Z) :
  (x <= inject_Z z)%Q → Binary64.nearest_even x <= z.
Proof.
  intros Hx.
  pose proof (Qfloor_le x) as Hfloor.
  assert (Hfz : Qfloor x <= z).
  { rewrite Zle_Qle. by eapply Qle_trans. }
  destruct (nearest_even_cases x) as [[-> _]|[-> Hhalf]]; [done|].
  destruct (Z.eq_dec (Qfloor x) z) as [Heq|]; [|lia]. exfalso.
  rewrite Heq in Hhalf.
  assert (x - inject_Z z <= 0)%Q.
  { apply Qplus_le_l with (z := inject_Z z). by ring_simplify. }
  assert (1 # 2 <= 0)%Q by by eapply Qle_trans. done.
Qed.

Lemma nearest_even_ge (x : Q) (z : Z) :
  (inject_Z z <= x)%Q → z <= Binary64.nearest_even x.
Proof.
  intros Hx. apply Qfloor_ge in Hx.
  destruct (nearest_even_cases x) as [[-> _]|[-> _]]; lia.
Qed.

Lemma nearest_even_mono (x y : Q) :
  (x <= y)%Q → Binary64.nearest_even x <= Binary64.nearest_even y.
Proof.
  intros Hxy. pose proof (Qfloor_resp_le x y Hxy) as Hfloor.
  destruct (Z.eq_dec (Qfloor x) (Qfloor y)) as [Heq|Hne].
  - unfold Binary64.nearest_even. rewrite Heq.
    assert (Hfrac : (x - inject_Z (Qfloor y) <= y - inject_Z (Qfloor y))%Q).
    { by apply Qplus_le_l. }
    destruct (Qcompare_spec (x - inject_Z (Qfloor y)) (1 # 2)) as [Hx|Hx|Hx];
      destruct (Qcompare_spec (y - inject_Z (Qfloor y)) (1 # 2)) as [Hy|Hy|Hy];
      try lia;
      try (destruct (Z.even (Qfloor y)); lia);
      exfalso.
    + rewrite Hx in Hfrac. by apply Qle_not_lt in Hfrac.
    + apply (Qlt_irrefl (1 # 2)). eapply Qlt_le_trans; [exact Hx|].
      eapply Qle_trans; [exact Hfrac|]. rewrite Hy. apply Qle_refl.
    + apply (Qlt_irrefl (1 # 2)). eapply Qlt_trans; [exact Hx|].
      eapply Qle_lt_trans; [exact Hfrac|exact Hy].
  - destruct (nearest_even_cases x) as [[-> _]|[-> _]];
      destruct (nearest_even_cases y) as [[-> _]|[-> _]]; lia.
Qed.

(** *** The binade of a positive number *)

Lemma exponent_upper (a : Q) :
  (0 < a)%Q → (a < 2 ^ (Binary64.exponent a + 1))%Q.
Proof.
  intros Ha. destruct (floor_log2_bracket a Ha) as [_ Hhi].
  eapply Qlt_le_trans; [exact Hhi|]. apply pow2_le.
  unfold Binary64.exponent. lia.
Qed.

Lemma exponent_lower (a : Q) :
  (0 < a)%Q → -1022 < Binary64.exponent a → (2 ^ Binary64.exponent a <= a)%Q.
Proof.
  intros Ha He. destruct (floor_log2_bracket a Ha) as [Hlo _].
  unfold Binary64.exponent in *.
  by replace (Z.max (floor_log2 a) (-1022)) with (floor_log2 a) by lia.
Qed.

Lemma floor_log2_mono (a b : Q) :
  (0 < a)%Q → (a <= b)%Q → floor_log2 a <= floor_log2 b.
Proof.
  intros Ha Hab.
  assert (Hb : (0 < b)%Q) by by eapply Qlt_le_trans.
  destruct (floor_log2_bracket a Ha) as [Hlo _].
  destruct (floor_log2_bracket b Hb) as [_ Hhi].
  assert (floor_log2 a < floor_log2 b + 1); [|lia].
  apply pow2_lt_inv. eapply Qle_lt_trans; [exact Hlo|].
  by eapply Qle_lt_trans.
Qed.

Lemma exponent_mono (a b : Q) :
  (0 < a)%Q → (a <= b)%Q → Binary64.exponent a <= Binary64.exponent b.
Proof.
  intros Ha Hab. pose proof (floor_log2_mono a b Ha Hab).
  unfold Binary64.exponent. lia.
Qed.

Lemma ulp_pos (a : Q) : (0 < Binary64.ulp a)%Q.
Proof. apply pow2_pos. Qed.

(** *** Rounding a magnitude *)

(** The rounded magnitude, before the sign is put back. *)
Lemma magnitude_nonneg (a : Q) :
  (0 <= a)%Q →
  (0 <= inject_Z (Binary64.nearest_even (a / Binary64.ulp a))
        * Binary64.ulp a)%Q.
Proof.
  intros Ha. apply Qmult_le_0_compat; [|apply Qlt_le_weak, ulp_pos].
  change 0%Q with (inject_Z 0). rewrite <- Zle_Qle.
  apply nearest_even_ge. apply Qle_shift_div_l; [apply ulp_pos|].
  by rewrite Qmult_0_l.
Qed.

Lemma magnitude_upper (a : Q) :
  (0 < a)%Q →
  (inject_Z (Binary64.nearest_even (a / Binary64.ulp a)) * Binary64.ulp a
   <= 2 ^ (Binary64.exponent a + 1))%Q.
Proof.
  intros Ha.
  assert (Hpow : (2 ^ (Binary64.exponent a + 1)
                  == inject_Z (2 ^ 53) * Binary64.ulp a)%Q).
  { unfold Binary64.ulp.
    replace (Binary64.exponent a + 1) with (53 + (Binary64.exponent a - 52))
      by lia.
    rewrite pow2_add. reflexivity. }
  rewrite Hpow. apply Qmult_le_compat_r; [|apply Qlt_le_weak, ulp_pos].
  rewrite <- Zle_Qle. apply nearest_even_le.
  apply Qle_shift_div_r; [apply ulp_pos|]. rewrite <- Hpow.
  by apply Qlt_le_weak, exponent_upper.
Qed.

Lemma magnitude_lower (a : Q) :
  (0 < a)%Q → -1022 < Binary64.exponent a →
  (2 ^ Binary64.exponent a
   <= inject_Z (Binary64.nearest_even (a / Binary64.ulp a)) * Binary64.ulp a)%Q.
Proof.
  intros Ha He.
  assert (Hpow : (2 ^ Binary64.exponent a
                  == inject_Z (2 ^ 52) * Binary64.ulp a)%Q).
  { unfold Binary64.ulp.
    replace (Binary64.exponent a) with (52 + (Binary64.exponent a - 52))
      at 1 by lia.
    rewrite pow2_add. reflexivity. }
  rewrite Hpow. apply Qmult_le_compat_r; [|apply Qlt_le_weak, ulp_pos].
  rewrite <- Zle_Qle. apply nearest_even_ge.
  apply Qle_shift_div_l; [apply ulp_pos|]. rewrite <- Hpow.
  by apply exponent_lower.
Qed.

Lemma magnitude_mono (a b : Q) :
  (0 <= a)%Q → (a <= b)%Q →
  (inject_Z (Binary64.nearest_even (a / Binary64.ulp a)) * Binary64.ulp a
   <= inject_Z (Binary64.nearest_even (b / Binary64.ulp b)) * Binary64.ulp b)%Q.
Proof.
  intros Ha Hab.
  assert (Hb : (0 <= b)%Q) by by eapply Qle_trans.
  destruct (Qle_lt_or_eq _ _ Ha) as [Hapos|Hazero].
  2:{ assert (Hquotient : (a / Binary64.ulp a == 0)%Q).
      { unfold Qdiv. transitivity (0 * / Binary64.ulp a)%Q; [|apply Qmult_0_l].
        apply Qmult_comp; [by symmetry|reflexivity]. }
      assert (Hzero : Binary64.nearest_even (a / Binary64.ulp a) = 0).
      { apply Z.le_antisymm.
        - apply nearest_even_le. rewrite Hquotient. apply Qle_refl.
        - apply nearest_even_ge. rewrite Hquotient. apply Qle_refl. }
      rewrite Hzero, Qmult_0_l. by apply magnitude_nonneg. }
  assert (Hbpos : (0 < b)%Q) by by eapply Qlt_le_trans.
  pose proof (exponent_mono a b Hapos Hab) as Hexp.
  destruct (Z.eq_dec (Binary64.exponent a) (Binary64.exponent b)) as [Heq|Hne].
  - unfold Binary64.ulp. rewrite Heq.
    apply Qmult_le_compat_r; [|apply Qlt_le_weak, pow2_pos].
    rewrite <- Zle_Qle. apply nearest_even_mono.
    apply Qmult_le_compat_r; [done|].
    apply Qlt_le_weak, Qinv_lt_0_compat, pow2_pos.
  - eapply Qle_trans; [by apply magnitude_upper|].
    eapply Qle_trans; [|apply magnitude_lower; [done|]].
    + apply pow2_le. lia.
    + unfold Binary64.exponent in *. lia.
Qed.

(** *** Rounding a number *)

Lemma Qabs_nonneg_eq (q : Q) : (0 <= q)%Q → Qabs q = q.
Proof.
  destruct q as [n d]. unfold Qle, Qabs. cbn. intros Hn.
  f_equal. lia.
Qed.

Lemma Qabs_neg_eq (q : Q) : (q <= 0)%Q → Qabs q = (- q)%Q.
Proof.
  destruct q as [n d]. unfold Qle, Qabs, Qopp. cbn. intros Hn.
  f_equal. lia.
Qed.

Lemma nearest_nonneg (q : Q) :
  (0 <= q)%Q →
  (Binary64.nearest q
   == inject_Z (Binary64.nearest_even (q / Binary64.ulp q)) * Binary64.ulp q)%Q.
Proof.
  intros Hq. unfold Binary64.nearest. rewrite Qabs_nonneg_eq by done.
  apply Qle_bool_iff in Hq. rewrite Hq. apply Qred_correct.
Qed.

Lemma nearest_neg (q : Q) :
  (q < 0)%Q →
  (Binary64.nearest q
   == - (inject_Z (Binary64.nearest_even (- q / Binary64.ulp (- q)))
         * Binary64.ulp (- q)))%Q.
Proof.
  intros Hq. unfold Binary64.nearest.
  rewrite Qabs_neg_eq by by apply Qlt_le_weak.
  destruct (Qle_bool 0 q) eqn:Hle; [|apply Qred_correct].
  apply Qle_bool_iff in Hle. by apply Qle_not_lt in Hle.
Qed.

Lemma Qopp_nonneg (q : Q) : (q <= 0)%Q → (0 <= - q)%Q.
Proof. intros Hq. exact (Qopp_le_compat q 0 Hq). Qed.

Lemma Qopp_nonpos (q : Q) : (0 <= q)%Q → (- q <= 0)%Q.
Proof. intros Hq. exact (Qopp_le_compat 0 q Hq). Qed.

Lemma nearest_sign (q : Q) :
  ((0 <= q)%Q → (0 <= Binary64.nearest q)%Q) ∧
  ((q <= 0)%Q → (Binary64.nearest q <= 0)%Q).
Proof.
  split; intros Hq.
  - rewrite nearest_nonneg by done. by apply magnitude_nonneg.
  - destruct (Qle_lt_or_eq _ _ Hq) as [Hneg|Hzero].
    + rewrite nearest_neg by done.
      apply Qopp_nonpos, magnitude_nonneg. by apply Qopp_nonneg.
    + assert (H0 : (0 <= q)%Q) by (rewrite Hzero; apply Qle_refl).
      rewrite nearest_nonneg by done.
      assert (Hquotient : (q / Binary64.ulp q == 0)%Q).
      { unfold Qdiv. transitivity (0 * / Binary64.ulp q)%Q; [|apply Qmult_0_l].
        apply Qmult_comp; [done|reflexivity]. }
      assert (Hnearest : Binary64.nearest_even (q / Binary64.ulp q) = 0).
      { apply Z.le_antisymm.
        - apply nearest_even_le. rewrite Hquotient. apply Qle_refl.
        - apply nearest_even_ge. rewrite Hquotient. apply Qle_refl. }
      rewrite Hnearest, Qmult_0_l. apply Qle_refl.
Qed.

(** Rounding to the nearest binary64 number keeps the order. *)
Lemma nearest_mono (p q : Q) :
  (p <= q)%Q → (Binary64.nearest p <= Binary64.nearest q)%Q.
Proof.
  intros Hpq.
  destruct (Qlt_le_dec p 0) as [Hp|Hp]; destruct (Qlt_le_dec q 0) as [Hq|Hq].
  - rewrite (nearest_neg p), (nearest_neg q) by done.
    apply Qopp_le_compat. apply magnitude_mono.
    + by apply Qopp_nonneg, Qlt_le_weak.
    + by apply Qopp_le_compat.
  - apply Qle_trans with 0%Q.
    + by apply nearest_sign, Qlt_le_weak.
    + by apply nearest_sign.
  - exfalso. apply (Qlt_irrefl 0). eapply Qle_lt_trans; [exact Hp|].
    by eapply Qle_lt_trans.
  - rewrite (nearest_nonneg p), (nearest_nonneg q) by done.
    by apply magnitude_mono.
Qed.

Lemma round_finite (q : Q) :
  (- 2 ^ 1024 < Binary64.nearest q)%Q → (Binary64.nearest q < 2 ^ 1024)%Q →
  Binary64.round q = Js.Finite (Binary64.nearest q).
Proof.
  intros Hlo Hhi. unfold Binary64.round.
  destruct (Qle_bool _ _) eqn:Hle; [|done].
  apply Qle_bool_iff in Hle. exfalso.
  destruct (Qlt_le_dec (Binary64.nearest q) 0) as [Hneg|Hpos].
  - rewrite Qabs_neg in Hle by by apply Qlt_le_weak.
    apply (Qlt_irrefl (- 2 ^ 1024)). eapply Qlt_le_trans; [exact Hlo|].
    rewrite <- (Qopp_involutive (Binary64.nearest q)).
    by apply Qopp_le_compat.
  - rewrite Qabs_pos in Hle by done.
    apply (Qlt_irrefl (2 ^ 1024)). by eapply Qle_lt_trans.
Qed.

(** A number at most [b] rounds to a number at most the rounded [b]. *)
Lemma round_le (q b : Q) :
  (q <= b)%Q → (Binary64.nearest b < 2 ^ 1024)%Q →
  number_le (Binary64.round q) (Binary64.nearest b) = true.
Proof.
  intros Hqb Hb. pose proof (nearest_mono q b Hqb) as Hmono.
  unfold Binary64.round.
  destruct (Qle_bool _ _) eqn:Hle; cbn; [|by apply Qle_bool_iff].
  apply Qle_bool_iff in Hle. unfold Binary64.negative.
  destruct (Qle_bool 0 q) eqn:Hsign; [exfalso|done].
  apply Qle_bool_iff in Hsign.
  rewrite Qabs_pos in Hle by by apply nearest_sign.
  apply (Qlt_irrefl (2 ^ 1024)).
  eapply Qle_lt_trans; [exact Hle|]. by eapply Qle_lt_trans.
Qed.

(** A number at least [a] rounds to a number at least the rounded [a]. *)
Lemma round_ge (q a : Q) :
  (a <= q)%Q → (- 2 ^ 1024 < Binary64.nearest a)%Q →
  number_ge (Binary64.round q) (Binary64.nearest a) = true.
Proof.
  intros Haq Ha. pose proof (nearest_mono a q Haq) as Hmono.
  unfold Binary64.round.
  destruct (Qle_bool _ _) eqn:Hle; cbn; [|by apply Qle_bool_iff].
  apply Qle_bool_iff in Hle. unfold Binary64.negative.
  destruct (Qle_bool 0 q) eqn:Hsign; [done|exfalso].
  assert (Hq : (q <= 0)%Q).
  { destruct (Qlt_le_dec 0 q) as [Hpos|]; [|done].
    apply Qlt_le_weak, Qle_bool_iff in Hpos. congruence. }
  rewrite Qabs_neg in Hle by by apply nearest_sign.
  apply (Qlt_irrefl (- 2 ^ 1024)).
  eapply Qlt_le_trans; [exact Ha|]. eapply Qle_trans; [exact Hmono|].
  rewrite <- (Qopp_involutive (Binary64.nearest q)).
  by apply Qopp_le_compat.
Qed.

(** *** Accuracy *)

Lemma nearest_even_half (x : Q) :
  (inject_Z (Binary64.nearest_even x) - (1 # 2) <= x)%Q ∧
  (x <= inject_Z (Binary64.nearest_even x) + (1 # 2))%Q.
Proof.
  pose proof (Qfloor_le x) as Hlo. pose proof (Qlt_floor x) as Hhi.
  rewrite inject_Z_plus in Hhi. change (inject_Z 1) with 1%Q in Hhi.
  destruct (nearest_even_cases x) as [[-> Hhalf]|[-> Hhalf]].
  - split; lra.
  - rewrite inject_Z_plus. change (inject_Z 1) with 1%Q. split; lra.
Qed.

(** A number below [2^k] is within [2^(k-54)] of the number it rounds to. *)
Lemma nearest_error (q : Q) (k : Z) :
  (0 <= q)%Q → (q < 2 ^ k)%Q → -1021 <= k →
  (Binary64.nearest q - 2 ^ (k - 54) <= q)%Q ∧
  (q <= Binary64.nearest q + 2 ^ (k - 54))%Q.
Proof.
  intros Hq Hk Hnormal. pose proof (pow2_pos (k - 54)) as Hbound.
  destruct (Qle_lt_or_eq _ _ Hq) as [Hpos|Hzero].
  2:{ destruct (nearest_sign q) as [Hnonneg Hnonpos].
      assert (q <= 0)%Q by (rewrite <- Hzero; apply Qle_refl).
      specialize (Hnonneg Hq). specialize (Hnonpos ltac:(done)).
      split; lra. }
  rewrite nearest_nonneg by done.
  destruct (nearest_even_half (q / Binary64.ulp q)) as [Hlo Hhi].
  pose proof (ulp_pos q) as Hulp.
  set (m := inject_Z (Binary64.nearest_even (q / Binary64.ulp q))) in *.
  assert (Hexp : Binary64.exponent q <= k - 1).
  { destruct (floor_log2_bracket q Hpos) as [Hbracket _].
    assert (floor_log2 q < k).
    { apply pow2_lt_inv. by eapply Qle_lt_trans. }
    unfold Binary64.exponent. lia. }
  assert (Hspacing : (Binary64.ulp q <= 2 * 2 ^ (k - 54))%Q).
  { assert (Hdouble : (2 * 2 ^ (k - 54) == 2 ^ (k - 53))%Q).
    { replace (k - 53) with (1 + (k - 54)) by lia. by rewrite pow2_add. }
    rewrite Hdouble. apply pow2_le. lia. }
  set (u := Binary64.ulp q) in *. set (b := (2 ^ (k - 54))%Q) in *.
  assert (Hlo' : ((m - (1 # 2)) * u <= q / u * u)%Q)
    by (apply Qmult_le_compat_r; lra).
  assert (Hhi' : (q / u * u <= (m + (1 # 2)) * u)%Q)
    by (apply Qmult_le_compat_r; lra).
  assert (Hquotient : (q / u * u == q)%Q) by (field; lra).
  rewrite Hquotient in Hlo', Hhi'.
  split; lra.
Qed.

(** The integers up to [2^53] are binary64 numbers. *)
Lemma nearest_integer (z : Z) :
  0 <= z <= 2 ^ 53 → (Binary64.nearest (inject_Z z) == inject_Z z)%Q.
Proof.
  intros [Hlo Hhi].
  assert (Hq : (0 <= inject_Z z)%Q).
  { change 0%Q with (inject_Z 0). by rewrite <- Zle_Qle. }
  destruct (Z.eq_dec z 0) as [->|Hne]; [reflexivity|].
  assert (Hpos : (0 < inject_Z z)%Q).
  { change 0%Q with (inject_Z 0). rewrite <- Zlt_Qlt. lia. }
  rewrite nearest_nonneg by done.
  destruct (floor_log2_bracket _ Hpos) as [Hbracket_lo Hbracket_hi].
  assert (Hexp : 0 <= floor_log2 (inject_Z z) <= 53).
  { split.
    - assert (0 < floor_log2 (inject_Z z) + 1); [|lia].
      apply pow2_lt_inv. eapply Qle_lt_trans; [|exact Hbracket_hi].
      change (2 ^ 0)%Q with (inject_Z 1). rewrite <- Zle_Qle. lia.
    - assert (floor_log2 (inject_Z z) < 54); [|lia].
      apply pow2_lt_inv. eapply Qle_lt_trans; [exact Hbracket_lo|].
      change (2 ^ 54)%Q with (inject_Z (2 ^ 54)). rewrite <- Zlt_Qlt. lia. }
  unfold Binary64.ulp, Binary64.exponent.
  replace (Z.max (floor_log2 (inject_Z z)) (-1022))
    with (floor_log2 (inject_Z z)) by lia.
  set (e := floor_log2 (inject_Z z)) in *.
  destruct (Z.eq_dec e 53) as [He|He].
  - rewrite He in *. change (2 ^ (53 - 52))%Q with 2%Q.
    assert (Hz : z = 2 ^ 53).
    { apply Z.le_antisymm; [done|]. rewrite Zle_Qle.
      change (inject_Z (2 ^ 53)) with (2 ^ 53)%Q. done. }
    rewrite Hz. reflexivity.
  - assert (Hinteger : (inject_Z z / 2 ^ (e - 52)
                        == inject_Z (z * 2 ^ (52 - e)))%Q).
    { rewrite inject_Z_mult. rewrite Zpower_Qpower by lia.
      change (inject_Z 2) with 2%Q.
      replace (e - 52) with (- (52 - e)) by lia. rewrite Qpower_opp.
      unfold Qdiv. by rewrite Qinv_involutive. }
    assert (Hnearest : Binary64.nearest_even (inject_Z z / 2 ^ (e - 52))
                       = z * 2 ^ (52 - e)).
    { apply Z.le_antisymm.
      - apply nearest_even_le. rewrite Hinteger. apply Qle_refl.
      - apply nearest_even_ge. rewrite Hinteger. apply Qle_refl. }
    rewrite Hnearest, <- Hinteger. field.
    pose proof (pow2_pos (e - 52)). lra.
Qed.

(** *** Agreement with the primitive floats *)

(** On the samples, the quotients and percentages of [Binary64] are the ones
    the primitive binary64 floats give. *)
Lemma binary64_agrees_on_samples :
  forallb (λ '(a, b, c),
             number_same
               (Binary64.div (Binary64.of_Z a)
                  (Binary64.div (Binary64.of_Z b) (Binary64.of_Z c)))
               (float_value (to_float a / (to_float b / to_float c))))
          quotient_samples = true ∧
  forallb (λ '(used, capacity),
             number_same
               (Binary64.mul
                  (Binary64.div (Binary64.of_Z used) (Binary64.of_Z capacity))
                  (Js.Finite 100))
               (float_value (to_float used / to_float capacity * 100)))
          percentage_samples = true.
Proof. split; by vm_compute. Qed.

(** *** The elapsed-time test *)

Lemma number_lt_ge (x : Js.number) (bound : Q) :
  number_ge x bound = true → number_lt x bound = false.
Proof. destruct x as [|[]|q]; cbn; try done. by intros ->. Qed.

Lemma number_lt_le (x : Js.number) (b bound : Q) :
  (b < bound)%Q → number_le x b = true → number_lt x bound = true.
Proof.
  intros Hb. destruct x as [|[]|q]; cbn; try done.
  intros Hq%Qle_bool_iff. apply negb_true_iff.
  destruct (Qle_bool bound q) eqn:Hle; [|done].
  apply Qle_bool_iff in Hle. exfalso. apply (Qlt_irrefl b).
  eapply Qlt_le_trans; [exact Hb|]. by eapply Qle_trans.
Qed.

(** Division of a number by a positive literal keeps the side of a bound. *)
Lemma div_literal_ge (x : Js.number) (d a c : Q) :
  (0 < d)%Q →
  number_ge x c = true → (a * d <= c)%Q →
  (- 2 ^ 1024 < Binary64.nearest a)%Q →
  number_ge (Binary64.div x (Js.Finite d)) (Binary64.nearest a) = true.
Proof.
  intros Hd Hx Hc Hfinite. destruct x as [|[]|q]; cbn in *; try done.
  - unfold Binary64.negative.
    destruct (Qle_bool 0 d) eqn:Hle; [done|].
    apply Qlt_le_weak, Qle_bool_iff in Hd. congruence.
  - destruct (Qeq_bool d 0) eqn:Hzero.
    { apply Qeq_bool_iff in Hzero. rewrite Hzero in Hd.
      by apply Qlt_irrefl in Hd. }
    apply round_ge; [|done]. apply Qle_shift_div_l; [done|].
    eapply Qle_trans; [exact Hc|]. by apply Qle_bool_iff.
Qed.

Lemma div_literal_le (x : Js.number) (d b c : Q) :
  (0 < d)%Q →
  number_le x c = true → (c <= b * d)%Q →
  (Binary64.nearest b < 2 ^ 1024)%Q →
  number_le (Binary64.div x (Js.Finite d)) (Binary64.nearest b) = true.
Proof.
  intros Hd Hx Hc Hfinite. destruct x as [|[]|q]; cbn in *; try done.
  - unfold Binary64.negative.
    destruct (Qle_bool 0 d) eqn:Hle; [done|].
    apply Qlt_le_weak, Qle_bool_iff in Hd. congruence.
  - destruct (Qeq_bool d 0) eqn:Hzero.
    { apply Qeq_bool_iff in Hzero. rewrite Hzero in Hd.
      by apply Qlt_irrefl in Hd. }
    apply round_le; [|done]. apply Qle_shift_div_r; [done|].
    eapply Qle_trans; [|exact Hc]. by apply Qle_bool_iff.
Qed.

(** [(Date.now() - lastUpdated) / 1000 < 1] holds exactly when fewer than
    1000 milliseconds have elapsed. *)
Lemma elapsed_below_second (elapsed : Z) :
  number_lt (Binary64.div (Binary64.of_Z elapsed) (Js.Finite 1000)) 1 = true
  ↔ elapsed < 1000.
Proof.
  split.
  - intros Hlt. destruct (Z.lt_ge_cases elapsed 1000) as [|Hge]; [done|].
    assert (Hfalse :
      number_lt (Binary64.div (Binary64.of_Z elapsed) (Js.Finite 1000)) 1
      = false); [|congruence].
    apply number_lt_ge.
    change 1%Q with (Binary64.nearest 1).
    apply div_literal_ge with (c := Binary64.nearest (inject_Z 1000));
      [done| |done..].
    apply round_ge; [|done]. rewrite <- Zle_Qle. lia.
  - intros Hlt.
    apply number_lt_le with (b := Binary64.nearest (999 # 1000)); [done|].
    apply div_literal_le with (c := Binary64.nearest (inject_Z 999));
      [done| |done..].
    apply round_le; [|done]. rewrite <- Zle_Qle. lia.
Qed.

Lemma number_between (x : Js.number) (a b : Q) :
  number_ge x a = true → number_le x b = true →
  ∃ r, x = Js.Finite r ∧ (a <= r)%Q ∧ (r <= b)%Q.
Proof.
  destruct x as [|[]|q]; cbn; try done.
  intros Ha%Qle_bool_iff Hb%Qle_bool_iff. by exists q.
Qed.

Lemma round_between (q a b : Q) :
  (a <= q)%Q → (q <= b)%Q →
  (- 2 ^ 1024 < Binary64.nearest a)%Q → (Binary64.nearest b < 2 ^ 1024)%Q →
  ∃ r, Binary64.round q = Js.Finite r ∧
       (Binary64.nearest a <= r)%Q ∧ (r <= Binary64.nearest b)%Q.
Proof.
  intros Ha Hb Hlo Hhi. apply number_between.
  - by apply round_ge.
  - by apply round_le.
Qed.

(** Numbers that are equal as rationals round to the same number. *)
Lemma nearest_Qeq (p q : Q) :
  (p == q)%Q → Binary64.nearest p = Binary64.nearest q.
Proof.
  intros Heq.
  assert (Hsame : (Binary64.nearest p == Binary64.nearest q)%Q).
  { apply Qle_antisym; apply nearest_mono; rewrite Heq; apply Qle_refl. }
  unfold Binary64.nearest in *. apply Qred_complete.
  by rewrite !Qred_correct in Hsame.
Qed.

Lemma round_Qeq (p q : Q) :
  (p == q)%Q → Binary64.round p = Binary64.round q.
Proof.
  intros Heq. unfold Binary64.round, Binary64.negative.
  rewrite (nearest_Qeq p q Heq). by rewrite Heq.
Qed.

(** ** Download speed and time remaining *)

Lemma speed_text_not_unavailable (s : string) : s +:+ "/s" ≠ "N/A".
Proof. destruct s as [|a [|b [|c [|d s]]]]; cbn; discriminate. Qed.

Lemma calculateDownloadSpeed_cases (downloadId : Z) (w : World) :
  eval (calculateDownloadSpeed downloadId) w =
  match downloadStats w !! downloadId with
  | None => "N/A"
  | Some stats =>
      match DownloadRecord.lastUpdated stats,
            DownloadRecord.bytesReceived stats with
      | Some lastUpdated, Some bytesReceived =>
          if (lastUpdated =? 0) || (bytesReceived =? 0) then "N/A"
          else
            let timeDiff :=
              Binary64.div
                (Binary64.of_Z (clock w (clockReads w) - lastUpdated))
                (Js.Finite 1000) in
            if number_lt timeDiff 1 then "N/A"
            else formatBytes
                   (Binary64.div (Binary64.of_Z bytesReceived) timeDiff)
                 +:+ "/s"
      | _, _ => "N/A"
      end
  end.
Proof.
  unfold eval, calculateDownloadSpeed, mbind, M_bind, gets. cbn.
  destruct (downloadStats w !! downloadId) as [stats|]; [|done].
  destruct (DownloadRecord.lastUpdated stats) as [lastUpdated|]; [|done].
  destruct (DownloadRecord.bytesReceived stats) as [bytesReceived|]; [|done].
  destruct ((lastUpdated =? 0) || (bytesReceived =? 0)); [done|].
  cbn [Date_now fst snd clock clockReads]. by destruct (number_lt _ 1).
Qed.

Lemma calculateTimeRemaining_cases (downloadId : Z) (w : World) :
  eval (calculateTimeRemaining downloadId) w =
  match downloadStats w !! downloadId with
  | None => "N/A"
  | Some stats =>
      match DownloadRecord.totalBytes stats,
            DownloadRecord.bytesReceived stats with
      | Some totalBytes, Some bytesReceived =>
          if (totalBytes =? 0) || (bytesReceived =? 0)
             || not_in_progress (DownloadRecord.state stats)
          then "N/A"
          else
            let speed := eval (calculateDownloadSpeed downloadId) w in
            if String.eqb speed "N/A" then "N/A"
            else
              match Regex.match_speed speed with
              | None => "N/A"
              | Some (speedValue, speedUnit) =>
                  formatTime
                    (Binary64.div
                       (Binary64.of_Z (totalBytes - bytesReceived))
                       (Binary64.mul
                          (Binary64.round (parseFloat speedValue))
                          (Js.Finite (unit_factor speedUnit))))
              end
      | _, _ => "N/A"
      end
  end.
Proof.
  unfold eval at 1. unfold calculateTimeRemaining, mbind, M_bind, gets. cbn.
  destruct (downloadStats w !! downloadId) as [stats|]; [|done].
  destruct (DownloadRecord.totalBytes stats) as [totalBytes|]; [|done].
  destruct (DownloadRecord.bytesReceived stats) as [bytesReceived|]; [|done].
  destruct (_ || _); [done|]. cbn. unfold eval.
  destruct (calculateDownloadSpeed downloadId w) as [speed w1]. cbn.
  destruct (String.eqb speed "N/A"); [done|].
  by destruct (Regex.match_speed speed) as [[speedValue speedUnit]|].
Qed.

Lemma elapsed_seconds_below_1 (elapsed : Z) :
  (inject_Z elapsed / 1000 < 1)%Q ↔ elapsed < 1000.
Proof. unfold Qlt. cbn. lia. Qed.

(** C6, as amended.  [calculateDownloadSpeed] reports "N/A" exactly when the
    download has no tracked record, its [lastUpdated] is missing (or 0), its
    [bytesReceived] is missing or 0, or less than one second has elapsed
    since [lastUpdated]; otherwise it reports [bytesReceived] divided by the
    elapsed seconds, both quotients taken in binary64, formatted by
    [formatBytes] and followed by "/s".  [calculateTimeRemaining] reports
    "N/A" whenever there is no tracked record, the state is not
    [in_progress], [totalBytes] or [bytesReceived] is missing or 0, or the
    speed is "N/A". *)
Theorem speed_and_time_remaining_unavailable (downloadId : Z) (w : World) :
  let now := clock w (clockReads w) in
  let speed := eval (calculateDownloadSpeed downloadId) w in
  let remaining := eval (calculateTimeRemaining downloadId) w in
  (speed = "N/A" ↔
     match downloadStats w !! downloadId with
     | None => True
     | Some stats =>
         Js.truthy (DownloadRecord.lastUpdated stats) = false ∨
         Js.truthy (DownloadRecord.bytesReceived stats) = false ∨
         ∃ lastUpdated,
           DownloadRecord.lastUpdated stats = Some lastUpdated ∧
           (inject_Z (now - lastUpdated) / 1000 < 1)%Q
     end) ∧
  (∀ stats lastUpdated bytesReceived,
     downloadStats w !! downloadId = Some stats →
     DownloadRecord.lastUpdated stats = Some lastUpdated →
     DownloadRecord.bytesReceived stats = Some bytesReceived →
     lastUpdated ≠ 0 → bytesReceived ≠ 0 →
     (1 <= inject_Z (now - lastUpdated) / 1000)%Q →
     speed =
       formatBytes
         (Binary64.div
            (Binary64.of_Z bytesReceived)
            (Binary64.div (Binary64.of_Z (now - lastUpdated))
                          (Js.Finite 1000)))
       +:+ "/s") ∧
  (downloadStats w !! downloadId = None → remaining = "N/A") ∧
  (∀ stats,
     downloadStats w !! downloadId = Some stats →
     not_in_progress (DownloadRecord.state stats) = true ∨
     Js.truthy (DownloadRecord.totalBytes stats) = false ∨
     Js.truthy (DownloadRecord.bytesReceived stats) = false ∨
     speed = "N/A" →
     remaining = "N/A").
Proof.
  intros now speed remaining. subst speed remaining.
  rewrite calculateTimeRemaining_cases, calculateDownloadSpeed_cases.
  fold now. split; [|split; [|split]].
  - destruct (downloadStats w !! downloadId) as [stats|]; [|done].
    destruct (DownloadRecord.lastUpdated stats) as [lastUpdated|];
      [|by split; [left|]].
    destruct (DownloadRecord.bytesReceived stats) as [bytesReceived|];
      [|by split; [right; left|]].
    cbn. destruct (Z.eqb_spec lastUpdated 0) as [->|Hlu];
      [by split; [left|]|].
    destruct (Z.eqb_spec bytesReceived 0) as [->|Hb];
      [by split; [right; left|]|].
    cbn. destruct (number_lt _ 1) eqn:Hlt.
    + split; [|done]. intros _. right; right. exists lastUpdated.
      split; [done|]. apply (proj2 (elapsed_seconds_below_1 _)).
      by apply (proj1 (elapsed_below_second _)).
    + split; [by intros ?%speed_text_not_unavailable|].
      intros [?|[?|(lu & [= <-] & Hless)]]; [done..|].
      apply (proj1 (elapsed_seconds_below_1 _)) in Hless.
      apply (proj2 (elapsed_below_second _)) in Hless. congruence.
  - intros stats lastUpdated bytesReceived -> -> -> Hlu Hb Hle.
    destruct (Z.eqb_spec lastUpdated 0); [done|].
    destruct (Z.eqb_spec bytesReceived 0); [done|]. cbn.
    destruct (number_lt _ 1) eqn:Hlt; [|done].
    apply (proj1 (elapsed_below_second _)) in Hlt.
    apply (proj2 (elapsed_seconds_below_1 _)) in Hlt.
    by apply Qle_not_lt in Hle.
  - by intros ->.
  - intros stats Hstats. rewrite Hstats.
    destruct (DownloadRecord.totalBytes stats) as [totalBytes|]; [|done].
    destruct (DownloadRecord.bytesReceived stats) as [bytesReceived|] eqn:Hb;
      [|done].
    cbn. intros [Hstate|[Htotal|[Hreceived|Hspeed]]].
    + rewrite Hstate. by rewrite orb_true_r.
    + apply negb_false_iff in Htotal. by rewrite Htotal.
    + apply negb_false_iff in Hreceived. rewrite Hreceived.
      by rewrite orb_true_r.
    + destruct (_ || _); [done|]. cbn. by rewrite Hspeed.
Qed.

(** C6 as first stated fails for a download that has received nothing yet:
    with a tracked record last updated five seconds ago and [bytesReceived]
    0, the speed is "N/A" although a prior update exists and a full second
    has elapsed. *)
Lemma speed_unavailable_without_bytes :
  let stats :=
    DownloadRecord.mk (Some 1) (Some "a.zip") None (Some "in_progress")
                      (Some 0) (Some 200) (Some 500) (Some 1000) in
  let w := set_downloadStats {[1 := stats]} (initial (λ _, 6000) (λ _, 0%Q)) in
  eval (calculateDownloadSpeed 1) w = "N/A" ∧
  downloadStats w !! 1 = Some stats ∧
  DownloadRecord.lastUpdated stats = Some 1000 ∧
  ¬ (inject_Z (clock w (clockReads w) - 1000) / 1000 < 1)%Q.
Proof.
  intros stats w. split; [|split; [|split]].
  - rewrite calculateDownloadSpeed_cases. subst w. cbn.
    by rewrite lookup_singleton_eq.
  - subst w. cbn. by rewrite lookup_singleton_eq.
  - reflexivity.
  - cbn. unfold Qlt. cbn. lia.
Qed.

Lemma speed_and_time_remaining_unavailable_witness :
  let fast :=
    DownloadRecord.mk (Some 1) (Some "a.zip") None (Some "in_progress")
                      (Some 3072) (Some 9216) (Some 500) (Some 1000) in
  let slow :=
    DownloadRecord.mk (Some 2) (Some "b.zip") None (Some "in_progress")
                      (Some 23) (Some 1000) (Some 500) (Some 1000) in
  eval (calculateDownloadSpeed 1)
       (set_downloadStats {[1 := fast]} (initial (λ _, 3000) (λ _, 0%Q)))
    = "1.5 KB/s" ∧
  eval (calculateDownloadSpeed 2)
       (set_downloadStats {[2 := slow]} (initial (λ _, 21000) (λ _, 0%Q)))
    = "1.1 B/s".
Proof.
  intros fast slow. split.
  - destruct (speed_and_time_remaining_unavailable 1
               (set_downloadStats {[1 := fast]}
                  (initial (λ _, 3000) (λ _, 0%Q)))) as (_ & Hspeed & _).
    rewrite (Hspeed fast 1000 3072).
    + by vm_compute.
    + cbn. by rewrite lookup_singleton_eq.
    + reflexivity.
    + reflexivity.
    + discriminate.
    + discriminate.
    + cbn. unfold Qle. cbn. lia.
  - destruct (speed_and_time_remaining_unavailable 2
               (set_downloadStats {[2 := slow]}
                  (initial (λ _, 21000) (λ _, 0%Q)))) as (_ & Hspeed & _).
    rewrite (Hspeed slow 1000 23).
    + by vm_compute.
    + cbn. by rewrite lookup_singleton_eq.
    + reflexivity.
    + reflexivity.
    + discriminate.
    + discriminate.
    + cbn. unfold Qle. cbn. lia.
Defined.

(** ** Units of the formatted bytes *)


(** ** Collation by code units is a consistent comparator *)

Lemma string_compare_trans (a b c : string) :
  String.compare a b ≠ Gt → String.compare b c ≠ Gt →
  String.compare a c ≠ Gt.
Proof.
  revert b c. induction a as [|x a IH]; intros [|y b] [|z c]; cbn; try done.
  unfold Ascii.compare.
  destruct (N.compare_spec (N_of_ascii x) (N_of_ascii y)) as [Hxy|Hxy|Hxy];
    destruct (N.compare_spec (N_of_ascii y) (N_of_ascii z)) as [Hyz|Hyz|Hyz];
    destruct (N.compare_spec (N_of_ascii x) (N_of_ascii z)) as [Hxz|Hxz|Hxz];
    try done; try lia.
  apply IH.
Qed.

Lemma codeunit_compare_consistent :
  consistent_comparator (localeCompare (Collation := codeunit_compare)).
Proof.
  split.
  - intros a b. unfold localeCompare, codeunit_compare.
    rewrite (String.compare_antisym b a).
    by destruct (String.compare a b).
  - intros a b c. unfold localeCompare, codeunit_compare.
    generalize (string_compare_trans a b c).
    destruct (String.compare a b), (String.compare b c),
      (String.compare a c); intros Htrans Hab Hbc; try lia;
      exfalso; by apply Htrans.
Qed.

(** ** The statements at concrete inputs *)

Lemma onDownloadChanged_partial_update_witness :
  let stats :=
    DownloadRecord.mk (Some 1) (Some "a.zip") None (Some "in_progress")
                      (Some 10) (Some 200) (Some 500) None in
  let delta :=
    DownloadDelta.mk 1 None (Some (Delta.mk (Some 10) (Some 50))) None in
  let w := set_downloadStats {[1 := stats; 2 := stats]}
                             (initial (λ _, 6000) (λ _, 0%Q)) in
  downloadStats (exec (onDownloadChanged delta) w) !! 2 = Some stats.
Proof.
  intros stats delta w.
  destruct (onDownloadChanged_partial_update delta w) as (_ & Hother & _).
  rewrite (Hother 2); [reflexivity|discriminate].
Defined.

Lemma cleanupOldStats_evicts_stale_witness :
  let hour := 60 * 60 * 1000 in
  let now := 100 * hour in
  let old :=
    TabRecord.mk (Some 1) (Some "Mail") None (Some (now - 25 * hour))
                 (Some 0%Q) (Some 0%Q) None None in
  let recent :=
    TabRecord.mk (Some 2) (Some "News") None (Some (now - 30 * hour))
                 (Some 0%Q) (Some 0%Q) None (Some (now - 23 * hour)) in
  let w := set_tabStats {[1 := old; 2 := recent]}
                        (initial (λ _, now) (λ _, 0%Q)) in
  tabStats (exec cleanupOldStats w) !! 1 = None ∧
  tabStats (exec cleanupOldStats w) !! 2 = Some recent.
Proof.
  intros hour now old recent w.
  destruct (cleanupOldStats_evicts_stale w) as (Htab & _).
  split.
  - destruct (Htab 1 old (now - 25 * hour)) as (_ & _ & H25 & _);
      [reflexivity|right; split; [by left|reflexivity]|].
    by apply H25.
  - destruct (Htab 2 recent (now - 23 * hour)) as (_ & _ & _ & H23);
      [reflexivity|left; split; [reflexivity|discriminate]|].
    by apply H23.
Defined.

Lemma tab_created_by_update_never_evicted_witness :
  let tab := Tab.mk 5 (Some "Docs") (Some "https://docs.example") true in
  let w := initial (λ _, 6000) (λ _, 0%Q) in
  ∃ stats,
    tabStats (exec (onTabUpdated 5 (Some "complete") tab) w) !! 5
      = Some stats ∧
    tab_expired (6000 + 1000 * maxAge) stats = false.
Proof.
  intros tab w.
  destruct (tab_created_by_update_never_evicted 5 (Some "complete") tab w)
    as (stats & Hget & _ & _ & Hnow & _); [reflexivity..|].
  exists stats. split; [exact Hget|apply Hnow].
Defined.

Lemma tab_store_counts_open_tabs_witness :
  let tab id := Tab.mk id (Some "Tab") None false in
  let events :=
    [TabCreated (tab 1); TabCreated (tab 2); TabRemoved 1; TabRemoved 9;
     TabCreated (tab 2)] in
  let w := exec (for_each events dispatch) (initial (λ _, 6000) (λ _, 0%Q)) in
  size (tabStats w) = 1%nat ∧
  tabStats (exec (onTabRemoved 9) w) = tabStats w.
Proof.
  intros tab events w.
  destruct (tab_store_counts_open_tabs events (λ _, 6000) (λ _, 0%Q))
    as (_ & _ & Hsize & Hremove).
  split.
  - fold w in Hsize. rewrite Hsize. reflexivity.
  - apply Hremove. reflexivity.
Defined.

Lemma getEnhancedDownloadStats_descending_witness :
  let item id start :=
    DownloadItem.mk id (Some "a.zip") None (Some "complete") 200 (Some 200)
                    (Instant.toISOString start) in
  let may1 := Instant.mk 2024 5 1 10 0 0 0 in
  let may2 := Instant.mk 2024 5 2 9 30 0 0 in
  let newYearsEve := Instant.mk 2023 12 31 23 59 59 999 in
  let downloads := [item 1 may1; item 2 may2; item 3 newYearsEve] in
  let result :=
    eval (getEnhancedDownloadStats (collation := codeunit_compare) downloads)
         (initial (λ _, 6000) (λ _, 0%Q)) in
  EnhancedDownload.startTime <$> result
    = ["2024-05-02T09:30:00.000Z"; "2024-05-01T10:00:00.000Z";
       "2023-12-31T23:59:59.999Z"] ∧
  Instant.compare may1 may2 ≠ Gt.
Proof.
  intros item may1 may2 newYearsEve downloads result.
  split; [reflexivity|].
  destruct (getEnhancedDownloadStats_descending
              (collation := codeunit_compare) downloads
              (initial (λ _, 6000) (λ _, 0%Q)) codeunit_compare_consistent)
    as [Hadjacent _].
  fold result in Hadjacent.
  destruct (Hadjacent 0%nat
              (EnhancedDownload.mk (item 2 may2) DownloadRecord.empty
                                   100%float "N/A" "N/A")
              (EnhancedDownload.mk (item 1 may1) DownloadRecord.empty
                                   100%float "N/A" "N/A"))
    as [_ Hchronological]; [reflexivity..|].
  apply (Hchronological ltac:(by intros a b _ _) may2 may1);
    first [reflexivity | by repeat split].
Defined.

Lemma getEnhancedDownloadStats_progress_witness :
  let download :=
    DownloadItem.mk 1 (Some "a.zip") None (Some "in_progress") 50 (Some 200)
                    "2024-05-01T10:00:00.000Z" in
  let result :=
    eval (getEnhancedDownloadStats (collation := codeunit_compare) [download])
         (initial (λ _, 6000) (λ _, 0%Q)) in
  List.length result = 1%nat ∧
  Forall (λ e, EnhancedDownload.progress e = 25%float) result.
Proof.
  intros download result. split; [reflexivity|].
  apply Forall_forall. intros e He.
  destruct (getEnhancedDownloadStats_progress (collation := codeunit_compare)
              [download] (initial (λ _, 6000) (λ _, 0%Q))) as [Hperm Hall].
  fold result in Hperm, Hall.
  destruct (Hall e He) as (_ & _ & _ & _ & H25).
  assert (Hd : EnhancedDownload.download e = download).
  { apply list_elem_of_singleton. rewrite <- Hperm.
    by apply list_elem_of_fmap_2. }
  apply H25; by rewrite Hd.
Defined.


(** * Further properties of the script *)

(** ** Persistence *)

Lemma new_Map_map_to_list {V} (m : gmap Z V) : new_Map (map_to_list m) = m.
Proof.
  apply map_eq. intros k. destruct (m !! k) as [v|] eqn:Hm.
  - apply elem_of_map_to_list, list_elem_of_split in Hm
      as (before & after & Hsplit).
    rewrite Hsplit. apply new_Map_last_wins.
    pose proof (NoDup_fst_map_to_list m) as Hnodup.
    rewrite Hsplit, fmap_app, fmap_cons in Hnodup.
    apply NoDup_app in Hnodup as (_ & _ & Hnodup).
    by apply NoDup_cons in Hnodup as [Hk _].
  - apply eq_None_not_Some. rewrite new_Map_is_Some.
    intros ([k' v] & -> & Hin)%list_elem_of_fmap.
    apply elem_of_map_to_list in Hin. cbn in Hm. congruence.
Qed.

(** X1. What [updateStoredStats] and [updateStoredDownloadStats] write is
    enough to rebuild both stores: when the stored arrays are delivered to
    [onStorageChanged] as a change of the [local] area, in whatever state the
    receiving manager is, its two maps become the maps that were written. *)
Theorem stored_stats_reload (w receiver : World) :
  let written :=
    localStorage (exec (updateStoredStats ;; updateStoredDownloadStats) w) in
  let changes :=
    Changes.mk (Some (StorageChange.mk None (Storage.tabStats written)))
               (Some (StorageChange.mk None (Storage.downloadStats written))) in
  tabStats (exec (onStorageChanged changes "local") receiver) = tabStats w ∧
  downloadStats (exec (onStorageChanged changes "local") receiver)
    = downloadStats w.
Proof.
  intros written changes.
  destruct (onStorageChanged_local changes receiver) as [-> ->].
  split; apply new_Map_map_to_list.
Qed.

Lemma monitoringTick_persisted (tabs : list Tab.t) (w : World) :
  persisted (exec (monitoringTick (Js.Resolved tabs)) w).
Proof.
  unfold monitoringTick, exec, mbind, M_bind.
  rewrite (run_unit (for_each tabs observe_tab)).
  rewrite (run_unit cleanupOldStats).
  split; cbn; apply new_Map_map_to_list.
Qed.

Lemma listener_persisted (e : Event) (w : World) :
  is_storage_event e = false → persisted w → persisted (exec (listener e) w).
Proof.
  intros Hstorage [Htabs Hdownloads].
  destruct e as [tab|tabId|tabId status tab|item|delta|changes ns|[tabs|]];
    try done.
  - split; cbn; [apply new_Map_map_to_list|exact Hdownloads].
  - split; cbn; [apply new_Map_map_to_list|exact Hdownloads].
  - cbn. unfold onTabUpdated. destruct (status_complete status); [|done].
    split; cbn; [apply new_Map_map_to_list|exact Hdownloads].
  - split; cbn; [exact Htabs|apply new_Map_map_to_list].
  - split; cbn; [exact Htabs|apply new_Map_map_to_list].
  - apply monitoringTick_persisted.
Qed.

(** X2. The stored copies never fall behind the stores: starting from the
    constructor's state, after any sequence of tab, download and timer
    notifications (each handler run to its end, its writes to
    [chrome.storage.local] succeeding), reloading what was last written under
    [tabStats] and [downloadStats] gives exactly the current maps. *)
Theorem storage_follows_stores
    (events : list Event) (clk : nat → Z) (rnd : nat → Q) :
  Forall (λ e, is_storage_event e = false) events →
  persisted (exec (for_each events listener) (initial clk rnd)).
Proof.
  intros Hevents.
  assert (Hinit : persisted (initial clk rnd)) by done.
  revert Hinit. generalize (initial clk rnd).
  induction Hevents as [|e events He _ IH]; intros w Hw; [done|].
  change (exec (for_each (e :: events) listener) w)
    with (exec (listener e ;; for_each events listener) w).
  unfold exec, mbind, M_bind. rewrite (run_unit (listener e)).
  apply IH. by apply listener_persisted.
Qed.

Lemma storage_follows_stores_witness :
  let mail := Tab.mk 1 (Some "Mail") None true in
  let item :=
    DownloadItem.mk 5 (Some "a.zip") None (Some "in_progress") 0 (Some 200)
                    "2024-05-02T10:00:00.000Z" in
  persisted
    (exec (for_each [TabCreatedEvent mail; DownloadCreatedEvent item;
                     TabRemovedEvent 1; IntervalEvent (Js.Resolved [mail])]
                    listener)
          (initial (λ _, 2000) (λ _, 1 # 2))).
Proof.
  intros mail item. apply storage_follows_stores. by repeat constructor.
Defined.

(** ** The monitoring tick *)

Lemma observe_tab_effect (tab : Tab.t) (w : World) :
  let w' := exec (observe_tab tab) w in
  downloadStats w' = downloadStats w ∧
  localStorage w' = localStorage w ∧
  clock w' = clock w ∧
  (clockReads w <= clockReads w')%nat ∧
  match tabStats w !! Tab.id tab with
  | None => tabStats w' = tabStats w
  | Some stats =>
      ∃ after, tabStats w' = <[Tab.id tab := after]> (tabStats w) ∧
               refreshed w w' stats after
  end.
Proof.
  unfold observe_tab, exec, mbind, M_bind, gets. cbn.
  destruct (tabStats w !! Tab.id tab) as [stats|]; cbn; [|done].
  repeat split; [lia|]. eexists. split; [reflexivity|].
  split; [done|]. split; [done|]. split; [done|]. split; [done|].
  split; [done|]. cbn. split; [|split].
  - exists (clockReads w). split; [lia|done].
  - intros m Hm. destruct (TabRecord.memoryUsage stats); [|done].
    injection Hm as <-. apply Q.le_max_l.
  - intros c Hc. destruct (TabRecord.cpuUsage stats); [|done].
    cbn in Hc. injection Hc as <-. split.
    + apply Q.le_max_l.
    + apply Q.max_lub; [done|apply Q.le_min_l].
Qed.

Lemma refreshed_trans (w w1 w2 : World) (r0 r1 r2 : TabRecord.t) :
  clock w1 = clock w → (clockReads w <= clockReads w1)%nat →
  refreshed w w1 r0 r1 → refreshed w1 w2 r1 r2 → refreshed w w2 r0 r2.
Proof.
  intros Hclock Hreads (H1 & H2 & H3 & H4 & H5 & _ & _ & _)
         (K1 & K2 & K3 & K4 & K5 & (n & Hn & Hseen) & Km & Kc).
  repeat split; try congruence; try done.
  - exists n. split; [lia|]. by rewrite <- Hclock.
  - by apply Kc.
  - by apply Kc.
Qed.

Lemma refreshed_widen (w w1 w2 w3 : World) (before after : TabRecord.t) :
  clock w1 = clock w →
  (clockReads w <= clockReads w1)%nat → (clockReads w2 <= clockReads w3)%nat →
  refreshed w1 w2 before after → refreshed w w3 before after.
Proof.
  intros Hclock Hlo Hhi
         (K1 & K2 & K3 & K4 & K5 & (n & Hn & Hseen) & Km & Kc).
  repeat split; try done; try (by apply Kc).
  exists n. split; [lia|]. by rewrite <- Hclock.
Qed.

Lemma observe_loop (tabs : list Tab.t) (w : World) :
  let w' := exec (for_each tabs observe_tab) w in
  downloadStats w' = downloadStats w ∧
  localStorage w' = localStorage w ∧
  clock w' = clock w ∧
  (clockReads w <= clockReads w')%nat ∧
  ∀ tabId,
    match tabStats w !! tabId with
    | None => tabStats w' !! tabId = None
    | Some before =>
        if decide (tabId ∈ Tab.id <$> tabs)
        then ∃ after, tabStats w' !! tabId = Some after ∧
                      refreshed w w' before after
        else tabStats w' !! tabId = Some before
    end.
Proof.
  revert w. induction tabs as [|tab tabs IH]; intros w.
  - cbn. repeat split; [lia|]. intros tabId.
    destruct (tabStats w !! tabId) eqn:Hget; [|done].
    rewrite decide_False by apply not_elem_of_nil. done.
  - change (exec (for_each (tab :: tabs) observe_tab) w)
      with (exec (observe_tab tab ;; for_each tabs observe_tab) w).
    unfold exec at 1, mbind, M_bind. rewrite (run_unit (observe_tab tab)).
    fold (exec (for_each tabs observe_tab) (exec (observe_tab tab) w)).
    destruct (observe_tab_effect tab w) as (Hd & Hs & Hc & Hr & Htab).
    set (w1 := exec (observe_tab tab) w) in *.
    destruct (IH w1) as (IHd & IHs & IHc & IHr & IHtab). cbn zeta in *.
    set (w' := exec (for_each tabs observe_tab) w1) in *.
    split; [congruence|]. split; [congruence|]. split; [congruence|].
    split; [lia|]. intros tabId. specialize (IHtab tabId).
    rewrite fmap_cons.
    destruct (decide (tabId = Tab.id tab)) as [->|Hne].
    + destruct (tabStats w !! Tab.id tab) as [before|] eqn:Hbefore.
      * destruct Htab as (r1 & Hw1 & Hr1).
        rewrite Hw1, lookup_insert_eq in IHtab.
        rewrite decide_True by apply list_elem_of_here.
        destruct (decide (Tab.id tab ∈ Tab.id <$> tabs)).
        -- destruct IHtab as (after & Hafter & Hrefreshed).
           exists after. split; [done|].
           by apply (refreshed_trans w w1 w' before r1 after).
        -- exists r1. split; [done|].
           by apply (refreshed_widen w w w1 w' before r1).
      * by rewrite Htab, Hbefore in IHtab.
    + assert (Hsame : tabStats w1 !! tabId = tabStats w !! tabId).
      { destruct (tabStats w !! Tab.id tab); [|by rewrite Htab].
        destruct Htab as (r1 & -> & _). by rewrite lookup_insert_ne. }
      rewrite Hsame in IHtab.
      destruct (tabStats w !! tabId) as [before|]; [|done].
      destruct (decide (tabId ∈ Tab.id <$> tabs)) as [Hin|Hnotin].
      * rewrite decide_True by (by apply list_elem_of_further).
        destruct IHtab as (after & Hafter & Hrefreshed).
        exists after. split; [done|].
        by apply (refreshed_widen w w1 w' w' before after).
      * rewrite decide_False; [done|].
        intros [?|?]%elem_of_cons; done.
Qed.

Lemma monitoringTick_stores (tabs : list Tab.t) (w : World) :
  let observed := exec (for_each tabs observe_tab) w in
  let now := clock observed (clockReads observed) in
  let w' := exec (monitoringTick (Js.Resolved tabs)) w in
  (∀ tabId,
     tabStats w' !! tabId =
     match tabStats observed !! tabId with
     | Some stats => if tab_expired now stats then None else Some stats
     | None => None
     end) ∧
  (∀ downloadId,
     downloadStats w' !! downloadId =
     match downloadStats w !! downloadId with
     | Some stats => if download_expired now stats then None else Some stats
     | None => None
     end).
Proof.
  intros observed now w'.
  assert (Hw' : tabStats w' = tabStats (exec cleanupOldStats observed) ∧
                downloadStats w' = downloadStats (exec cleanupOldStats observed)).
  { subst w' observed. unfold monitoringTick, exec, mbind, M_bind.
    rewrite (run_unit (for_each tabs observe_tab)).
    by rewrite (run_unit cleanupOldStats). }
  destruct Hw' as [-> ->].
  destruct (cleanupOldStats_exec observed) as [-> ->]. fold now.
  destruct (observe_loop tabs w) as (Hd & _). fold observed in Hd.
  split.
  - intros tabId. apply (sweep_own_entries (tab_expired now)).
  - intros downloadId. rewrite Hd.
    apply (sweep_own_entries (download_expired now)).
Qed.

Lemma cleanupOldStats_clockReads (w : World) :
  clockReads (exec cleanupOldStats w) = S (clockReads w).
Proof.
  unfold cleanupOldStats, exec, mbind, M_bind, Date_now, gets. cbn.
  rewrite run_unit, evict_tab_loop. cbn.
  by rewrite run_unit, evict_download_loop.
Qed.

(** The tick reads the clock once per refreshed tab and once more for the
    cleanup, the last reading of the tick. *)
Lemma monitoringTick_clockReads (tabs : list Tab.t) (w : World) :
  clockReads (exec (monitoringTick (Js.Resolved tabs)) w)
  = S (clockReads (exec (for_each tabs observe_tab) w)).
Proof.
  transitivity
    (clockReads (exec cleanupOldStats (exec (for_each tabs observe_tab) w)));
    [|apply cleanupOldStats_clockReads].
  unfold monitoringTick, exec, mbind, M_bind.
  rewrite (run_unit (for_each tabs observe_tab)).
  by rewrite (run_unit cleanupOldStats).
Qed.

Lemma monitoringTick_tab_origin (tabs : list Tab.t) (w : World)
    (tabId : Z) (after : TabRecord.t) :
  let w' := exec (monitoringTick (Js.Resolved tabs)) w in
  tabStats w' !! tabId = Some after →
  ∃ before, tabStats w !! tabId = Some before ∧
            (after = before ∨ refreshed w w' before after).
Proof.
  intros w'.
  destruct (monitoringTick_stores tabs w) as [Htabs _].
  destruct (observe_loop tabs w) as (_ & _ & _ & _ & Hloop).
  pose proof (monitoringTick_clockReads tabs w) as Hreads.
  cbn zeta in *. fold w' in Htabs, Hreads.
  intros Hafter. rewrite Htabs in Hafter.
  specialize (Hloop tabId).
  set (observed := exec (for_each tabs observe_tab) w) in *.
  destruct (tabStats observed !! tabId) as [stats|] eqn:Hobserved; [|done].
  destruct (tab_expired _ stats); [done|]. injection Hafter as <-.
  destruct (tabStats w !! tabId) as [before|]; [|congruence].
  exists before. split; [done|].
  destruct (decide (tabId ∈ Tab.id <$> tabs)).
  - destruct Hloop as (after & Hafter & Hrefreshed). right.
    replace stats with after by congruence.
    apply (refreshed_widen w w observed w' before after); [done|lia|lia|done].
  - left. congruence.
Qed.



(** ** Invariants along notifications *)

Lemma run_cons (e : Event) (events : list Event) (w : World) :
  exec (for_each (e :: events) listener) w
  = exec (for_each events listener) (exec (listener e) w).
Proof.
  change (exec (for_each (e :: events) listener) w)
    with (exec (listener e ;; for_each events listener) w).
  unfold exec, mbind, M_bind. by rewrite (run_unit (listener e)).
Qed.

Lemma onTabCreated_tabStats (tab : Tab.t) (w : World) :
  tabStats (exec (onTabCreated tab) w) =
  <[Tab.id tab :=
      TabRecord.mk (Some (Tab.id tab)) (Tab.title tab) (Tab.url tab)
                   (Some (clock w (clockReads w))) (Some 0%Q) (Some 0%Q)
                   None None]> (tabStats w).
Proof. reflexivity. Qed.

Lemma onTabRemoved_tabStats (tabId : Z) (w : World) :
  tabStats (exec (onTabRemoved tabId) w) = delete tabId (tabStats w).
Proof. reflexivity. Qed.

Lemma onTabUpdated_tabStats (tabId : Z) (tab : Tab.t) (w : World) :
  let prior := default TabRecord.empty (tabStats w !! tabId) in
  tabStats (exec (onTabUpdated tabId (Some "complete") tab) w) =
  <[tabId :=
      TabRecord.mk (Some tabId) (Tab.title tab) (Tab.url tab)
                   (TabRecord.createdAt prior) (TabRecord.memoryUsage prior)
                   (TabRecord.cpuUsage prior)
                   (Some (clock w (clockReads w)))
                   (TabRecord.lastSeen prior)]> (tabStats w).
Proof. reflexivity. Qed.

Lemma onTabUpdated_complete (tabId : Z) (status : option string) (tab : Tab.t) :
  status_complete status = true →
  onTabUpdated tabId status tab = onTabUpdated tabId (Some "complete") tab.
Proof. intros Hstatus. unfold onTabUpdated. by rewrite Hstatus. Qed.

Lemma onTabUpdated_incomplete (tabId : Z) (status : option string)
    (tab : Tab.t) (w : World) :
  status_complete status = false → exec (onTabUpdated tabId status tab) w = w.
Proof. intros Hstatus. unfold onTabUpdated. by rewrite Hstatus. Qed.

Lemma listener_keyed (e : Event) (w : World) :
  delivers_keyed_tabs e →
  tabs_keyed_by_id (tabStats w) →
  tabs_keyed_by_id (tabStats (exec (listener e) w)).
Proof.
  intros Hdelivers Hkeyed tabId stats.
  destruct e as [tab|removed|updated status tab|item|delta|changes ns|[tabs|]];
    cbn [listener].
  - rewrite onTabCreated_tabStats, lookup_insert. case_decide as Heq.
    + intros [= <-]. by subst.
    + apply Hkeyed.
  - rewrite onTabRemoved_tabStats, lookup_delete.
    case_decide; [done|apply Hkeyed].
  - destruct (status_complete status) eqn:Hstatus;
      [|rewrite onTabUpdated_incomplete by done; apply Hkeyed].
    rewrite onTabUpdated_complete by done.
    rewrite onTabUpdated_tabStats, lookup_insert. case_decide as Heq.
    + intros [= <-]. by subst.
    + apply Hkeyed.
  - apply Hkeyed.
  - apply Hkeyed.
  - destruct (String.eqb_spec ns "local") as [->|Hne];
      [|rewrite onStorageChanged_elsewhere by done; apply Hkeyed].
    destruct (onStorageChanged_local changes w) as [-> _].
    destruct (Changes.tabStats changes) as [change|] eqn:Hchange;
      [|apply Hkeyed].
    destruct (StorageChange.newValue change) as [entries|] eqn:Hentries.
    + intros Hget%new_Map_supplied. by eapply Hdelivers.
    + cbn. by rewrite lookup_empty.
  - intros (before & Hbefore & [->|Hrefreshed])%monitoringTick_tab_origin.
    + by apply Hkeyed.
    + destruct Hrefreshed as (-> & _). by apply Hkeyed.
  - apply Hkeyed.
Qed.

(** X4. Every tracked tab record carries the id it is stored under: this
    holds in the constructor's state and is kept by every notification (tab
    created, removed or updated, download created or changed, the timer, and
    a storage change whose delivered pairs are themselves keyed by id). *)
Theorem tab_records_keyed_by_id
    (events : list Event) (clk : nat → Z) (rnd : nat → Q) :
  Forall delivers_keyed_tabs events →
  tabs_keyed_by_id (tabStats (exec (for_each events listener)
                                   (initial clk rnd))).
Proof.
  intros Hevents.
  assert (Hinit : tabs_keyed_by_id (tabStats (initial clk rnd))).
  { intros tabId stats. cbn. by rewrite lookup_empty. }
  revert Hinit. generalize (initial clk rnd).
  induction Hevents as [|e events He _ IH]; intros w Hw; [done|].
  rewrite run_cons. apply IH. by apply listener_keyed.
Qed.

Lemma tab_records_keyed_by_id_witness :
  let mail := Tab.mk 1 (Some "Mail") None true in
  let loaded := Tab.mk 2 (Some "News") None false in
  tabs_keyed_by_id
    (tabStats
       (exec (for_each [TabCreatedEvent mail;
                        TabUpdatedEvent 2 (Some "complete") loaded;
                        StorageChangedEvent (Changes.mk None None) "local"]
                       listener)
             (initial (λ _, 2000) (λ _, 1 # 2)))).
Proof.
  intros mail loaded. apply tab_records_keyed_by_id.
  repeat constructor. intros change entries Hchange. discriminate Hchange.
Defined.

Lemma cleanupOldStats_clock (w : World) :
  clock (exec cleanupOldStats w) = clock w.
Proof.
  unfold cleanupOldStats, exec, mbind, M_bind, Date_now, gets. cbn.
  rewrite run_unit, evict_tab_loop. cbn.
  by rewrite run_unit, evict_download_loop.
Qed.

Lemma listener_clock (e : Event) (w : World) :
  clock (exec (listener e) w) = clock w.
Proof.
  destruct e as [tab|removed|updated status tab|item|delta|changes ns|[tabs|]];
    cbn [listener]; try done.
  - unfold onTabUpdated. by destruct (status_complete status).
  - unfold onStorageChanged. destruct (String.eqb ns "local"); [|done].
    by destruct changes as [[t|] [d|]].
  - destruct (observe_loop tabs w) as (_ & _ & Hclock & _). cbn zeta in Hclock.
    transitivity
      (clock (exec cleanupOldStats (exec (for_each tabs observe_tab) w)));
      [|by rewrite cleanupOldStats_clock].
    unfold monitoringTick, exec, mbind, M_bind.
    rewrite (run_unit (for_each tabs observe_tab)).
    by rewrite (run_unit cleanupOldStats).
Qed.

Lemma onDownloadCreated_downloadStats (item : DownloadItem.t) (w : World) :
  downloadStats (exec (onDownloadCreated item) w) =
  <[DownloadItem.id item :=
      DownloadRecord.mk (Some (DownloadItem.id item))
                        (DownloadItem.filename item) (DownloadItem.url item)
                        (DownloadItem.state item)
                        (Some (DownloadItem.bytesReceived item))
                        (DownloadItem.totalBytes item)
                        (Some (clock w (clockReads w))) None]>
    (downloadStats w).
Proof. reflexivity. Qed.

Lemma listener_stamped (e : Event) (w : World) :
  is_storage_event e = false →
  (∀ n, 0 < clock w n) →
  downloads_stamped (downloadStats w) →
  downloads_stamped (downloadStats (exec (listener e) w)).
Proof.
  intros Hstorage Hepoch Hstamped downloadId stats.
  destruct e as [tab|removed|updated status tab|item|delta|changes ns|[tabs|]];
    cbn [listener]; try done; try apply Hstamped.
  - unfold onTabUpdated. destruct (status_complete status); apply Hstamped.
  - rewrite onDownloadCreated_downloadStats, lookup_insert.
    case_decide; [|apply Hstamped].
    intros [= <-]. exists (clock w (clockReads w)). split; [done|apply Hepoch].
  - rewrite onDownloadChanged_exec, lookup_insert.
    case_decide; [|apply Hstamped].
    intros [= <-]. exists (clock w (clockReads w)). split; [|apply Hepoch].
    unfold Js.or. cbn.
    destruct (Z.eqb_spec (clock w (clockReads w)) 0) as [H0|_]; [|done].
    specialize (Hepoch (clockReads w)). lia.
  - destruct (monitoringTick_stores tabs w) as [_ Hdownloads].
    cbn zeta in Hdownloads. rewrite Hdownloads.
    destruct (downloadStats w !! downloadId) as [before|] eqn:Hbefore; [|done].
    destruct (download_expired _ before); [done|].
    intros [= <-]. by eapply Hstamped.
Qed.

(** X5. No tracked download escapes the staleness cleanup.  With the clock
    past the epoch, after any sequence of tab, download and timer
    notifications from the constructor's state, every tracked download has a
    time stamp [lastUpdated || createdAt], and [cleanupOldStats] removes the
    record from any store that holds it once the current time is more than
    24 hours past that stamp. *)
Theorem downloads_always_evictable
    (events : list Event) (clk : nat → Z) (rnd : nat → Q) :
  (∀ n, 0 < clk n) →
  Forall (λ e, is_storage_event e = false) events →
  let w := exec (for_each events listener) (initial clk rnd) in
  ∀ downloadId stats,
    downloadStats w !! downloadId = Some stats →
    ∃ seen,
      Js.or (DownloadRecord.lastUpdated stats) (DownloadRecord.createdAt stats)
        = Some seen ∧
      0 < seen ∧
      ∀ later,
        downloadStats later !! downloadId = Some stats →
        maxAge < clock later (clockReads later) - seen →
        downloadStats (exec cleanupOldStats later) !! downloadId = None.
Proof.
  intros Hepoch Hevents w.
  assert (Hstamped : downloads_stamped (downloadStats w)).
  { subst w.
    assert (Hinit : clock (initial clk rnd) = clk ∧
                    downloads_stamped (downloadStats (initial clk rnd))).
    { split; [done|]. intros downloadId stats. cbn. by rewrite lookup_empty. }
    revert Hinit. generalize (initial clk rnd).
    induction Hevents as [|e events He _ IH]; intros w [Hclock Hw]; [done|].
    rewrite run_cons. apply IH. split.
    - by rewrite listener_clock.
    - apply listener_stamped; [done| |done]. by rewrite Hclock. }
  intros downloadId stats Hget.
  destruct (Hstamped downloadId stats Hget) as (seen & Hseen & Hpositive).
  exists seen. split; [done|]. split; [done|].
  intros later Hlater Hold.
  destruct (cleanupOldStats_exec later) as [_ ->].
  rewrite (sweep_own_entries (download_expired _)), Hlater.
  unfold download_expired. rewrite Hseen. cbn.
  by destruct (Z.ltb_spec maxAge (clock later (clockReads later) - seen));
    [|lia].
Qed.

Lemma downloads_always_evictable_witness :
  let item :=
    DownloadItem.mk 5 (Some "a.zip") None (Some "in_progress") 0 (Some 200)
                    "2024-05-02T10:00:00.000Z" in
  let stats :=
    DownloadRecord.mk (Some 5) (Some "a.zip") None (Some "in_progress")
                      (Some 0) (Some 200) (Some 2000) None in
  let later :=
    set_downloadStats {[5 := stats]}
                      (initial (λ _, 2000 + maxAge + 1) (λ _, 1 # 2)) in
  downloadStats (exec cleanupOldStats later) !! 5 = None.
Proof.
  intros item stats later.
  destruct (downloads_always_evictable [DownloadCreatedEvent item]
              (λ _, 2000) (λ _, 1 # 2)
              ltac:(cbn; lia) ltac:(by repeat constructor) 5 stats)
    as (seen & Hseen & _ & Hevicted).
  - by vm_compute.
  - injection Hseen as <-. apply Hevicted.
    + subst later. cbn. by rewrite lookup_singleton_eq.
    + cbn. unfold maxAge. lia.
Defined.

(** ** Tab handlers *)

(** X6. [onTabUpdated] ignores every update whose status is not [complete]:
    the world is unchanged.  For a [complete] update it stores, under the tab
    id, the prior record (the empty object when the tab was untracked) with
    [id], [title] and [url] replaced by the update's and [lastUpdated] set to
    the current time, keeping [createdAt], [lastSeen] and the simulated
    metrics; no other tab and no download is touched. *)
Theorem onTabUpdated_merges
    (tabId : Z) (status : option string) (tab : Tab.t) (w : World) :
  let prior := default TabRecord.empty (tabStats w !! tabId) in
  let w' := exec (onTabUpdated tabId status tab) w in
  (status_complete status = false → w' = w) ∧
  (status_complete status = true →
   (∃ stats,
      tabStats w' !! tabId = Some stats ∧
      TabRecord.id stats = Some tabId ∧
      TabRecord.title stats = Tab.title tab ∧
      TabRecord.url stats = Tab.url tab ∧
      TabRecord.lastUpdated stats = Some (clock w (clockReads w)) ∧
      TabRecord.createdAt stats = TabRecord.createdAt prior ∧
      TabRecord.lastSeen stats = TabRecord.lastSeen prior ∧
      TabRecord.memoryUsage stats = TabRecord.memoryUsage prior ∧
      TabRecord.cpuUsage stats = TabRecord.cpuUsage prior) ∧
   (∀ other, other ≠ tabId → tabStats w' !! other = tabStats w !! other) ∧
   downloadStats w' = downloadStats w).
Proof.
  intros prior w'. split.
  - apply onTabUpdated_incomplete.
  - intros Hstatus. subst w'. rewrite onTabUpdated_complete by done.
    split; [|split].
    + eexists. rewrite onTabUpdated_tabStats, lookup_insert_eq.
      split; [reflexivity|]. by repeat split.
    + intros other Hne. rewrite onTabUpdated_tabStats.
      by rewrite lookup_insert_ne.
    + reflexivity.
Qed.

Lemma onTabUpdated_merges_witness :
  let loaded := Tab.mk 3 (Some "News") (Some "https://news.example") true in
  let w := initial (λ _, 2000) (λ _, 1 # 2) in
  ∃ stats,
    tabStats (exec (onTabUpdated 3 (Some "complete") loaded) w) !! 3
      = Some stats ∧
    TabRecord.title stats = Some "News" ∧
    TabRecord.lastUpdated stats = Some 2000 ∧
    TabRecord.createdAt stats = None.
Proof.
  intros loaded w.
  destruct (onTabUpdated_merges 3 (Some "complete") loaded w) as [_ Hcomplete].
  destruct (Hcomplete eq_refl)
    as ((stats & Hlookup & _ & Htitle & _ & Hupdated & Hcreated & _) & _).
  exists stats. by repeat split.
Defined.

Lemma exec_seq {A} (first : M unit) (second : M A) (w : World) :
  exec (first ;; second) w = exec second (exec first w).
Proof. unfold exec, mbind, M_bind. by rewrite (run_unit first). Qed.

(** X7. How the tab handlers compose.  Creating a tab and then removing it
    leaves the store as it was when the id was not tracked before.  Creating
    a tab and then completing a load keeps the [createdAt] of the creation,
    so the record has a time stamp for the staleness test.  Creating a tab
    whose id is already tracked replaces the record: [lastSeen] and
    [lastUpdated] are dropped and the metrics restart at 0. *)
Theorem tab_handlers_compose (tab loaded : Tab.t) (w : World) :
  (tabStats w !! Tab.id tab = None →
   tabStats (exec (onTabCreated tab ;; onTabRemoved (Tab.id tab)) w)
   = tabStats w) ∧
  (∃ stats,
     tabStats (exec (onTabCreated tab ;;
                     onTabUpdated (Tab.id tab) (Some "complete") loaded) w)
       !! Tab.id tab = Some stats ∧
     TabRecord.createdAt stats = Some (clock w (clockReads w)) ∧
     TabRecord.lastUpdated stats = Some (clock w (S (clockReads w))) ∧
     TabRecord.title stats = Tab.title loaded ∧
     ∀ now, tab_expired now stats
            = (maxAge <? now - clock w (clockReads w))) ∧
  tabStats (exec (onTabCreated tab) w) !! Tab.id tab =
    Some (TabRecord.mk (Some (Tab.id tab)) (Tab.title tab) (Tab.url tab)
                       (Some (clock w (clockReads w))) (Some 0%Q) (Some 0%Q)
                       None None).
Proof.
  split; [|split].
  - intros Hnone.
    rewrite exec_seq, onTabRemoved_tabStats, onTabCreated_tabStats.
    by apply delete_insert_id.
  - rewrite exec_seq, onTabUpdated_tabStats, lookup_insert_eq.
    rewrite onTabCreated_tabStats, lookup_insert_eq.
    eexists. split; [reflexivity|]. cbn. repeat split.
  - by rewrite onTabCreated_tabStats, lookup_insert_eq.
Qed.

Lemma tab_handlers_compose_witness :
  let mail := Tab.mk 1 (Some "Mail") None true in
  let w := initial (λ _, 2000) (λ _, 1 # 2) in
  tabStats (exec (onTabCreated mail ;; onTabRemoved 1) w) = tabStats w.
Proof.
  intros mail w.
  apply (proj1 (tab_handlers_compose mail mail w)). apply lookup_empty.
Defined.

(** ** Ranges of the formatted numbers *)

Lemma power_1024_positive (i : Z) : (0 < 1024 ^ i)%Q.
Proof. by apply Qpower_0_lt. Qed.

Lemma scaled_range (q : Q) :
  (0 < q)%Q →
  (1 <= q / 1024 ^ unit_index q)%Q ∧ (q / 1024 ^ unit_index q < 1024)%Q.
Proof.
  intros Hq. destruct (unit_index_bracket q Hq) as [Hlo Hhi].
  pose proof (power_1024_positive (unit_index q)) as Hpos. split.
  - apply Qle_shift_div_l; [done|]. by rewrite Qmult_1_l.
  - apply Qlt_shift_div_r; [done|].
    rewrite Qpower_plus in Hhi by done.
    by rewrite Qmult_comm.
Qed.

Lemma scaled_tenths_range (q : Q) :
  (0 < q)%Q → 10 <= tenths (q / 1024 ^ unit_index q) <= 10240.
Proof.
  intros Hq. destruct (scaled_range q Hq) as [Hlo Hhi].
  unfold tenths. set (x := (q / 1024 ^ unit_index q)%Q) in *.
  split.
  - apply Qfloor_ge.
    apply Qle_trans with (1 * 10 + (1 # 2))%Q; [by unfold Qle|].
    apply Qplus_le_l. by apply Qmult_le_compat_r.
  - apply Z.lt_succ_r. apply Qfloor_lt.
    apply Qlt_le_trans with (1024 * 10 + (1 # 2))%Q; [|by unfold Qle].
    apply Qplus_lt_l. by apply Qmult_lt_compat_r.
Qed.



Lemma integer_text_decimal (n : Z) :
  Z.abs n < 10 ^ 21 → integer_text n = pretty n.
Proof.
  intros Hn. unfold integer_text.
  by destruct (Z.ltb_spec (Z.abs n) (10 ^ 21)); [|lia].
Qed.

Lemma Qfloor_half_between (x : Q) (a b : Z) :
  (inject_Z a <= x)%Q → (x <= inject_Z b)%Q →
  a <= Qfloor (x + (1 # 2)) <= b.
Proof.
  intros Ha Hb. split.
  - apply Qfloor_ge. apply Qle_trans with x; [done|].
    rewrite <- (Qplus_0_r x) at 1. by apply Qplus_le_r.
  - apply Z.lt_succ_r, Qfloor_lt.
    apply Qle_lt_trans with (inject_Z b + (1 # 2))%Q; [by apply Qplus_le_l|].
    rewrite <- Z.add_1_r, inject_Z_plus. by apply Qplus_lt_r.
Qed.

(** The quotient of a finite number by a positive literal, when the exact
    quotient lies between two binary64 numbers. *)
Lemma number_div_between (q d a b : Q) :
  (0 < d)%Q → (a <= q / d)%Q → (q / d <= b)%Q →
  (- 2 ^ 1024 < Binary64.nearest a)%Q → (Binary64.nearest b < 2 ^ 1024)%Q →
  number_div (Js.Finite q) d = Js.Finite (Binary64.nearest (q / d)) ∧
  (Binary64.nearest a <= Binary64.nearest (q / d))%Q ∧
  (Binary64.nearest (q / d) <= Binary64.nearest b)%Q.
Proof.
  intros Hd Ha Hb Hlo Hhi.
  pose proof (nearest_mono _ _ Ha) as Hmono_a.
  pose proof (nearest_mono _ _ Hb) as Hmono_b.
  split; [|done]. unfold number_div, Binary64.div.
  destruct (Qeq_bool d 0) eqn:Hzero.
  { apply Qeq_bool_iff in Hzero. rewrite Hzero in Hd.
    by apply Qlt_irrefl in Hd. }
  apply round_finite.
  - by eapply Qlt_le_trans.
  - by eapply Qle_lt_trans.
Qed.



(** ** Reading a formatted speed back *)

Lemma list_ascii_of_append (a b : string) :
  list_ascii_of_string (a +:+ b)
  = list_ascii_of_string a ++ list_ascii_of_string b.
Proof.
  induction a as [|c a IH]; [by rewrite append_nil|].
  rewrite append_cons. cbn. by rewrite IH.
Qed.

Lemma pretty_N_char_digit (k : N) :
  (k < 10)%N →
  Regex.digit (pretty_N_char k) = true ∧
  Z.of_N (Regex.code (pretty_N_char k)) - 48 = Z.of_N k.
Proof.
  intros Hk.
  assert (Hcases : (k = 0 ∨ k = 1 ∨ k = 2 ∨ k = 3 ∨ k = 4 ∨ k = 5 ∨ k = 6
                    ∨ k = 7 ∨ k = 8 ∨ k = 9)%N) by lia.
  repeat (destruct Hcases as [->|Hcases]; [done|]). by subst.
Qed.

Lemma digits_value_snoc (ds : list ascii) (c : ascii) :
  digits_value (ds ++ [c])
  = 10 * digits_value ds + (Z.of_N (Regex.code c) - 48).
Proof. unfold digits_value. by rewrite foldl_app. Qed.

(** The text [pretty] builds consists of the decimal digits of the number. *)
Lemma pretty_N_go_digits (x : N) (s : string) :
  ∃ ds,
    list_ascii_of_string (pretty_N_go x s) = ds ++ list_ascii_of_string s ∧
    Forall (λ c, Regex.digit c = true) ds ∧
    digits_value ds = Z.of_N x ∧
    ((0 < x)%N → ds ≠ []).
Proof.
  revert s. induction (N.lt_wf_0 x) as [x _ IH]. intros s.
  destruct (N.eq_dec x 0%N) as [->|Hx].
  - exists []. rewrite pretty_N_go_0. repeat split; [done|lia].
  - rewrite pretty_N_go_step by lia.
    destruct (IH (x / 10)%N ltac:(apply N.div_lt; lia)
                 (String (pretty_N_char (x mod 10)) s))
      as (ds & Hds & Hdigits & Hvalue & _).
    destruct (pretty_N_char_digit (x mod 10)%N) as [Hdigit Hcode].
    { apply N.mod_lt. lia. }
    exists (ds ++ [pretty_N_char (x mod 10)]).
    split; [|split; [|split]].
    + rewrite Hds. cbn. by rewrite <- app_assoc.
    + apply Forall_app. split; [done|]. by constructor.
    + rewrite digits_value_snoc, Hvalue, Hcode.
      pose proof (N.div_mod' x 10). lia.
    + intros _. by destruct ds.
Qed.

Lemma pretty_digits (z : Z) :
  0 <= z →
  ∃ ds,
    list_ascii_of_string (pretty z) = ds ∧
    Forall (λ c, Regex.digit c = true) ds ∧
    digits_value ds = z ∧ ds ≠ [].
Proof.
  intros Hz. destruct z as [|p|p]; [|clear Hz|lia].
  - exists ["0"%char]. repeat split; [|done]. by repeat constructor.
  - unfold pretty, pretty_Z, pretty, pretty_positive, pretty, pretty_N.
    rewrite decide_False by done.
    destruct (pretty_N_go_digits (N.pos p) EmptyString)
      as (ds & Hds & Hdigits & Hvalue & Hne).
    exists ds. cbn in Hds. rewrite app_nil_r in Hds.
    repeat split; [done..|]. by apply Hne.
Qed.

Lemma pretty_one_digit (k : Z) :
  0 <= k < 10 →
  ∃ d, list_ascii_of_string (pretty k) = [d] ∧ Regex.digit d = true ∧
       Z.of_N (Regex.code d) - 48 = k.
Proof.
  intros Hk.
  assert (Hcases : k = 0 ∨ k = 1 ∨ k = 2 ∨ k = 3 ∨ k = 4 ∨ k = 5 ∨ k = 6
                   ∨ k = 7 ∨ k = 8 ∨ k = 9) by lia.
  repeat (destruct Hcases as [->|Hcases]; [by eexists|]).
  subst. by eexists.
Qed.

Lemma star_longest (p : ascii → bool) (a b : list ascii) :
  Forall (λ c, p c = true) a →
  match b with
  | c :: _ => p c = false
  | [] => True
  end →
  ∃ shorter, Regex.star p (a ++ b) = (a, b) :: shorter.
Proof.
  intros Ha Hb. induction Ha as [|c a Hc _ (shorter & IH)]; cbn.
  - destruct b as [|c b]; cbn; [by eexists|]. rewrite Hb. by eexists.
  - rewrite Hc, IH. cbn. by eexists.
Qed.

Lemma plus_longest (p : ascii → bool) (a b : list ascii) :
  Forall (λ c, p c = true) a → a ≠ [] →
  match b with
  | c :: _ => p c = false
  | [] => True
  end →
  ∃ shorter, Regex.plus p (a ++ b) = (a, b) :: shorter.
Proof.
  intros Ha Hne Hb. destruct (star_longest p a b Ha Hb) as (shorter & Hstar).
  unfold Regex.plus. rewrite Hstar. cbn.
  destruct a; [done|]. cbn. by eexists.
Qed.

Lemma leading_digits_app (ds tail : list ascii) :
  Forall (λ c, Regex.digit c = true) ds →
  match tail with
  | c :: _ => Regex.digit c = false
  | [] => True
  end →
  leading_digits (ds ++ tail) = (ds, tail).
Proof.
  intros Hds Htail. induction Hds as [|c ds Hc _ IH]; cbn.
  - destruct tail as [|c tail]; cbn; [done|]. by rewrite Htail.
  - by rewrite Hc, IH.
Qed.

(** The five texts [sizes[i]] can contribute to a speed. *)
Lemma unit_text_cases (i : Z) :
  to_string (sizes_at i) = "B" ∧ i = 0 ∨
  to_string (sizes_at i) = "KB" ∧ i = 1 ∨
  to_string (sizes_at i) = "MB" ∧ i = 2 ∨
  to_string (sizes_at i) = "GB" ∧ i = 3 ∨
  to_string (sizes_at i) = "undefined" ∧ (i < 0 ∨ 4 <= i).
Proof.
  unfold sizes_at. destruct (Z.ltb_spec i 0) as [Hneg|Hpos].
  - right; right; right; right. split; [done|by left].
  - destruct (Z.le_gt_cases 4 i) as [Hbig|Hsmall].
    + right; right; right; right. split; [|by right].
      by rewrite (proj2 (lookup_ge_None sizes (Z.to_nat i))) by (cbn; lia).
    + assert (Hi : i = 0 ∨ i = 1 ∨ i = 2 ∨ i = 3) by lia.
      destruct Hi as [-> | [-> | [-> | ->]]]; cbn; tauto.
Qed.

Lemma search_head (l : list ascii) (m : list ascii * list ascii)
    (others : list (list ascii * list ascii)) :
  Regex.matches_here l = m :: others → Regex.search l = Some m.
Proof. intros H. destruct l; cbn [Regex.search]; by rewrite H. Qed.

(** Evaluates the character-class tests on literal characters. *)
Ltac eval_class :=
  repeat match goal with
  | |- context [Regex.digit ?c] =>
      let b := eval vm_compute in (Regex.digit c) in
      match b with true => idtac | false => idtac end;
      change (Regex.digit c) with b
  | |- context [Regex.space ?c] =>
      let b := eval vm_compute in (Regex.space c) in
      match b with true => idtac | false => idtac end;
      change (Regex.space c) with b
  | |- context [Regex.word ?c] =>
      let b := eval vm_compute in (Regex.word c) in
      match b with true => idtac | false => idtac end;
      change (Regex.word c) with b
  end.

(** The pattern applied to [digits], an optional [.digit], a space, one of
    the five unit texts and [/s]. *)
Lemma match_formatted (ds fraction : list ascii) (unit : string) :
  Forall (λ c, Regex.digit c = true) ds → ds ≠ [] →
  (fraction = [] ∨
   ∃ d, fraction = ["."%char; d] ∧ Regex.digit d = true) →
  unit ∈ ["B"; "KB"; "MB"; "GB"; "undefined"] →
  Regex.search
    (ds ++ fraction ++ " "%char :: list_ascii_of_string unit
        ++ ["/"%char; "s"%char])
  = Some (ds ++ fraction, list_ascii_of_string unit).
Proof.
  intros Hds Hne Hfraction Hunit.
  assert (Hhead :
    match fraction ++ " "%char :: list_ascii_of_string unit
                   ++ ["/"%char; "s"%char] with
    | c :: _ => Regex.digit c = false
    | [] => True
    end).
  { by destruct Hfraction as [->|(d & -> & _)]. }
  destruct (plus_longest Regex.digit ds _ Hds Hne Hhead) as (shorter & Hplus).
  assert (Hhere : ∃ others,
    Regex.matches_here
      (ds ++ fraction ++ " "%char :: list_ascii_of_string unit
          ++ ["/"%char; "s"%char])
    = (ds ++ fraction, list_ascii_of_string unit) :: others).
  { unfold Regex.matches_here. rewrite Hplus.
    repeat (apply elem_of_cons in Hunit as [->|Hunit]);
      [..|by apply elem_of_nil in Hunit];
      destruct Hfraction as [->|(d & -> & Hd)];
      repeat (progress (cbn; rewrite ?Hd; eval_class));
      eexists; reflexivity. }
  destruct Hhere as (others & Hhere). by apply (search_head _ _ others).
Qed.

(** The text of a number of tenths: digits, then nothing or a dot and one
    digit. *)
Lemma show_tenths_shape (n : Z) :
  0 <= n →
  ∃ ds fraction,
    list_ascii_of_string (show_tenths n) = ds ++ fraction ∧
    Forall (λ c, Regex.digit c = true) ds ∧ ds ≠ [] ∧
    digits_value ds = n / 10 ∧
    (fraction = [] ∧ n mod 10 = 0 ∨
     ∃ d, fraction = ["."%char; d] ∧ Regex.digit d = true ∧
          Z.of_N (Regex.code d) - 48 = n mod 10).
Proof.
  intros Hn.
  destruct (pretty_digits (n / 10)) as (ds & Hds & Hdigits & Hvalue & Hne).
  { by apply Z.div_pos. }
  unfold show_tenths. rewrite list_ascii_of_append, Hds.
  destruct (Z.eqb_spec (n mod 10) 0) as [Hzero|Hnonzero].
  - exists ds, []. repeat split; [done..|]. by left.
  - destruct (pretty_one_digit (n mod 10)) as (d & Hd & Hdigit & Hcode).
    { by apply Z.mod_pos_bound. }
    exists ds, ["."%char; d]. rewrite list_ascii_of_append, Hd.
    repeat split; [done..|]. right. by exists d.
Qed.

(** [parseFloat] reads the text of a number of tenths back. *)
Lemma parseFloat_show_tenths (n : Z) :
  0 <= n → (parseFloat (show_tenths n) == inject_Z n / 10)%Q.
Proof.
  intros Hn.
  destruct (show_tenths_shape n Hn)
    as (ds & fraction & Htext & Hdigits & _ & Hvalue & Hfraction).
  unfold parseFloat. rewrite Htext.
  pose proof (Z.div_mod n 10 ltac:(done)) as Hsplit.
  destruct Hfraction as [[-> Hzero]|(d & -> & Hd & Hcode)].
  - rewrite app_nil_r.
    replace ds with (ds ++ []) by apply app_nil_r.
    rewrite leading_digits_app by done. rewrite Hvalue.
    rewrite Hsplit at 2. rewrite Hzero, Z.add_0_r, inject_Z_mult. field.
  - rewrite leading_digits_app by done.
    cbn [leading_digits]. rewrite Hd. cbn [fst length].
    replace (digits_value [d]) with (n mod 10)
      by (unfold digits_value; cbn; lia).
    rewrite Hvalue. rewrite Hsplit at 3.
    rewrite inject_Z_plus, inject_Z_mult.
    change (inject_Z (10 ^ Z.of_nat 1)) with (inject_Z 10). field.
Qed.

(** The pattern of [calculateTimeRemaining] applied to a formatted speed. *)
Lemma match_speed_formatted (n : Z) (unit : string) :
  0 <= n →
  unit ∈ ["B"; "KB"; "MB"; "GB"; "undefined"] →
  Regex.match_speed (show_tenths n +:+ " " +:+ unit +:+ "/s")
  = Some (show_tenths n, unit).
Proof.
  intros Hn Hunit.
  destruct (show_tenths_shape n Hn)
    as (ds & fraction & Htext & Hdigits & Hne & _ & Hfraction).
  unfold Regex.match_speed.
  rewrite !list_ascii_of_append, Htext, <- app_assoc.
  change (list_ascii_of_string " ") with [" "%char].
  change (list_ascii_of_string "/s") with ["/"%char; "s"%char].
  cbn [app].
  rewrite (match_formatted ds fraction unit Hdigits Hne); [|
    destruct Hfraction as [[-> _]|(d & -> & Hd & _)]; [by left|right; by exists d] |
    done].
  by rewrite <- Htext, !string_of_list_ascii_of_string.
Qed.

Lemma append_assoc (a b c : string) : (a +:+ b) +:+ c = a +:+ b +:+ c.
Proof.
  induction a as [|x a IH]; [by rewrite !append_nil|].
  by rewrite !append_cons, IH.
Qed.

Lemma unit_factor_cases (i : Z) :
  unit_factor (to_string (sizes_at i)) =
  match i with
  | 1 => 1024%Q
  | 2 => (1024 * 1024)%Q
  | 3 => (1024 * 1024 * 1024)%Q
  | _ => 1%Q
  end.
Proof.
  destruct (unit_text_cases i)
    as [[-> ->]|[[-> ->]|[[-> ->]|[[-> ->]|[-> Hout]]]]]; try reflexivity.
  destruct i as [|p|p]; try reflexivity.
  destruct p as [[p|p|]|[p|p|]|]; try reflexivity; lia.
Qed.

Lemma unit_text_known (i : Z) :
  to_string (sizes_at i) ∈ ["B"; "KB"; "MB"; "GB"; "undefined"].
Proof.
  destruct (unit_text_cases i)
    as [[-> _]|[[-> _]|[[-> _]|[[-> _]|[-> _]]]]];
    repeat first [apply list_elem_of_here | apply list_elem_of_further].
Qed.

Lemma formatted_speed_match (q : Q) :
  (0 < q)%Q →
  Regex.match_speed (formatBytes (Js.Finite q) +:+ "/s")
  = Some (mantissa q, to_string (sizes_at (unit_index q))).
Proof.
  intros Hq. rewrite formatBytes_positive by done.
  rewrite !append_assoc. unfold mantissa.
  apply match_speed_formatted; [|apply unit_text_known].
  pose proof (scaled_tenths_range q Hq). lia.
Qed.

(** X10. A speed printed by [formatBytes] and followed by [/s] is read back
    by the pattern of [calculateTimeRemaining] as the printed number and the
    printed unit; [parseFloat] of the number is the rounded number of tenths;
    and the [switch] gives the factor of the unit, which is 1 for [B] and
    also for [undefined], the unit of speeds below 1 or from [1024^4] on. *)
Theorem formatted_speed_read_back (q : Q) :
  (0 < q)%Q →
  let n := tenths (q / 1024 ^ unit_index q) in
  let unit := to_string (sizes_at (unit_index q)) in
  Regex.match_speed (formatBytes (Js.Finite q) +:+ "/s")
    = Some (show_tenths n, unit) ∧
  (parseFloat (show_tenths n) == inject_Z n / 10)%Q ∧
  unit_factor unit =
    match unit_index q with
    | 1 => 1024%Q
    | 2 => (1024 * 1024)%Q
    | 3 => (1024 * 1024 * 1024)%Q
    | _ => 1%Q
    end.
Proof.
  intros Hq n unit. pose proof (scaled_tenths_range q Hq) as Hrange.
  split; [by apply formatted_speed_match|].
  split; [apply parseFloat_show_tenths; subst n; lia|].
  apply unit_factor_cases.
Qed.

Lemma formatted_speed_read_back_witness :
  Regex.match_speed (formatBytes (Js.Finite 1536) +:+ "/s")
    = Some ("1.5", "KB") ∧
  Regex.match_speed (formatBytes (Js.Finite (1 # 2)) +:+ "/s")
    = Some ("512", "undefined").
Proof.
  split.
  - exact (proj1 (formatted_speed_read_back 1536 eq_refl)).
  - exact (proj1 (formatted_speed_read_back (1 # 2) eq_refl)).
Defined.

Lemma unit_factor_at_least_1 (unit : string) : (1 <= unit_factor unit)%Q.
Proof.
  unfold unit_factor.
  repeat (match goal with |- context [if ?b then _ else _] => destruct b end);
    by unfold Qle.
Qed.

(** The number for an integer between two binary64 integers. *)
Lemma of_Z_between (z a b : Z) :
  a <= z <= b →
  (- 2 ^ 1024 < Binary64.nearest (inject_Z a))%Q →
  (Binary64.nearest (inject_Z b) < 2 ^ 1024)%Q →
  ∃ r, Binary64.of_Z z = Js.Finite r ∧
       (Binary64.nearest (inject_Z a) <= r)%Q ∧
       (r <= Binary64.nearest (inject_Z b))%Q.
Proof.
  intros [Ha Hb] Hlo Hhi. apply round_between; [| |done..].
  - by rewrite <- Zle_Qle.
  - by rewrite <- Zle_Qle.
Qed.

(** The measured speed of a download that has received something, over an
    elapsed time of at least a second: a positive finite number. *)
Lemma measured_speed (received elapsed : Z) :
  0 < received <= 2 ^ 53 → 1000 <= elapsed <= 2 ^ 53 →
  ∃ seconds speed,
    Binary64.div (Binary64.of_Z elapsed) (Js.Finite 1000)
      = Js.Finite seconds ∧
    (1 <= seconds)%Q ∧
    Binary64.div (Binary64.of_Z received) (Js.Finite seconds)
      = Js.Finite speed ∧
    (0 < speed)%Q.
Proof.
  intros Hreceived Helapsed.
  destruct (of_Z_between elapsed 1000 (2 ^ 53)) as (e & -> & He_lo & He_hi);
    [lia|done|done|].
  change (Binary64.nearest (inject_Z 1000)) with 1000%Q in He_lo.
  change (Binary64.nearest (inject_Z (2 ^ 53))) with (inject_Z (2 ^ 53))
    in He_hi.
  destruct (number_div_between e 1000 1 (inject_Z (2 ^ 53)))
    as (Hseconds & Hs_lo & Hs_hi); [done| | |done|done|].
  { apply Qle_shift_div_l; [done|]. by rewrite Qmult_1_l. }
  { apply Qle_shift_div_r; [done|].
    eapply Qle_trans; [exact He_hi|]. by unfold Qle. }
  change (Binary64.nearest 1) with 1%Q in Hs_lo.
  change (Binary64.nearest (inject_Z (2 ^ 53))) with (inject_Z (2 ^ 53))
    in Hs_hi.
  set (seconds := Binary64.nearest (e / 1000)) in *.
  assert (Hpositive : (0 < seconds)%Q) by by apply Qlt_le_trans with 1%Q.
  exists seconds. unfold number_div in Hseconds.
  destruct (of_Z_between received 1 (2 ^ 53)) as (r & -> & Hr_lo & Hr_hi);
    [lia|done|done|].
  change (Binary64.nearest (inject_Z 1)) with 1%Q in Hr_lo.
  change (Binary64.nearest (inject_Z (2 ^ 53))) with (inject_Z (2 ^ 53))
    in Hr_hi.
  destruct (number_div_between r seconds (2 ^ (-53)) (inject_Z (2 ^ 53)))
    as (Hspeed & Hv_lo & _); [done| | |done|done|].
  { apply Qle_shift_div_l; [done|].
    apply Qle_trans with (2 ^ (-53) * inject_Z (2 ^ 53))%Q.
    - apply Qmult_le_l; [done|done].
    - eapply Qle_trans; [|exact Hr_lo]. by unfold Qle. }
  { apply Qle_shift_div_r; [done|].
    apply Qle_trans with (inject_Z (2 ^ 53) * 1)%Q.
    - rewrite Qmult_1_r. exact Hr_hi.
    - by apply Qmult_le_l. }
  exists (Binary64.nearest (r / seconds)).
  split; [done|]. split; [done|]. split; [exact Hspeed|].
  eapply Qlt_le_trans; [|exact Hv_lo]. done.
Qed.

(** The rate read back from a printed speed: at least one byte per second. *)
Lemma printed_rate (n : Z) (unit : string) :
  10 <= n <= 10240 →
  number_ge (Binary64.mul (Binary64.round (inject_Z n / 10))
                          (Js.Finite (unit_factor unit))) 1 = true.
Proof.
  intros Hn.
  destruct (round_between (inject_Z n / 10) 1 1024) as (v & -> & Hv & _);
    [| |done|done|].
  { apply Qle_shift_div_l; [done|].
    change (1 * 10)%Q with (inject_Z 10). rewrite <- Zle_Qle. lia. }
  { apply Qle_shift_div_r; [done|].
    change (1024 * 10)%Q with (inject_Z 10240). rewrite <- Zle_Qle. lia. }
  change (Binary64.nearest 1) with 1%Q in Hv.
  cbn [Binary64.mul].
  change (number_ge (Binary64.round (v * unit_factor unit))
                    (Binary64.nearest 1) = true).
  apply round_ge; [|done].
  pose proof (unit_factor_at_least_1 unit) as Hfactor.
  apply Qle_trans with (1 * unit_factor unit)%Q.
  - by rewrite Qmult_1_l.
  - apply Qmult_le_compat_r; [done|]. by apply Qle_trans with 1%Q.
Qed.



(** ** The queries only read *)

Lemma exec_bind {A B} (m : M A) (f : A → M B) (w : World) :
  exec (m ≫= f) w = exec (f (eval m w)) (exec m w).
Proof. unfold exec, eval, mbind, M_bind. by destruct (m w). Qed.

Lemma eval_bind {A B} (m : M A) (f : A → M B) (w : World) :
  eval (m ≫= f) w = eval (f (eval m w)) (exec m w).
Proof. unfold exec, eval, mbind, M_bind. by destruct (m w). Qed.

Lemma read_only_ret {A} (a : A) : read_only (mret a).
Proof. by intros w. Qed.

Lemma read_only_bind {A B} (m : M A) (f : A → M B) :
  read_only m → (∀ a, read_only (f a)) → read_only (m ≫= f).
Proof.
  intros Hm Hf w. rewrite exec_bind.
  destruct (Hm w) as (Ht & Hd & Hs & Hc & Hr).
  destruct (Hf (eval m w) (exec m w)) as (Ht' & Hd' & Hs' & Hc' & Hr').
  by rewrite Ht', Hd', Hs', Hc', Hr'.
Qed.

Lemma read_only_gets {A} (f : World → A) : read_only (gets f).
Proof. by intros w. Qed.

Lemma read_only_Date_now : read_only Date_now.
Proof. by intros w. Qed.

Lemma read_only_Math_random : read_only Math_random.
Proof. by intros w. Qed.

Create HintDb read_only.
#[local] Hint Resolve read_only_gets read_only_Date_now read_only_Math_random
  : read_only.

Ltac read_only_step :=
  lazymatch goal with
  | |- read_only (mret _) => apply read_only_ret
  | |- read_only (_ ≫= _) => apply read_only_bind; [|intros ?]
  | |- read_only (match ?x with _ => _ end) => destruct x
  end.

Ltac solve_read_only :=
  repeat first [solve [auto with read_only nocore] | read_only_step].

Lemma read_only_calculateDownloadSpeed (downloadId : Z) :
  read_only (calculateDownloadSpeed downloadId).
Proof. unfold calculateDownloadSpeed. solve_read_only. Qed.
#[local] Hint Resolve read_only_calculateDownloadSpeed : read_only.

Lemma read_only_calculateTimeRemaining (downloadId : Z) :
  read_only (calculateTimeRemaining downloadId).
Proof. unfold calculateTimeRemaining. solve_read_only. Qed.
#[local] Hint Resolve read_only_calculateTimeRemaining : read_only.

Lemma read_only_enhance_all (downloads : list DownloadItem.t) :
  read_only (enhance_all downloads).
Proof.
  induction downloads as [|download rest IH]; cbn [enhance_all];
    unfold enhance; solve_read_only.
Qed.
#[local] Hint Resolve read_only_enhance_all : read_only.

Lemma read_only_getEnhancedDownloadStats {collation : Collation}
    (downloads : list DownloadItem.t) :
  read_only (getEnhancedDownloadStats downloads).
Proof. unfold getEnhancedDownloadStats. solve_read_only. Qed.
#[local] Hint Resolve read_only_getEnhancedDownloadStats : read_only.

Lemma read_only_measure_tab (processes : Processes) (tab : Tab.t) :
  read_only (measure_tab processes tab).
Proof. unfold measure_tab. solve_read_only. Qed.
#[local] Hint Resolve read_only_measure_tab : read_only.

Lemma read_only_enhance_tab (processes : Processes) (tab : Tab.t) :
  read_only (enhance_tab processes tab).
Proof. unfold enhance_tab. solve_read_only. Qed.
#[local] Hint Resolve read_only_enhance_tab : read_only.

Lemma read_only_getEnhancedTabStats (processes : Processes)
    (tabs : list Tab.t) :
  read_only (getEnhancedTabStats processes tabs).
Proof.
  induction tabs as [|tab rest IH]; cbn [getEnhancedTabStats]; solve_read_only.
Qed.
#[local] Hint Resolve read_only_getEnhancedTabStats : read_only.

Lemma read_only_getSystemStats (host : SystemHost.t) :
  read_only (getSystemStats host).
Proof.
  unfold getSystemStats, estimate_cpu, simulated_stats. solve_read_only.
Qed.
#[local] Hint Resolve read_only_getSystemStats : read_only.

Lemma read_only_handleMessage {collation : Collation}
    (host : MessageHost.t) (request : Request.t) :
  read_only (handleMessage host request).
Proof. unfold handleMessage. solve_read_only. Qed.

(** ** Messages *)

Lemma acknowledge_shape (call : settled unit) :
  (Response.success (acknowledge call) = true →
   Response.error (acknowledge call) = None) ∧
  (Response.success (acknowledge call) = false →
   Response.data (acknowledge call) = None).
Proof. by destruct call. Qed.

Lemma focus_tab_shape (host : MessageHost.t) (tabId : option Z) :
  (Response.success (focus_tab host tabId) = true →
   Response.error (focus_tab host tabId) = None) ∧
  (Response.success (focus_tab host tabId) = false →
   Response.data (focus_tab host tabId) = None).
Proof.
  unfold focus_tab.
  destruct (MessageHost.tabs_update host tabId); [|done].
  destruct (MessageHost.tabs_get host tabId); [|done].
  apply acknowledge_shape.
Qed.

Lemma handleMessage_shape {collation : Collation}
    (host : MessageHost.t) (request : Request.t) (w : World) :
  let response := eval (handleMessage host request) w in
  (Response.success response = true → Response.error response = None) ∧
  (Response.success response = false → Response.data response = None).
Proof.
  unfold handleMessage.
  destruct (Request.action request) as [action|]; [|done].
  repeat match goal with
         | |- context [String.eqb action ?a] => destruct (String.eqb action a)
         end;
    try apply acknowledge_shape; try apply focus_tab_shape; try done.
  - destruct (MessageHost.tabs_query host); [|done]. by rewrite eval_bind.
  - destruct (MessageHost.downloads_search host); [|done].
    by rewrite eval_bind.
  - by rewrite eval_bind.
Qed.

Lemma handleMessage_unknown {collation : Collation}
    (host : MessageHost.t) (request : Request.t) :
  (∀ action, Request.action request = Some action → action ∉ known_actions) →
  handleMessage host request = mret (Response.failure (Some "Unknown action")).
Proof.
  intros Hunknown. unfold handleMessage.
  destruct (Request.action request) as [action|]; [|done].
  specialize (Hunknown action eq_refl).
  repeat match goal with
         | |- context [String.eqb action ?a] =>
             destruct (String.eqb_spec action a) as [->|_]
         end; try done;
    exfalso; apply Hunknown; unfold known_actions;
    repeat first [apply list_elem_of_here | apply list_elem_of_further].
Qed.

(** X12. Answering a message never changes what the manager tracks or has
    stored: both maps and the stored copies are as before.  A response that
    reports success carries no error and one that reports failure carries no
    data.  A request whose action is missing or is none of the eight known
    ones is answered with the failure [Unknown action] and changes nothing at
    all.  A request for the system statistics always succeeds, because
    [getSystemStats] handles its own rejections. *)
Theorem handleMessage_answers {collation : Collation}
    (host : MessageHost.t) (request : Request.t) (w : World) :
  let response := eval (handleMessage host request) w in
  let w' := exec (handleMessage host request) w in
  (tabStats w' = tabStats w ∧ downloadStats w' = downloadStats w ∧
   localStorage w' = localStorage w) ∧
  (Response.success response = true → Response.error response = None) ∧
  (Response.success response = false → Response.data response = None) ∧
  ((∀ action, Request.action request = Some action →
              action ∉ known_actions) →
   response = Response.failure (Some "Unknown action") ∧ w' = w) ∧
  (Request.action request = Some "getSystemStats" →
   Response.success response = true ∧ is_Some (Response.data response)).
Proof.
  intros response w'.
  destruct (read_only_handleMessage host request w) as (Ht & Hd & Hs & _).
  destruct (handleMessage_shape host request w) as [Hok Hfail].
  split; [done|]. split; [done|]. split; [done|]. split.
  - intros Hunknown. subst response w'.
    by rewrite handleMessage_unknown.
  - intros Haction. subst response. unfold handleMessage.
    rewrite Haction. cbn. by rewrite eval_bind.
Qed.

Lemma handleMessage_answers_witness :
  let host :=
    MessageHost.mk (Failed (Some "No tabs")) None (Fulfilled [])
                   (SystemHost.mk None Js.Rejected Js.Rejected None)
                   (λ _, Fulfilled tt) (λ _, Fulfilled tt)
                   (λ _, Fulfilled None) (λ _, Fulfilled tt)
                   (λ _, Fulfilled tt) (λ _, Fulfilled tt)
                   (λ _, Fulfilled tt) in
  let w := initial (λ _, 2000) (λ _, 1 # 2) in
  eval (handleMessage (collation := codeunit_compare) host
          (Request.mk (Some "reloadTab") (Some 4) None)) w
  = Response.failure (Some "Unknown action") ∧
  Response.success
    (eval (handleMessage (collation := codeunit_compare) host
             (Request.mk (Some "getSystemStats") None None)) w) = true.
Proof.
  intros host w. split.
  - apply (handleMessage_answers (collation := codeunit_compare) host
             (Request.mk (Some "reloadTab") (Some 4) None) w).
    intros action [= <-]. unfold known_actions.
    rewrite !elem_of_cons, elem_of_nil. intros H.
    repeat (destruct H as [H|H]; [discriminate|]). done.
  - by apply (handleMessage_answers (collation := codeunit_compare) host
                (Request.mk (Some "getSystemStats") None None) w).
Defined.

(** ** The memory figure of the system statistics *)

Lemma simulated_memory_bounds (r : Q) :
  (0 <= r)%Q → (r < 1)%Q → 30 <= Qfloor (r * 40 + 30) <= 69.
Proof.
  intros H0 H1. split.
  - apply Qfloor_ge. unfold Qle in *; cbn in *. lia.
  - apply Z.lt_succ_r. apply Qfloor_lt. unfold Qlt in *; cbn in *. lia.
Qed.

(** The figure [Math.round((usedMemory / capacity) * 100)]: a whole
    percentage, within one half and [2^-45] of the exact share. *)
Lemma memory_figure (capacity available : Z) :
  0 < capacity <= 2 ^ 53 → 0 <= available <= capacity →
  let share :=
    (inject_Z (capacity - available) / inject_Z capacity * 100)%Q in
  ∃ percent,
    number_round (number_percent
      (Binary64.div (Binary64.of_Z (capacity - available))
                    (Binary64.of_Z capacity)))
    = Js.Finite (inject_Z percent) ∧
    0 <= percent <= 100 ∧
    (share - (1 # 2) - 2 ^ (-45) <= inject_Z percent)%Q ∧
    (inject_Z percent <= share + (1 # 2) + 2 ^ (-45))%Q.
Proof.
  intros Hcapacity Havailable share.
  pose proof (nearest_integer capacity ltac:(lia)) as Hc_exact.
  pose proof (nearest_integer (capacity - available) ltac:(lia)) as Hu_exact.
  assert (Hcap : (1 <= inject_Z capacity)%Q).
  { change 1%Q with (inject_Z 1). rewrite <- Zle_Qle. lia. }
  assert (Hcap_hi : (inject_Z capacity <= inject_Z (2 ^ 53))%Q).
  { rewrite <- Zle_Qle. lia. }
  assert (Hused_lo : (0 <= inject_Z (capacity - available))%Q).
  { change 0%Q with (inject_Z 0). rewrite <- Zle_Qle. lia. }
  assert (Hused_hi :
    (inject_Z (capacity - available) <= inject_Z capacity)%Q).
  { rewrite <- Zle_Qle. lia. }
  assert (Hlarge : (inject_Z (2 ^ 53) < 2 ^ 1024)%Q) by done.
  assert (Hsmall : (- 2 ^ 1024 < 0)%Q) by done.
  assert (Hc : Binary64.of_Z capacity
               = Js.Finite (Binary64.nearest (inject_Z capacity))).
  { apply round_finite; lra. }
  assert (Hu : Binary64.of_Z (capacity - available)
               = Js.Finite (Binary64.nearest
                              (inject_Z (capacity - available)))).
  { apply round_finite; lra. }
  rewrite Hu, Hc.
  set (c := Binary64.nearest (inject_Z capacity)) in *.
  set (u := Binary64.nearest (inject_Z (capacity - available))) in *.
  assert (Hratio_exact :
    (u / c == inject_Z (capacity - available) / inject_Z capacity)%Q).
  { by rewrite Hu_exact, Hc_exact. }
  set (r := (inject_Z (capacity - available) / inject_Z capacity)%Q) in *.
  assert (Hr : (0 <= r)%Q ∧ (r <= 1)%Q).
  { split.
    - apply Qle_shift_div_l; lra.
    - apply Qle_shift_div_r; lra. }
  destruct Hr as [Hr_lo Hr_hi].
  destruct (number_div_between u c 0 1) as (Hratio & Hp_lo & Hp_hi);
    [lra|lra|lra|done|done|].
  unfold number_div in Hratio. rewrite Hratio.
  change (Binary64.nearest 0) with 0%Q in Hp_lo.
  change (Binary64.nearest 1) with 1%Q in Hp_hi.
  destruct (nearest_error (u / c) 1) as [Hp_err_lo Hp_err_hi];
    [lra| |lia|].
  { change (2 ^ 1)%Q with 2%Q. lra. }
  change (2 ^ (1 - 54))%Q with (1 # 9007199254740992)%Q
    in Hp_err_lo, Hp_err_hi.
  set (p := Binary64.nearest (u / c)) in *.
  unfold number_percent. cbn [Binary64.mul].
  destruct (round_between (p * 100) 0 100) as (x & Hx & Hx_lo & Hx_hi);
    [lra|lra|done|done|].
  change (Binary64.nearest 0) with 0%Q in Hx_lo.
  change (Binary64.nearest 100) with 100%Q in Hx_hi.
  assert (Hx_value : x = Binary64.nearest (p * 100)).
  { rewrite round_finite in Hx.
    - by injection Hx as <-.
    - apply Qlt_le_trans with 0%Q; [done|].
      apply nearest_sign. lra.
    - apply Qle_lt_trans with (Binary64.nearest 100); [|done].
      apply nearest_mono. lra. }
  destruct (nearest_error (p * 100) 7) as [Hx_err_lo Hx_err_hi];
    [lra| |lia|].
  { change (2 ^ 7)%Q with 128%Q. lra. }
  change (2 ^ (7 - 54))%Q with (1 # 140737488355328)%Q
    in Hx_err_lo, Hx_err_hi.
  rewrite <- Hx_value in Hx_err_lo, Hx_err_hi.
  rewrite Hx. cbn [number_round].
  exists (Qfloor (x + (1 # 2))). split; [reflexivity|].
  split; [by apply Qfloor_half_between|].
  pose proof (Qfloor_le (x + (1 # 2))) as Hfloor_lo.
  pose proof (Qlt_floor (x + (1 # 2))) as Hfloor_hi.
  rewrite inject_Z_plus in Hfloor_hi.
  change (inject_Z 1) with 1%Q in Hfloor_hi.
  change (2 ^ (-45))%Q with (1 # 35184372088832)%Q.
  subst share. fold r. split; lra.
Qed.

Lemma memory_figure_without_capacity (available : Z) (q : Q) :
  number_round (number_percent
    (Binary64.div (Binary64.of_Z (0 - available)) (Binary64.of_Z 0)))
  ≠ Js.Finite q.
Proof.
  change (Binary64.of_Z 0) with (Js.Finite 0).
  destruct (Binary64.of_Z (0 - available)) as [|negative|x];
    cbn [Binary64.div]; [done|done|].
  change (Qeq_bool 0 0) with true. cbv iota.
  by destruct (Qeq_bool x 0).
Qed.



(** ** The enhanced tab listing *)

Lemma simulated_tab_memory_bounds (r : Q) :
  (0 <= r)%Q → (r < 1)%Q → 20 <= Qfloor (r * 100 + 20) <= 119.
Proof.
  intros H0 H1. split.
  - apply Qfloor_ge. unfold Qle in *; cbn in *. lia.
  - apply Z.lt_succ_r. apply Qfloor_lt. unfold Qlt in *; cbn in *. lia.
Qed.

Lemma simulated_tab_cpu_bounds (r : Q) :
  (0 <= r)%Q → (r < 1)%Q → 0 <= Qfloor (r * 15) <= 14.
Proof.
  intros H0 H1. split.
  - apply Qfloor_ge. unfold Qle in *; cbn in *. lia.
  - apply Z.lt_succ_r. apply Qfloor_lt. unfold Qlt in *; cbn in *. lia.
Qed.

Lemma getEnhancedTabStats_cons (processes : Processes) (tab : Tab.t)
    (rest : list Tab.t) (w : World) :
  eval (getEnhancedTabStats processes (tab :: rest)) w =
  eval (enhance_tab processes tab) w
    :: eval (getEnhancedTabStats processes rest)
            (exec (enhance_tab processes tab) w).
Proof.
  cbn [getEnhancedTabStats]. rewrite eval_bind. by rewrite eval_bind.
Qed.

Lemma enhance_tab_eval (processes : Processes) (tab : Tab.t) (w : World) :
  eval (enhance_tab processes tab) w =
  EnhancedTab.mk tab (default TabRecord.empty (tabStats w !! Tab.id tab))
                 (eval (measure_tab processes tab) w).1
                 (eval (measure_tab processes tab) w).2
                 (Tab.active tab).
Proof. unfold enhance_tab. rewrite eval_bind. by rewrite eval_bind. Qed.

Lemma measure_tab_rejected
    (getProcessInfo : Z → Js.awaited (option ProcessInfo.t))
    (tab : Tab.t) (w : World) :
  getProcessInfo (Tab.id tab) = Js.Rejected →
  eval (measure_tab (Some getProcessInfo) tab) w =
  (pretty (Qfloor (random w (randomDraws w) * 100 + 20)) +:+ " MB",
   pretty (Qfloor (random w (S (randomDraws w)) * 15)) +:+ "%").
Proof. intros Hinfo. unfold measure_tab. by rewrite Hinfo. Qed.

(** X14. [getEnhancedTabStats] returns one element per listed tab, in the
    order of the listing; each carries its tab, the record tracked for the
    tab's id when the call began (the empty object when there is none) and
    [isActive] equal to the tab's [active].  With [Math.random()] in [0, 1),
    the two usage texts are "N/A" when [chrome.processes] is absent or has no
    entry for the tab, the formatted figures of the entry when there is one,
    and, when the process query rejects, a whole number of MB from 20 to 119
    and a whole percentage from 0 to 14. *)
Theorem getEnhancedTabStats_elements (processes : Processes)
    (tabs : list Tab.t) (w : World) :
  (∀ n, (0 <= random w n)%Q ∧ (random w n < 1)%Q) →
  Forall2
    (λ tab e,
       EnhancedTab.tab e = tab ∧
       EnhancedTab.isActive e = Tab.active tab ∧
       EnhancedTab.storedStats e
         = default TabRecord.empty (tabStats w !! Tab.id tab) ∧
       match processes with
       | None =>
           EnhancedTab.memoryUsage e = "N/A" ∧ EnhancedTab.cpuUsage e = "N/A"
       | Some getProcessInfo =>
           match getProcessInfo (Tab.id tab) with
           | Js.Resolved None =>
               EnhancedTab.memoryUsage e = "N/A" ∧
               EnhancedTab.cpuUsage e = "N/A"
           | Js.Resolved (Some process) =>
               EnhancedTab.memoryUsage e
                 = formatBytes (number_times_1024
                                  (to_number (ProcessInfo.memory process))) ∧
               EnhancedTab.cpuUsage e
                 = show_round (to_number (ProcessInfo.cpu process)) +:+ "%"
           | Js.Rejected =>
               ∃ megabytes percent,
                 20 <= megabytes <= 119 ∧ 0 <= percent <= 14 ∧
                 EnhancedTab.memoryUsage e = pretty megabytes +:+ " MB" ∧
                 EnhancedTab.cpuUsage e = pretty percent +:+ "%"
           end
       end)
    tabs (eval (getEnhancedTabStats processes tabs) w).
Proof.
  intros Hrandom.
  assert (Hgeneral : ∀ w1,
    tabStats w1 = tabStats w → random w1 = random w →
    Forall2
      (λ tab e,
         EnhancedTab.tab e = tab ∧
         EnhancedTab.isActive e = Tab.active tab ∧
         EnhancedTab.storedStats e
           = default TabRecord.empty (tabStats w !! Tab.id tab) ∧
         match processes with
         | None =>
             EnhancedTab.memoryUsage e = "N/A" ∧
             EnhancedTab.cpuUsage e = "N/A"
         | Some getProcessInfo =>
             match getProcessInfo (Tab.id tab) with
             | Js.Resolved None =>
                 EnhancedTab.memoryUsage e = "N/A" ∧
                 EnhancedTab.cpuUsage e = "N/A"
             | Js.Resolved (Some process) =>
                 EnhancedTab.memoryUsage e
                   = formatBytes (number_times_1024
                                    (to_number (ProcessInfo.memory process))) ∧
                 EnhancedTab.cpuUsage e
                   = show_round (to_number (ProcessInfo.cpu process)) +:+ "%"
             | Js.Rejected =>
                 ∃ megabytes percent,
                   20 <= megabytes <= 119 ∧ 0 <= percent <= 14 ∧
                   EnhancedTab.memoryUsage e = pretty megabytes +:+ " MB" ∧
                   EnhancedTab.cpuUsage e = pretty percent +:+ "%"
             end
         end)
      tabs (eval (getEnhancedTabStats processes tabs) w1));
    [|by apply Hgeneral].
  induction tabs as [|tab rest IH]; intros w1 Htabs Hdraws; [constructor|].
  rewrite getEnhancedTabStats_cons. constructor.
  - rewrite enhance_tab_eval. cbn. rewrite Htabs.
    split; [done|]. split; [done|]. split; [done|].
    destruct processes as [getProcessInfo|]; [|done].
    destruct (getProcessInfo (Tab.id tab)) as [[process|]|] eqn:Hinfo;
      [by unfold measure_tab; rewrite Hinfo..|].
    rewrite measure_tab_rejected by done. cbn [fst snd]. rewrite Hdraws.
    destruct (Hrandom (randomDraws w1)), (Hrandom (S (randomDraws w1))).
    exists (Qfloor (random w (randomDraws w1) * 100 + 20)),
           (Qfloor (random w (S (randomDraws w1)) * 15)).
    split; [by apply simulated_tab_memory_bounds|].
    split; [by apply simulated_tab_cpu_bounds|]. done.
  - destruct (read_only_enhance_tab processes tab w1)
      as (Ht & _ & _ & _ & Hr).
    apply IH; congruence.
Qed.

Lemma getEnhancedTabStats_elements_witness :
  let mail := Tab.mk 1 (Some "Mail") None true in
  let news := Tab.mk 2 (Some "News") None false in
  let w := initial (λ _, 2000) (λ _, 1 # 2) in
  List.map (λ e, (Tab.id (EnhancedTab.tab e), EnhancedTab.isActive e))
           (eval (getEnhancedTabStats None [mail; news]) w)
  = [(1, true); (2, false)] ∧
  Forall2 (λ (tab : Tab.t) e, EnhancedTab.memoryUsage e = "N/A")
          [mail; news] (eval (getEnhancedTabStats None [mail; news]) w).
Proof.
  intros mail news w. split; [reflexivity|].
  eapply Forall2_impl.
  - apply (getEnhancedTabStats_elements None [mail; news] w).
    intros n. cbn. split; [discriminate|reflexivity].
  - intros tab e (_ & _ & _ & Hmemory & _). exact Hmemory.
Defined.

(** ** A listing that is already in order *)

Lemma Array_sort_ordered_id {A} (cmp : A → A → Z) (l : list A) :
  ordered cmp l → Array_sort cmp l = l.
Proof.
  induction l as [|x l IH]; [done|]. intros Hl.
  change (Array_sort cmp (x :: l)) with (sort_insert cmp x (Array_sort cmp l)).
  destruct l as [|y l]; [done|]. destruct Hl as [Hxy Hl].
  rewrite (IH Hl). cbn.
  by destruct (Z.leb_spec (cmp x y) 0) as [_|Hgt]; [|lia].
Qed.

Lemma ordered_map {A B} (f : A → B) (cmp : B → B → Z) (l : list A) :
  ordered cmp (List.map f l) ↔ ordered (λ a b, cmp (f a) (f b)) l.
Proof.
  induction l as [|x l IH]; [done|].
  destruct l as [|y l]; [done|]. cbn in *. by rewrite IH.
Qed.

Lemma enhance_all_downloads (downloads : list DownloadItem.t) (w : World) :
  List.map EnhancedDownload.download (eval (enhance_all downloads) w)
  = downloads.
Proof.
  induction (enhance_all_fields downloads w) as [|d e ds es [Hd _] _ IH];
    [done|].
  cbn. by rewrite Hd, IH.
Qed.

(** X15. When the host lists the downloads already in descending order of
    [startTime], [getEnhancedDownloadStats] returns the entries in the order
    of the listing; downloads whose start times collate as equal keep their
    relative order. *)
Theorem getEnhancedDownloadStats_keeps_order {collation : Collation}
    (downloads : list DownloadItem.t) (w : World) :
  listed_descending downloads →
  eval (getEnhancedDownloadStats downloads) w
    = eval (enhance_all downloads) w ∧
  List.map EnhancedDownload.download
           (eval (getEnhancedDownloadStats downloads) w)
    = downloads.
Proof.
  intros Hlisted.
  assert (Hsame : eval (getEnhancedDownloadStats downloads) w
                  = eval (enhance_all downloads) w).
  { unfold getEnhancedDownloadStats. rewrite eval_bind.
    change (eval (mret ?x) _) with x.
    apply Array_sort_ordered_id.
    apply (ordered_map EnhancedDownload.download
             (λ a b, localeCompare (DownloadItem.startTime b)
                                   (DownloadItem.startTime a))).
    by rewrite enhance_all_downloads. }
  split; [done|]. rewrite Hsame. apply enhance_all_downloads.
Qed.

Lemma getEnhancedDownloadStats_keeps_order_witness :
  let first :=
    DownloadItem.mk 1 (Some "a.zip") None (Some "complete") 200 (Some 200)
                    "2024-05-02T10:00:00.000Z" in
  let second :=
    DownloadItem.mk 2 (Some "b.zip") None (Some "complete") 200 (Some 200)
                    "2024-05-02T10:00:00.000Z" in
  let third :=
    DownloadItem.mk 3 (Some "c.zip") None (Some "complete") 200 (Some 200)
                    "2024-05-01T08:30:00.000Z" in
  List.map EnhancedDownload.download
    (eval (getEnhancedDownloadStats (collation := codeunit_compare)
             [first; second; third])
          (initial (λ _, 2000) (λ _, 1 # 2)))
  = [first; second; third].
Proof.
  intros first second third.
  apply (getEnhancedDownloadStats_keeps_order (collation := codeunit_compare)).
  unfold listed_descending. cbn [ordered]. repeat split; by vm_compute.
Defined.
